(** * iotex-core: staking handlers and the Merkle Patricia Tree front end

    A shallow embedding of
    - [action/protocol/staking/handlers.go]  (module [Staking]), and
    - [db/trie/merklepatriciatree/merklepatriciatree.go]
      (module [MerklePatriciaTree]),
    followed by the properties of the specification that concern them.

    Conventions.  [*big.Int] is [Z]; [uint64] is [N] (no arithmetic is done
    on it except the bucket counter, whose wrap-around is written out);
    [time.Time] is the number of nanoseconds since the Unix epoch, in [Z];
    [time.Duration] is an [int64] number of nanoseconds; byte slices are
    [list Byte.byte].  A Go function returning [(value, error)] and mutating
    the state manager it is given is a computation in the state-and-error
    monad [M]: the state is threaded through, also on the error path, exactly
    as the Go code leaves it behind. *)

From stdpp Require Import base numbers option list strings gmap fin_maps.

#[local] Open Scope Z_scope.

(** ** Bytes *)

Abbreviation bytes := (list Byte.byte).

#[global] Instance byte_eq_dec : EqDecision Byte.byte := Byte.byte_eq_dec.

#[global] Program Instance byte_countable : Countable Byte.byte :=
  inj_countable Byte.to_N Byte.of_N _.
Next Obligation. intros b. apply Byte.of_to_N. Qed.

(** The byte that is [n] modulo 256. *)
Definition byte_of_N (n : N) : Byte.byte :=
  default Byte.x00 (Byte.of_N (n `mod` 256)).

(** ** Errors and the state-and-error monad *)

(** The causes ([errors.Cause]) of the Go errors that occur.  Wrapping
    ([errors.Wrap]) only adds a message and is not modelled. *)
Inductive error : Type :=
  | ErrStateNotExist        (* state.ErrStateNotExist *)
  | ErrNotEnoughBalance     (* state.ErrNotEnoughBalance *)
  | ErrInvalidAmount        (* staking.ErrInvalidAmount *)
  | ErrInvalidOwner         (* staking.ErrInvalidOwner *)
  | ErrInvalidCanName       (* staking.ErrInvalidCanName *)
  | ErrCandidateConflict    (* a collision in the candidate center *)
  | ErrHitGasLimit          (* action.ErrHitGasLimit *)
  | ErrBucketOwnerMismatch  (* fmt.Errorf in fetchBucket *)
  | ErrSelfStakingBucket    (* errors.New in fetchBucket *)
  | ErrNotExist             (* trie.ErrNotExist *)
  | ErrInvalidTrie          (* trie.ErrInvalidTrie *)
  | ErrInvalidKeyLength     (* errors.Errorf in checkKeyType *)
  | ErrInvalidNodeType      (* errors.New in loadNode *)
  | ErrPanic (msg : string) (* a Go panic, among them a nil dereference *)
  | ErrOther (msg : string) (* any other failure of a collaborator *).

#[global] Instance error_eq_dec : EqDecision error.
Proof. solve_decision. Defined.

Inductive result (A : Type) : Type :=
  | Ok (a : A)
  | Err (e : error).
Arguments Ok {A} a.
Arguments Err {A} e.

Definition is_Ok {A} (r : result A) : bool :=
  match r with Ok _ => true | Err _ => false end.

(** [M S A]: a computation over a mutable state [S] that returns an [A] or
    an error.  The state that comes back with an error is the state at the
    [return nil, err]. *)
Definition M (S A : Type) : Type := S → result A * S.

Definition ret {S A} (a : A) : M S A := λ s, (Ok a, s).
Definition throw {S A} (e : error) : M S A := λ s, (Err e, s).
Definition bind {S A B} (m : M S A) (k : A → M S B) : M S B :=
  λ s, match m s with
       | (Ok a, s') => k a s'
       | (Err e, s') => (Err e, s')
       end.
Definition get {S} : M S S := λ s, (Ok s, s).
Definition put {S} (s : S) : M S unit := λ _, (Ok tt, s).
Definition modify {S} (f : S → S) : M S unit := λ s, (Ok tt, f s).
(** A read ([protocol.StateReader]) used inside a computation. *)
Definition reads {S A} (f : S → result A) : M S A := λ s, (f s, s).
Definition lift_result {S A} (r : result A) : M S A := λ s, (r, s).

#[global] Instance M_ret {S} : MRet (M S) := λ A, @ret S A.
#[global] Instance M_bind {S} : MBind (M S) := λ A B k m, @bind S A B m k.

(** Closes an equation between closed terms by evaluating both sides. *)
Ltac vm_refl :=
  match goal with
  | |- ?a = _ => vm_cast_no_check (eq_refl a)
  end.

Module Staking.

(** ** Data model *)

(** [address.Address]: an identity compared by its bytes; modelled by the
    string form the state manager keys accounts with. *)
Abbreviation Address := string.

(** [iotextypes.ReceiptStatus]: the statuses the handlers emit. *)
Inductive ReceiptStatus : Type :=
  | ReceiptStatus_Failure
  | ReceiptStatus_Success
  | ReceiptStatus_ErrCandidateNotExist
  | ReceiptStatus_ErrInvalidBucketIndex
  | ReceiptStatus_ErrUnauthorizedOperator
  | ReceiptStatus_ErrInvalidBucketType
  | ReceiptStatus_ErrNotEnoughBalance
  | ReceiptStatus_ErrWithdrawBeforeUnstake
  | ReceiptStatus_ErrWithdrawBeforeMaturity.

#[global] Instance ReceiptStatus_eq_dec : EqDecision ReceiptStatus.
Proof. solve_decision. Defined.

(** [state.Account], the two fields the handlers touch. *)
Record Account : Type := mkAccount {
  Balance : Z;
  Nonce : N;
}.

(** [time.Time] and [time.Duration]. *)
Abbreviation Time := Z.
Abbreviation Duration := Z.
Definition Nanosecond : Duration := 1.
Definition Second : Duration := 1000000000.
Definition Hour : Duration := 3600 * Second.
(** [t.Unix()]: whole seconds since the epoch. *)
Definition Unix (t : Time) : Z := t `div` Second.
(** [t.Before(u)]. *)
Definition Before (t u : Time) : bool := bool_decide (t < u).
(** [t.Add(d)]. *)
Definition Add (t : Time) (d : Duration) : Time := t + d.
(** Two's complement wrap-around of [int64] arithmetic. *)
Definition int64_wrap (z : Z) : Z := (z + 2 ^ 63) `mod` 2 ^ 64 - 2 ^ 63.

Record VoteBucket : Type := mkVoteBucket {
  bCandidate : Address;       (* VoteBucket.Candidate *)
  bOwner : Address;           (* VoteBucket.Owner *)
  StakedAmount : Z;
  StakedDuration : Duration;
  CreateTime : Time;
  StakeStartTime : Time;
  UnstakeStartTime : Time;
  AutoStake : bool;
}.

Record Candidate : Type := mkCandidate {
  Owner : Address;
  Operator : Address;
  Reward : Address;
  Name : string;
  Votes : Z;
  SelfStakeBucketIdx : N;
  SelfStake : Z;
}.

#[global] Instance Account_eq_dec : EqDecision Account.
Proof. solve_decision. Defined.
#[global] Instance VoteBucket_eq_dec : EqDecision VoteBucket.
Proof. solve_decision. Defined.
#[global] Instance Candidate_eq_dec : EqDecision Candidate.
Proof. solve_decision. Defined.

(** [protocol.ActionCtx] and [protocol.BlockCtx], the fields read by the
    handlers; [Ctx] is the [context.Context] that carries both. *)
Record ActionCtx : Type := mkActionCtx {
  Caller : Address;
  ActionHash : bytes;
  GasPrice : Z;
  IntrinsicGas : N;
  ActNonce : N;               (* ActionCtx.Nonce *)
}.

Record BlockCtx : Type := mkBlockCtx {
  BlockHeight : N;
  BlockTimeStamp : Time;
  GasLimit : N;
}.

Record Ctx : Type := mkCtx {
  actionCtx : ActionCtx;      (* protocol.MustGetActionCtx(ctx) *)
  blkCtx : BlockCtx;          (* protocol.MustGetBlockCtx(ctx) *)
}.

(** [action.Log] and [action.Receipt]. *)
Record Log : Type := mkLog {
  lAddress : string;
  Topics : list bytes;
  Data : bytes;
  lBlockHeight : N;
  lActionHash : bytes;
}.

Record Receipt : Type := mkReceipt {
  Status : ReceiptStatus;
  rBlockHeight : N;
  rActionHash : bytes;
  GasConsumed : N;
  ContractAddress : string;
  Logs : list Log;
}.

(** [fetchError] of handlers.go. *)
Record fetchError : Type := mkFetchError {
  err : error;
  failureStatus : ReceiptStatus;
}.

(** ** The state manager

    Modelled from the spec: the typed view of [protocol.StateManager] that
    the staking helpers read and write (section 3, "Indices (persisted)"):
    [bucket[i]], [voter_buckets[owner]], [cand_buckets[candidate]],
    [candidate[owner]], [bucket_count], the accounts, and the reward pool
    that the deposit-gas hook credits. *)
Record StateManager : Type := mkStateManager {
  accounts : gmap Address Account;
  buckets : gmap N VoteBucket;
  totalBucketCount : N;
  voterBuckets : gmap Address (gset N);
  candBuckets : gmap Address (gset N);
  candidates : gmap Address Candidate;
  rewardPool : Z;
}.

Definition set_accounts (f : gmap Address Account → gmap Address Account)
    (sm : StateManager) : StateManager :=
  mkStateManager (f (accounts sm)) (buckets sm) (totalBucketCount sm)
    (voterBuckets sm) (candBuckets sm) (candidates sm) (rewardPool sm).
Definition set_buckets (f : gmap N VoteBucket → gmap N VoteBucket)
    (sm : StateManager) : StateManager :=
  mkStateManager (accounts sm) (f (buckets sm)) (totalBucketCount sm)
    (voterBuckets sm) (candBuckets sm) (candidates sm) (rewardPool sm).
Definition set_totalBucketCount (f : N → N) (sm : StateManager) : StateManager :=
  mkStateManager (accounts sm) (buckets sm) (f (totalBucketCount sm))
    (voterBuckets sm) (candBuckets sm) (candidates sm) (rewardPool sm).
Definition set_voterBuckets
    (f : gmap Address (gset N) → gmap Address (gset N))
    (sm : StateManager) : StateManager :=
  mkStateManager (accounts sm) (buckets sm) (totalBucketCount sm)
    (f (voterBuckets sm)) (candBuckets sm) (candidates sm) (rewardPool sm).
Definition set_candBuckets
    (f : gmap Address (gset N) → gmap Address (gset N))
    (sm : StateManager) : StateManager :=
  mkStateManager (accounts sm) (buckets sm) (totalBucketCount sm)
    (voterBuckets sm) (f (candBuckets sm)) (candidates sm) (rewardPool sm).
Definition set_candidates (f : gmap Address Candidate → gmap Address Candidate)
    (sm : StateManager) : StateManager :=
  mkStateManager (accounts sm) (buckets sm) (totalBucketCount sm)
    (voterBuckets sm) (candBuckets sm) (f (candidates sm)) (rewardPool sm).
Definition set_rewardPool (f : Z → Z) (sm : StateManager) : StateManager :=
  mkStateManager (accounts sm) (buckets sm) (totalBucketCount sm)
    (voterBuckets sm) (candBuckets sm) (candidates sm) (f (rewardPool sm)).

(** The bucket, bucket-index and candidate part of the persisted state. *)
Record StakingState : Type := mkStakingState {
  ss_buckets : gmap N VoteBucket;
  ss_totalBucketCount : N;
  ss_voterBuckets : gmap Address (gset N);
  ss_candBuckets : gmap Address (gset N);
  ss_candidates : gmap Address Candidate;
}.

Definition stakingState (sm : StateManager) : StakingState :=
  mkStakingState (buckets sm) (totalBucketCount sm) (voterBuckets sm)
    (candBuckets sm) (candidates sm).


(** *** Accounts *)

(** Modelled from the spec: [accountutil.LoadAccount] (section 4.5, "load
    caller account"; a key that is absent is the [ErrStateNotExist] of the
    state-manager contract). *)
Definition LoadAccount (sr : StateManager) (a : Address) : result Account :=
  match accounts sr !! a with
  | Some acc => Ok acc
  | None => Err ErrStateNotExist
  end.

(** Modelled from the spec: [accountutil.StoreAccount] (section 6, "stores
    back"). *)
Definition StoreAccount (a : Address) (acc : Account) : M StateManager unit :=
  modify (set_accounts <[a := acc]>).

(** Modelled from the spec: [Account.AddBalance] and [Account.SubBalance]
    (section 3: the balance is a non-negative big integer). *)
Definition AddBalance (acc : Account) (amount : Z) : result Account :=
  if bool_decide (amount < 0) then Err ErrInvalidAmount
  else Ok (mkAccount (Balance acc + amount) (Nonce acc)).

Definition SubBalance (acc : Account) (amount : Z) : result Account :=
  if bool_decide (amount < 0) then Err ErrInvalidAmount
  else if bool_decide (Balance acc < amount) then Err ErrNotEnoughBalance
  else Ok (mkAccount (Balance acc - amount) (Nonce acc)).

(** *** Buckets and bucket indices *)

(** Modelled from the spec: [NewVoteBucket] (section 3, VoteBucket: the
    duration is in whole days, the unstake time starts as the zero
    sentinel). *)
Definition NewVoteBucket (cand owner : Address) (amount : Z) (duration : N)
    (ctime : Time) (autoStake : bool) : VoteBucket :=
  {| bCandidate := cand; bOwner := owner; StakedAmount := amount;
     StakedDuration := int64_wrap (Z.of_N duration * 24 * Hour);
     CreateTime := ctime; StakeStartTime := ctime;
     UnstakeStartTime := 0; AutoStake := autoStake |}.

(** Modelled from the spec: [getBucket] (section 4.5, fetch_bucket: "missing
    key"). *)
Definition getBucket (sr : StateManager) (index : N) : result VoteBucket :=
  match buckets sr !! index with
  | Some b => Ok b
  | None => Err ErrStateNotExist
  end.

(** Modelled from the spec: [putBucket] (section 3: [bucket_count] is the
    next index, assigned monotonically; it is a [uint64]). *)
Definition putBucket (bucket : VoteBucket) : M StateManager N :=
  sm ← get;
  let index := totalBucketCount sm in
  modify (set_buckets <[index := bucket]>);;
  modify (set_totalBucketCount (λ n, ((n + 1) `mod` 2 ^ 64)%N));;
  mret index.

(** Modelled from the spec: [updateBucket] and [delBucket] (section 3,
    [bucket[i]]). *)
Definition updateBucket (index : N) (bucket : VoteBucket) : M StateManager unit :=
  modify (set_buckets <[index := bucket]>).

Definition delBucket (index : N) : M StateManager unit :=
  modify (set_buckets (delete index)).

(** The set stored under [a] in a bucket index, empty when there is none. *)
Definition indices (m : gmap Address (gset N)) (a : Address) : gset N :=
  default ∅ (m !! a).

(** Modelled from the spec: [putVoterBucketIndex], [delVoterBucketIndex],
    [putCandBucketIndex], [delCandBucketIndex] (section 3,
    [voter_buckets[owner]] and [cand_buckets[candidate]] are sets of bucket
    indices). *)
Definition putVoterBucketIndex (a : Address) (index : N) : M StateManager unit :=
  modify (set_voterBuckets (λ m, <[a := indices m a ∪ {[index]}]> m)).

Definition delVoterBucketIndex (a : Address) (index : N) : M StateManager unit :=
  modify (set_voterBuckets (λ m, <[a := indices m a ∖ {[index]}]> m)).

Definition putCandBucketIndex (a : Address) (index : N) : M StateManager unit :=
  modify (set_candBuckets (λ m, <[a := indices m a ∪ {[index]}]> m)).

Definition delCandBucketIndex (a : Address) (index : N) : M StateManager unit :=
  modify (set_candBuckets (λ m, <[a := indices m a ∖ {[index]}]> m)).

(** [putBucketAndIndex] of handlers.go. *)
Definition putBucketAndIndex (bucket : VoteBucket) : M StateManager N :=
  index ← putBucket bucket;
  putVoterBucketIndex (bOwner bucket) index;;
  putCandBucketIndex (bCandidate bucket) index;;
  mret index.

Definition set_bCandidate (v : Address) (b : VoteBucket) : VoteBucket :=
  mkVoteBucket v (bOwner b) (StakedAmount b) (StakedDuration b) (CreateTime b)
    (StakeStartTime b) (UnstakeStartTime b) (AutoStake b).
Definition set_bOwner (v : Address) (b : VoteBucket) : VoteBucket :=
  mkVoteBucket (bCandidate b) v (StakedAmount b) (StakedDuration b)
    (CreateTime b) (StakeStartTime b) (UnstakeStartTime b) (AutoStake b).
Definition set_StakedAmount (v : Z) (b : VoteBucket) : VoteBucket :=
  mkVoteBucket (bCandidate b) (bOwner b) v (StakedDuration b) (CreateTime b)
    (StakeStartTime b) (UnstakeStartTime b) (AutoStake b).
Definition set_StakedDuration (v : Duration) (b : VoteBucket) : VoteBucket :=
  mkVoteBucket (bCandidate b) (bOwner b) (StakedAmount b) v (CreateTime b)
    (StakeStartTime b) (UnstakeStartTime b) (AutoStake b).
Definition set_UnstakeStartTime (v : Time) (b : VoteBucket) : VoteBucket :=
  mkVoteBucket (bCandidate b) (bOwner b) (StakedAmount b) (StakedDuration b)
    (CreateTime b) (StakeStartTime b) v (AutoStake b).
Definition set_AutoStake (v : bool) (b : VoteBucket) : VoteBucket :=
  mkVoteBucket (bCandidate b) (bOwner b) (StakedAmount b) (StakedDuration b)
    (CreateTime b) (StakeStartTime b) (UnstakeStartTime b) v.

(** *** Candidates *)

(** Modelled from the spec: [putCandidate] (section 3,
    [candidate[owner]]). *)
Definition putCandidate (c : Candidate) : M StateManager unit :=
  modify (set_candidates <[Owner c := c]>).

Definition set_Votes (v : Z) (c : Candidate) : Candidate :=
  mkCandidate (Owner c) (Operator c) (Reward c) (Name c) v
    (SelfStakeBucketIdx c) (SelfStake c).
Definition set_SelfStake (v : Z) (c : Candidate) : Candidate :=
  mkCandidate (Owner c) (Operator c) (Reward c) (Name c) (Votes c)
    (SelfStakeBucketIdx c) v.
Definition set_Name (v : string) (c : Candidate) : Candidate :=
  mkCandidate (Owner c) (Operator c) (Reward c) v (Votes c)
    (SelfStakeBucketIdx c) (SelfStake c).
Definition set_Operator (v : Address) (c : Candidate) : Candidate :=
  mkCandidate (Owner c) v (Reward c) (Name c) (Votes c)
    (SelfStakeBucketIdx c) (SelfStake c).
Definition set_Reward (v : Address) (c : Candidate) : Candidate :=
  mkCandidate (Owner c) (Operator c) v (Name c) (Votes c)
    (SelfStakeBucketIdx c) (SelfStake c).

(** Modelled from the spec: [Candidate.AddVote], [Candidate.SubVote] and
    [Candidate.AddSelfStake] (section 3: votes and self-stake are big
    integers that stay non-negative). *)
Definition AddVote (c : Candidate) (amount : Z) : result Candidate :=
  if bool_decide (amount < 0) then Err ErrInvalidAmount
  else Ok (set_Votes (Votes c + amount) c).

Definition SubVote (c : Candidate) (amount : Z) : result Candidate :=
  if bool_decide (amount < 0) then Err ErrInvalidAmount
  else if bool_decide (Votes c < amount) then Err ErrInvalidAmount
  else Ok (set_Votes (Votes c - amount) c).

Definition AddSelfStake (c : Candidate) (amount : Z) : result Candidate :=
  if bool_decide (amount < 0) then Err ErrInvalidAmount
  else Ok (set_SelfStake (SelfStake c + amount) c).

(** *** The in-memory candidate center *)

(** Modelled from the spec: [CandidateCenter] (section 4.4): four maps over
    one set of candidates; the getters hand out copies. *)
Record CandidateCenter : Type := mkCandidateCenter {
  nameMap : gmap string Candidate;
  ownerMap : gmap Address Candidate;
  operatorMap : gmap Address Candidate;
  selfStkBucketMap : gmap N Candidate;
}.

Definition emptyCenter : CandidateCenter := mkCandidateCenter ∅ ∅ ∅ ∅.

Definition GetByName (m : CandidateCenter) (name : string) : option Candidate :=
  nameMap m !! name.
Definition GetByOwner (m : CandidateCenter) (owner : Address) : option Candidate :=
  ownerMap m !! owner.
Definition GetByOperator (m : CandidateCenter) (operator : Address) : option Candidate :=
  operatorMap m !! operator.
Definition GetBySelfStakingBucket (m : CandidateCenter) (index : N) : option Candidate :=
  selfStkBucketMap m !! index.
Definition ContainsSelfStakingBucket (m : CandidateCenter) (index : N) : bool :=
  bool_decide (is_Some (selfStkBucketMap m !! index)).

(** [c] collides with a candidate of another owner found under one of its
    keys. *)
Definition collides (owner : Address) (found : option Candidate) : bool :=
  match found with
  | Some c' => bool_decide (Owner c' ≠ owner)
  | None => false
  end.

Definition center_remove (old : Candidate) (m : CandidateCenter) : CandidateCenter :=
  mkCandidateCenter (delete (Name old) (nameMap m))
    (delete (Owner old) (ownerMap m))
    (delete (Operator old) (operatorMap m))
    (delete (SelfStakeBucketIdx old) (selfStkBucketMap m)).

Definition center_insert (c : Candidate) (m : CandidateCenter) : CandidateCenter :=
  mkCandidateCenter (<[Name c := c]> (nameMap m))
    (<[Owner c := c]> (ownerMap m))
    (<[Operator c := c]> (operatorMap m))
    (<[SelfStakeBucketIdx c := c]> (selfStkBucketMap m)).

(** Modelled from the spec: [CandidateCenter.Upsert] (section 4.4): a
    collision with another candidate on name, operator or self-stake bucket
    index is rejected, a candidate of the same owner is replaced. *)
Definition Upsert (c : Candidate) : M CandidateCenter unit :=
  m ← get;
  if collides (Owner c) (GetByName m (Name c))
     || collides (Owner c) (GetByOperator m (Operator c))
     || collides (Owner c) (GetBySelfStakingBucket m (SelfStakeBucketIdx c))
  then throw ErrCandidateConflict
  else
    let m0 := match GetByOwner m (Owner c) with
              | Some old => center_remove old m
              | None => m
              end in
    put (center_insert c m0).

(** Modelled from the spec: [CandidateCenter.Delete] (section 4.4). *)
Definition Delete (owner : Address) : M CandidateCenter unit :=
  m ← get;
  match GetByOwner m owner with
  | Some old => put (center_remove old m)
  | None => mret tt
  end.

(** ** Actions *)

Record CreateStake : Type := mkCreateStake {
  cs_Candidate : string;
  cs_Amount : Z;
  cs_Duration : N;
  cs_AutoStake : bool;
}.
Record Unstake : Type := mkUnstake { us_BucketIndex : N }.
Record WithdrawStake : Type := mkWithdrawStake { ws_BucketIndex : N }.
Record ChangeCandidate : Type := mkChangeCandidate {
  cc_Candidate : string;
  cc_BucketIndex : N;
}.
Record TransferStake : Type := mkTransferStake {
  ts_VoterAddress : Address;
  ts_BucketIndex : N;
}.
Record DepositToStake : Type := mkDepositToStake {
  ds_BucketIndex : N;
  ds_Amount : Z;
}.
Record Restake : Type := mkRestake {
  rs_BucketIndex : N;
  rs_Duration : N;
  rs_AutoStake : bool;
}.
Record CandidateRegister : Type := mkCandidateRegister {
  cr_Name : string;
  cr_OperatorAddress : Address;
  cr_RewardAddress : Address;
  cr_OwnerAddress : option Address;   (* nil when absent *)
  cr_Amount : Z;
  cr_Duration : N;
  cr_AutoStake : bool;
}.
Record CandidateUpdate : Type := mkCandidateUpdate {
  cu_Name : string;
  cu_OperatorAddress : option Address;
  cu_RewardAddress : option Address;
}.

(** ** The protocol *)

Record Configuration : Type := mkConfiguration {
  WithdrawWaitingPeriod : Duration;
  RegistrationConsts_Fee : Z;
}.

(** The immutable part of [Protocol].  [depositGas] is the hook handed to
    the protocol at construction; [calculateVoteWeight] is the method that
    evaluates the vote-weight formula of the configuration. *)
Record Protocol : Type := mkProtocol {
  addr : Address;
  config : Configuration;
  depositGas : Ctx → Z → M StateManager unit;
  calculateVoteWeight : VoteBucket → bool → Z;
}.

(** What a handler mutates: the state manager it is given and the candidate
    center of the protocol. *)
Record World : Type := mkWorld {
  sm : StateManager;
  inMemCandidates : CandidateCenter;
}.

Definition onSM {A} (m : M StateManager A) : M World A :=
  λ w, let '(r, s) := m (sm w) in (r, mkWorld s (inMemCandidates w)).
Definition onCenter {A} (m : M CandidateCenter A) : M World A :=
  λ w, let '(r, c) := m (inMemCandidates w) in (r, mkWorld (sm w) c).
(** Reads of the state manager and of the candidate center. *)
Definition readSM {A} (f : StateManager → A) : M World A :=
  λ w, (Ok (f (sm w)), w).
Definition readCenter {A} (f : CandidateCenter → A) : M World A :=
  λ w, (Ok (f (inMemCandidates w)), w).

(** [byteutil.Uint64ToBytes]: the eight bytes of [v], most significant
    first. *)
Definition Uint64ToBytes (v : N) : bytes :=
  (λ i, byte_of_N (N.shiftr v (8 * i))) <$> [7; 6; 5; 4; 3; 2; 1; 0]%N.

Definition HandleCreateStake : string := "createStake".
Definition HandleUnstake : string := "unstake".
Definition HandleWithdrawStake : string := "withdrawStake".
Definition HandleChangeCandidate : string := "changeCandidate".
Definition HandleTransferStake : string := "transferStake".
Definition HandleDepositToStake : string := "depositToStake".
Definition HandleRestake : string := "restake".
Definition HandleCandidateRegister : string := "candidateRegister".
Definition HandleCandidateUpdate : string := "candidateUpdate".

Section Handlers.

(** [hash.Hash256b] of go-pkgs. *)
Context (Hash256b : bytes → bytes).

Context (p : Protocol).

Definition createLog (ctx : Ctx) (handlerName : string)
    (candidateAddr : option Address) (voterAddr : Address) (data : bytes) : Log :=
  let topics := [Hash256b (String.list_byte_of_string handlerName)] in
  let topics := match candidateAddr with
                | Some c => topics ++ [Hash256b (String.list_byte_of_string c)]
                | None => topics
                end in
  let topics := topics ++ [Hash256b (String.list_byte_of_string voterAddr)] in
  {| lAddress := addr p; Topics := topics; Data := data;
     lBlockHeight := BlockHeight (blkCtx ctx);
     lActionHash := ActionHash (actionCtx ctx) |}.

Definition fetchCaller (ctx : Ctx) (sr : StateManager) (amount : Z)
    : Account * Z + Z * fetchError :=
  match LoadAccount sr (Caller (actionCtx ctx)) with
  | Err e =>
      (* return nil, nil, &fetchError{...}: the nil fee is written 0 *)
      inr (0, {| err := e; failureStatus := ReceiptStatus_Failure |})
  | Ok caller =>
      let gasFee := GasPrice (actionCtx ctx) * Z.of_N (IntrinsicGas (actionCtx ctx)) in
      if bool_decide (amount + gasFee > Balance caller) then
        let fetchErr := {| err := ErrNotEnoughBalance;
                           failureStatus := ReceiptStatus_ErrNotEnoughBalance |} in
        let gasFee := if bool_decide (gasFee > Balance caller)
                      then Balance caller else gasFee in
        inr (gasFee, fetchErr)
      else inl (caller, gasFee)
  end.

Definition fetchBucket (ctx : Ctx) (sr : StateManager) (center : CandidateCenter)
    (index : N) (checkOwner allowSelfStaking : bool) : VoteBucket + fetchError :=
  match getBucket sr index with
  | Err e =>
      let fetchErr := {| err := e; failureStatus := ReceiptStatus_Failure |} in
      let fetchErr :=
        if bool_decide (e = ErrStateNotExist)
        then {| err := e; failureStatus := ReceiptStatus_ErrInvalidBucketIndex |}
        else fetchErr in
      inr fetchErr
  | Ok bucket =>
      if checkOwner && negb (bool_decide (bOwner bucket = Caller (actionCtx ctx))) then
        inr {| err := ErrBucketOwnerMismatch;
               failureStatus := ReceiptStatus_ErrUnauthorizedOperator |}
      else if negb allowSelfStaking && ContainsSelfStakingBucket center index then
        inr {| err := ErrSelfStakingBucket;
               failureStatus := ReceiptStatus_ErrInvalidBucketType |}
      else inl bucket
  end.

Definition increaseNonce (a : Address) (nonce : N) : M StateManager unit :=
  acc ← reads (λ s, LoadAccount s a);
  (* if nonce > acc.Nonce *)
  let acc := if bool_decide (Nonce acc < nonce)%N
             then mkAccount (Balance acc) nonce else acc in
  StoreAccount a acc.

Definition settleAction (ctx : Ctx) (status : ReceiptStatus) (gasFee : Z)
    (logs : list Log) : M StateManager Receipt :=
  if bool_decide (GasLimit (blkCtx ctx) < IntrinsicGas (actionCtx ctx))%N then
    throw ErrHitGasLimit
  else
    depositGas p ctx gasFee;;
    increaseNonce (Caller (actionCtx ctx)) (ActNonce (actionCtx ctx));;
    mret {| Status := status;
            rBlockHeight := BlockHeight (blkCtx ctx);
            rActionHash := ActionHash (actionCtx ctx);
            GasConsumed := IntrinsicGas (actionCtx ctx);
            ContractAddress := addr p;
            Logs := logs |}.

(** The shared shape
    [if fetchErr != nil { if Failure { return nil, err }; return settle }]. *)
Definition onFetchError (ctx : Ctx) (gasFee : Z) (fetchErr : fetchError)
    : M World Receipt :=
  if bool_decide (failureStatus fetchErr = ReceiptStatus_Failure) then
    throw (err fetchErr)
  else onSM (settleAction ctx (failureStatus fetchErr) gasFee []).


Definition handleCreateStake (ctx : Ctx) (act : CreateStake) : M World Receipt :=
  let actionCtx := actionCtx ctx in
  let blkCtx := blkCtx ctx in
  fetched ← readSM (λ s, fetchCaller ctx s (cs_Amount act));
  match fetched with
  | inr (gasFee, fetchErr) => onFetchError ctx gasFee fetchErr
  | inl (staker, gasFee) =>
      (* Create new bucket and bucket index *)
      found ← readCenter (λ c, GetByName c (cs_Candidate act));
      match found with
      | None =>
          onSM (settleAction ctx ReceiptStatus_ErrCandidateNotExist gasFee [])
      | Some candidate =>
          let bucket := NewVoteBucket (Owner candidate) (Caller actionCtx)
                          (cs_Amount act) (cs_Duration act)
                          (BlockTimeStamp blkCtx) (cs_AutoStake act) in
          bucketIdx ← onSM (putBucketAndIndex bucket);
          (* update candidate *)
          let weightedVote := calculateVoteWeight p bucket false in
          candidate ← lift_result (AddVote candidate weightedVote);
          onSM (putCandidate candidate);;
          (* update staker balance *)
          staker ← lift_result (SubBalance staker (cs_Amount act));
          onSM (StoreAccount (Caller actionCtx) staker);;
          let log := createLog ctx HandleCreateStake (Some (Owner candidate))
                       (Caller actionCtx) (Uint64ToBytes bucketIdx) in
          receipt ← onSM (settleAction ctx ReceiptStatus_Success gasFee [log]);
          onCenter (Upsert candidate);;
          mret receipt
      end
  end.

Definition handleUnstake (ctx : Ctx) (act : Unstake) : M World Receipt :=
  let actionCtx := actionCtx ctx in
  let blkCtx := blkCtx ctx in
  fetched ← readSM (λ s, fetchCaller ctx s 0);
  match fetched with
  | inr (gasFee, fetchErr) => onFetchError ctx gasFee fetchErr
  | inl (_, gasFee) =>
      w ← get;
      match fetchBucket ctx (sm w) (inMemCandidates w) (us_BucketIndex act) true true with
      | inr fetchErr => onFetchError ctx gasFee fetchErr
      | inl bucket =>
          (* update bucket *)
          let bucket := set_UnstakeStartTime (BlockTimeStamp blkCtx) bucket in
          onSM (updateBucket (us_BucketIndex act) bucket);;
          found ← readCenter (λ c, GetByOwner c (bCandidate bucket));
          match found with
          | None => throw ErrInvalidOwner
          | Some candidate =>
              center ← readCenter id;
              let weightedVote :=
                calculateVoteWeight p bucket
                  (ContainsSelfStakingBucket center (us_BucketIndex act)) in
              candidate ← lift_result (SubVote candidate weightedVote);
              (* clear candidate's self stake if the bucket is self staking *)
              let candidate :=
                if ContainsSelfStakingBucket center (us_BucketIndex act)
                then set_SelfStake 0 candidate else candidate in
              onSM (putCandidate candidate);;
              let log := createLog ctx HandleUnstake None (Caller actionCtx) [] in
              receipt ← onSM (settleAction ctx ReceiptStatus_Success gasFee [log]);
              onCenter (Upsert candidate);;
              mret receipt
          end
      end
  end.

Definition handleWithdrawStake (ctx : Ctx) (act : WithdrawStake) : M World Receipt :=
  let actionCtx := actionCtx ctx in
  let blkCtx := blkCtx ctx in
  fetched ← readSM (λ s, fetchCaller ctx s 0);
  match fetched with
  | inr (gasFee, fetchErr) => onFetchError ctx gasFee fetchErr
  | inl (withdrawer, gasFee) =>
      w ← get;
      match fetchBucket ctx (sm w) (inMemCandidates w) (ws_BucketIndex act) true true with
      | inr fetchErr => onFetchError ctx gasFee fetchErr
      | inl bucket =>
          (* check unstake time *)
          if bool_decide (Unix (UnstakeStartTime bucket) = 0) then
            onSM (settleAction ctx ReceiptStatus_ErrWithdrawBeforeUnstake gasFee [])
          else if Before (BlockTimeStamp blkCtx)
                    (Add (UnstakeStartTime bucket) (WithdrawWaitingPeriod (config p))) then
            onSM (settleAction ctx ReceiptStatus_ErrWithdrawBeforeMaturity gasFee [])
          else
            (* delete bucket and bucket index *)
            onSM (delBucket (ws_BucketIndex act));;
            onSM (delCandBucketIndex (bCandidate bucket) (ws_BucketIndex act));;
            onSM (delVoterBucketIndex (bOwner bucket) (ws_BucketIndex act));;
            (* update withdrawer balance *)
            withdrawer ← lift_result (AddBalance withdrawer (StakedAmount bucket));
            onSM (StoreAccount (Caller actionCtx) withdrawer);;
            let log := createLog ctx HandleWithdrawStake None (Caller actionCtx) [] in
            onSM (settleAction ctx ReceiptStatus_Success gasFee [log])
      end
  end.

Definition handleChangeCandidate (ctx : Ctx) (act : ChangeCandidate) : M World Receipt :=
  let actionCtx := actionCtx ctx in
  fetched ← readSM (λ s, fetchCaller ctx s 0);
  match fetched with
  | inr (gasFee, fetchErr) => onFetchError ctx gasFee fetchErr
  | inl (_, gasFee) =>
      found ← readCenter (λ c, GetByName c (cc_Candidate act));
      match found with
      | None =>
          onSM (settleAction ctx ReceiptStatus_ErrCandidateNotExist gasFee [])
      | Some candidate =>
          w ← get;
          match fetchBucket ctx (sm w) (inMemCandidates w) (cc_BucketIndex act) true false with
          | inr fetchErr => onFetchError ctx gasFee fetchErr
          | inl bucket =>
              found ← readCenter (λ c, GetByOwner c (bCandidate bucket));
              match found with
              | None => throw ErrInvalidOwner
              | Some prevCandidate =>
                  (* update bucket index *)
                  onSM (delCandBucketIndex (bCandidate bucket) (cc_BucketIndex act));;
                  onSM (putCandBucketIndex (Owner candidate) (cc_BucketIndex act));;
                  (* update bucket *)
                  let bucket := set_bCandidate (Owner candidate) bucket in
                  onSM (updateBucket (cc_BucketIndex act) bucket);;
                  let weightedVotes := calculateVoteWeight p bucket false in
                  (* update previous candidate *)
                  prevCandidate ← lift_result (SubVote prevCandidate weightedVotes);
                  onSM (putCandidate prevCandidate);;
                  (* update current candidate *)
                  candidate ← lift_result (AddVote candidate weightedVotes);
                  onSM (putCandidate candidate);;
                  let log := createLog ctx HandleChangeCandidate
                               (Some (Owner candidate)) (Caller actionCtx) [] in
                  receipt ← onSM (settleAction ctx ReceiptStatus_Success gasFee [log]);
                  onCenter (Upsert prevCandidate);;
                  onCenter (Upsert candidate);;
                  mret receipt
              end
          end
      end
  end.

Definition handleTransferStake (ctx : Ctx) (act : TransferStake) : M World Receipt :=
  let actionCtx := actionCtx ctx in
  fetched ← readSM (λ s, fetchCaller ctx s 0);
  match fetched with
  | inr (gasFee, fetchErr) => onFetchError ctx gasFee fetchErr
  | inl (_, gasFee) =>
      w ← get;
      match fetchBucket ctx (sm w) (inMemCandidates w) (ts_BucketIndex act) true false with
      | inr fetchErr => onFetchError ctx gasFee fetchErr
      | inl bucket =>
          (* update bucket index *)
          onSM (delVoterBucketIndex (bOwner bucket) (ts_BucketIndex act));;
          onSM (putVoterBucketIndex (ts_VoterAddress act) (ts_BucketIndex act));;
          (* update bucket *)
          let bucket := set_bOwner (ts_VoterAddress act) bucket in
          onSM (updateBucket (ts_BucketIndex act) bucket);;
          let log := createLog ctx HandleTransferStake None (Caller actionCtx) [] in
          onSM (settleAction ctx ReceiptStatus_Success gasFee [log])
      end
  end.

Definition handleDepositToStake (ctx : Ctx) (act : DepositToStake) : M World Receipt :=
  let actionCtx := actionCtx ctx in
  fetched ← readSM (λ s, fetchCaller ctx s (ds_Amount act));
  match fetched with
  | inr (gasFee, fetchErr) => onFetchError ctx gasFee fetchErr
  | inl (depositor, gasFee) =>
      w ← get;
      match fetchBucket ctx (sm w) (inMemCandidates w) (ds_BucketIndex act) false true with
      | inr fetchErr => onFetchError ctx gasFee fetchErr
      | inl bucket =>
          if negb (AutoStake bucket) then
            onSM (settleAction ctx ReceiptStatus_ErrInvalidBucketType gasFee [])
          else
            center ← readCenter id;
            match GetByOwner center (bCandidate bucket) with
            | None => throw ErrInvalidOwner
            | Some candidate =>
                let prevWeightedVotes :=
                  calculateVoteWeight p bucket
                    (ContainsSelfStakingBucket center (ds_BucketIndex act)) in
                (* update bucket *)
                let bucket := set_StakedAmount (StakedAmount bucket + ds_Amount act) bucket in
                onSM (updateBucket (ds_BucketIndex act) bucket);;
                (* update candidate *)
                candidate ← lift_result (SubVote candidate prevWeightedVotes);
                let weightedVotes :=
                  calculateVoteWeight p bucket
                    (ContainsSelfStakingBucket center (ds_BucketIndex act)) in
                candidate ← lift_result (AddVote candidate weightedVotes);
                candidate ←
                  (if ContainsSelfStakingBucket center (ds_BucketIndex act)
                   then lift_result (AddSelfStake candidate (ds_Amount act))
                   else mret candidate);
                onSM (putCandidate candidate);;
                (* update depositor balance *)
                depositor ← lift_result (SubBalance depositor (ds_Amount act));
                onSM (StoreAccount (Caller actionCtx) depositor);;
                let log := createLog ctx HandleDepositToStake None (Caller actionCtx) [] in
                receipt ← onSM (settleAction ctx ReceiptStatus_Success gasFee [log]);
                onCenter (Upsert candidate);;
                mret receipt
            end
      end
  end.

Definition handleRestake (ctx : Ctx) (act : Restake) : M World Receipt :=
  let actionCtx := actionCtx ctx in
  fetched ← readSM (λ s, fetchCaller ctx s 0);
  match fetched with
  | inr (gasFee, fetchErr) => onFetchError ctx gasFee fetchErr
  | inl (_, gasFee) =>
      w ← get;
      match fetchBucket ctx (sm w) (inMemCandidates w) (rs_BucketIndex act) true true with
      | inr fetchErr => onFetchError ctx gasFee fetchErr
      | inl bucket =>
          center ← readCenter id;
          match GetByOwner center (bCandidate bucket) with
          | None => throw ErrInvalidOwner
          | Some candidate =>
              let prevWeightedVotes :=
                calculateVoteWeight p bucket
                  (ContainsSelfStakingBucket center (rs_BucketIndex act)) in
              (* update bucket *)
              let bucket :=
                set_StakedDuration (int64_wrap (Z.of_N (rs_Duration act) * 24 * Hour)) bucket in
              let bucket := set_AutoStake (rs_AutoStake act) bucket in
              onSM (updateBucket (rs_BucketIndex act) bucket);;
              (* update candidate *)
              candidate ← lift_result (SubVote candidate prevWeightedVotes);
              let weightedVotes :=
                calculateVoteWeight p bucket
                  (ContainsSelfStakingBucket center (rs_BucketIndex act)) in
              candidate ← lift_result (AddVote candidate weightedVotes);
              onSM (putCandidate candidate);;
              let log := createLog ctx HandleRestake None (Caller actionCtx) [] in
              receipt ← onSM (settleAction ctx ReceiptStatus_Success gasFee [log]);
              onCenter (Upsert candidate);;
              mret receipt
          end
      end
  end.

Definition handleCandidateRegister (ctx : Ctx) (act : CandidateRegister) : M World Receipt :=
  let actCtx := actionCtx ctx in
  let blkCtx := blkCtx ctx in
  let registrationFee := RegistrationConsts_Fee (config p) in
  fetched ← readSM (λ s, fetchCaller ctx s (cr_Amount act + registrationFee));
  match fetched with
  | inr (gasFee, fetchErr) => onFetchError ctx gasFee fetchErr
  | inl (caller, gasFee) =>
      let owner := match cr_OwnerAddress act with
                   | Some o => o
                   | None => Caller actCtx
                   end in
      let bucket := NewVoteBucket owner owner (cr_Amount act) (cr_Duration act)
                      (BlockTimeStamp blkCtx) (cr_AutoStake act) in
      bucketIdx ← onSM (putBucketAndIndex bucket);
      let c := {| Owner := owner;
                  Operator := cr_OperatorAddress act;
                  Reward := cr_RewardAddress act;
                  Name := cr_Name act;
                  Votes := calculateVoteWeight p bucket true;
                  SelfStakeBucketIdx := bucketIdx;
                  SelfStake := cr_Amount act |} in
      onSM (putCandidate c);;
      (* update caller balance *)
      caller ← lift_result (SubBalance caller (cr_Amount act));
      onSM (StoreAccount (Caller actCtx) caller);;
      (* put registrationFee to reward pool *)
      onSM (depositGas p ctx registrationFee);;
      let log := createLog ctx HandleCandidateRegister (Some owner) (Caller actCtx)
                   (Uint64ToBytes bucketIdx) in
      receipt ← onSM (settleAction ctx ReceiptStatus_Success gasFee [log]);
      onCenter (Upsert c);;
      mret receipt
  end.

Definition handleCandidateUpdate (ctx : Ctx) (act : CandidateUpdate) : M World Receipt :=
  let actCtx := actionCtx ctx in
  fetched ← readSM (λ s, fetchCaller ctx s 0);
  match fetched with
  | inr (gasFee, fetchErr) => onFetchError ctx gasFee fetchErr
  | inl (_, gasFee) =>
      (* only owner can update candidate *)
      found ← readCenter (λ c, GetByOwner c (Caller actCtx));
      match found with
      | None =>
          onSM (settleAction ctx ReceiptStatus_ErrCandidateNotExist gasFee [])
      | Some c =>
          let c := if bool_decide (String.length (cu_Name act) ≠ 0%nat)
                   then set_Name (cu_Name act) c else c in
          let c := match cu_OperatorAddress act with
                   | Some a => set_Operator a c
                   | None => c
                   end in
          let c := match cu_RewardAddress act with
                   | Some a => set_Reward a c
                   | None => c
                   end in
          onSM (putCandidate c);;
          let log := createLog ctx HandleCandidateUpdate None (Caller actCtx) [] in
          receipt ← onSM (settleAction ctx ReceiptStatus_Success gasFee [log]);
          onCenter (Upsert c);;
          mret receipt
      end
  end.

(** The nine actions; [handle] runs the handler of an action (the dispatch
    of the protocol itself is outside handlers.go). *)
Inductive Action : Type :=
  | ActCreateStake (act : CreateStake)
  | ActUnstake (act : Unstake)
  | ActWithdrawStake (act : WithdrawStake)
  | ActChangeCandidate (act : ChangeCandidate)
  | ActTransferStake (act : TransferStake)
  | ActDepositToStake (act : DepositToStake)
  | ActRestake (act : Restake)
  | ActCandidateRegister (act : CandidateRegister)
  | ActCandidateUpdate (act : CandidateUpdate).

Definition handle (ctx : Ctx) (act : Action) : M World Receipt :=
  match act with
  | ActCreateStake a => handleCreateStake ctx a
  | ActUnstake a => handleUnstake ctx a
  | ActWithdrawStake a => handleWithdrawStake ctx a
  | ActChangeCandidate a => handleChangeCandidate ctx a
  | ActTransferStake a => handleTransferStake ctx a
  | ActDepositToStake a => handleDepositToStake ctx a
  | ActRestake a => handleRestake ctx a
  | ActCandidateRegister a => handleCandidateRegister ctx a
  | ActCandidateUpdate a => handleCandidateUpdate ctx a
  end.

End Handlers.

(** Modelled from the spec: the [deposit_gas] hook (section 6: it credits a
    reward pool; section 8: the amount is taken from the caller, whose
    balance falls by the fee). *)
Definition rewardingDepositGas (ctx : Ctx) (amount : Z) : M StateManager unit :=
  acc ← reads (λ s, LoadAccount s (Caller (actionCtx ctx)));
  acc ← lift_result (SubBalance acc amount);
  StoreAccount (Caller (actionCtx ctx)) acc;;
  modify (set_rewardPool (Z.add amount)).

(** ** A small chain state, used to exercise the handlers *)

(** A vote weight for the examples: the staked amount, doubled for a
    self-staking bucket. *)
Definition exampleVoteWeight (b : VoteBucket) (selfStake : bool) : Z :=
  if selfStake then 2 * StakedAmount b else StakedAmount b.

Definition exampleProtocol : Protocol :=
  {| addr := "io1staking";
     config := {| WithdrawWaitingPeriod := 3 * 24 * Hour;
                  RegistrationConsts_Fee := 10 |};
     depositGas := rewardingDepositGas;
     calculateVoteWeight := exampleVoteWeight |}.

Definition exampleActionCtx (caller : Address) (nonce : N) : ActionCtx :=
  {| Caller := caller; ActionHash := []; GasPrice := 1; IntrinsicGas := 1;
     ActNonce := nonce |}.

Definition exampleCtx (caller : Address) (nonce : N) (now : Time) : Ctx :=
  {| actionCtx := exampleActionCtx caller nonce;
     blkCtx := {| BlockHeight := 1; BlockTimeStamp := now; GasLimit := 100 |} |}.

Definition exampleHash256b (b : bytes) : bytes := b.

(** A state manager that holds only accounts. *)
Definition accountsOnly (accs : list (Address * Account)) : StateManager :=
  {| accounts := list_to_map accs; buckets := ∅; totalBucketCount := 0;
     voterBuckets := ∅; candBuckets := ∅; candidates := ∅; rewardPool := 0 |}.

(** A state with one candidate, owned by [io1bob], and one bucket of 100,
    owned by [io1alice] and voting for [io1bob]; [unstaked] is the unstake
    time of the bucket and [auto] its auto-stake flag. *)
Definition exampleBucket (unstaked : Time) (auto : bool) : VoteBucket :=
  {| bCandidate := "io1bob"; bOwner := "io1alice"; StakedAmount := 100;
     StakedDuration := 7 * 24 * Hour; CreateTime := 0; StakeStartTime := 0;
     UnstakeStartTime := unstaked; AutoStake := auto |}.

Definition exampleCandidate : Candidate :=
  {| Owner := "io1bob"; Operator := "io1bobop"; Reward := "io1bobrw";
     Name := "bob"; Votes := 300; SelfStakeBucketIdx := 1; SelfStake := 100 |}.

Definition exampleSelfBucket : VoteBucket :=
  {| bCandidate := "io1bob"; bOwner := "io1bob"; StakedAmount := 100;
     StakedDuration := 7 * 24 * Hour; CreateTime := 0; StakeStartTime := 0;
     UnstakeStartTime := 0; AutoStake := true |}.

Definition exampleWorld (unstaked : Time) (auto : bool) : World :=
  {| sm := {| accounts := {[ "io1alice" := mkAccount 1000 0;
                             "io1bob" := mkAccount 1000 0;
                             "io1carol" := mkAccount 1000 0;
                             "io1dave" := mkAccount 0 0 ]};
              buckets := {[ 0%N := exampleBucket unstaked auto;
                            1%N := exampleSelfBucket ]};
              totalBucketCount := 2;
              voterBuckets := {[ "io1alice" := {[ 0%N ]}; "io1bob" := {[ 1%N ]} ]};
              candBuckets := {[ "io1bob" := {[ 0%N; 1%N ]} ]};
              candidates := {[ "io1bob" := exampleCandidate ]};
              rewardPool := 0 |};
     inMemCandidates := center_insert exampleCandidate emptyCenter |}.

(** ** Vocabulary of the properties *)

(** The receipt that settlement builds for [status] and [logs]. *)
Definition receiptOf (p : Protocol) (ctx : Ctx) (status : ReceiptStatus)
    (logs : list Log) : Receipt :=
  {| Status := status;
     rBlockHeight := BlockHeight (blkCtx ctx);
     rActionHash := ActionHash (actionCtx ctx);
     GasConsumed := IntrinsicGas (actionCtx ctx);
     ContractAddress := addr p;
     Logs := logs |}.

(** The state after the nonce of [a] was raised to [nonce] at least. *)
Definition withNonce (a : Address) (acc : Account) (nonce : N) (s : StateManager)
    : StateManager :=
  set_accounts <[a := mkAccount (Balance acc) (N.max (Nonce acc) nonce)]> s.

(** A handler finished by settlement alone: the hook took [gasFee] from the
    state the handler was entered with, the caller's nonce was raised, the
    candidate center was not touched, and the receipt carries no log. *)
Definition settledOnly (p : Protocol) (ctx : Ctx) (w : World) (r : Receipt)
    (w' : World) : Prop :=
  ∃ gasFee s1 acc,
    depositGas p ctx gasFee (sm w) = (Ok tt, s1) ∧
    LoadAccount s1 (Caller (actionCtx ctx)) = Ok acc ∧
    sm w' = withNonce (Caller (actionCtx ctx)) acc (ActNonce (actionCtx ctx)) s1 ∧
    inMemCandidates w' = inMemCandidates w ∧
    r = receiptOf p ctx (Status r) [].

(** The hook leaves buckets, bucket indices and candidates alone. *)
Definition hookKeepsStakingState (p : Protocol) : Prop :=
  ∀ ctx amount s s',
    depositGas p ctx amount s = (Ok tt, s') → stakingState s' = stakingState s.

(** The state manager after a matured bucket [bucket] at [index] has been
    withdrawn by [caller], whose account was [withdrawer]: the bucket is
    deleted, the index is removed from the two bucket indices and the staked
    amount is added to the balance. *)
Definition withdrawn (caller : Address) (withdrawer : Account) (index : N)
    (bucket : VoteBucket) (s : StateManager) : StateManager :=
  set_accounts
    <[caller := {| Balance := Balance withdrawer + StakedAmount bucket;
                   Nonce := Nonce withdrawer |}]>
    (set_voterBuckets
       (λ m, <[bOwner bucket := indices m (bOwner bucket) ∖ {[index]}]> m)
       (set_candBuckets
          (λ m, <[bCandidate bucket := indices m (bCandidate bucket) ∖ {[index]}]> m)
          (set_buckets (delete index) s))).

(** The gas fee of an action. *)
Definition gasFeeOf (ctx : Ctx) : Z :=
  GasPrice (actionCtx ctx) * Z.of_N (IntrinsicGas (actionCtx ctx)).

(** The fee that goes with a failure receipt: the gas fee of the action,
    and for [ErrNotEnoughBalance] the gas fee or, if that is more than the
    balance of the caller, the whole balance. *)
Definition failureFee (ctx : Ctx) (caller : Account) (status : ReceiptStatus) : Z :=
  if bool_decide (status = ReceiptStatus_ErrNotEnoughBalance)
  then gasFeeOf ctx `min` Balance caller
  else gasFeeOf ctx.

(** A handler finished by a settlement with the fee of the failure, run on
    the state the handler was entered with, for the caller [caller]. *)
Definition chargedOnFailure (p : Protocol) (ctx : Ctx) (w : World) (r : Receipt)
    (w' : World) : Prop :=
  ∃ caller,
    LoadAccount (sm w) (Caller (actionCtx ctx)) = Ok caller ∧
    onSM (settleAction p ctx (Status r) (failureFee ctx caller (Status r)) []) w
    = (Ok r, w').

End Staking.

(** * The Merkle Patricia Tree front end (merklepatriciatree.go) *)

Module MerklePatriciaTree.

(** Modelled from the spec: [trie.KVStore], an opaque get / put / delete
    over byte keys (section 2, component 1); [NewMemKVStore] is the empty
    store. *)
Abbreviation KVStore := (gmap bytes bytes).

Definition KVStore_Get (st : KVStore) (key : bytes) : result bytes :=
  match st !! key with
  | Some v => Ok v
  | None => Err ErrNotExist
  end.
Definition KVStore_Put (key value : bytes) : M KVStore unit :=
  modify <[key := value]>.
Definition KVStore_Delete (key : bytes) : M KVStore unit :=
  modify (delete key).
Definition NewMemKVStore : KVStore := ∅.

(** [HashFunc]. *)
Abbreviation HashFunc := (bytes → bytes).

(** [triepb.NodePb]: a tagged union of the three node messages; [PbUnset]
    is a message none of whose alternatives is set. *)
Inductive NodePb (BranchPb LeafPb ExtendPb : Type) : Type :=
  | PbBranch (pb : BranchPb)
  | PbLeaf (pb : LeafPb)
  | PbExtend (pb : ExtendPb)
  | PbUnset.
Arguments PbBranch {_ _ _} pb.
Arguments PbLeaf {_ _ _} pb.
Arguments PbExtend {_ _ _} pb.
Arguments PbUnset {_ _ _}.

(** The node files of the package (branchnode.go, leafnode.go,
    extensionnode.go, node.go) as the interface that merklepatriciatree.go
    uses.  A node reaches the store and the hash function through its
    pointer to the trie; here they are arguments.  [as_branch] and [as_leaf]
    are the type assertions [n.(branch)] and [n.(leaf)]. *)
Class Nodes : Type := {
  node : Type;
  branch : Type;
  leaf : Type;
  BranchPb : Type;
  LeafPb : Type;
  ExtendPb : Type;
  as_branch : node → option branch;
  as_leaf : node → option leaf;
  leaf_Value : leaf → bytes;
  newEmptyRootBranchNode : branch;
  newBranchNodeFromProtoPb : BranchPb → node;
  newLeafNodeFromProtoPb : LeafPb → node;
  newExtensionNodeFromProtoPb : ExtendPb → node;
  proto_Unmarshal : bytes → result (NodePb BranchPb LeafPb ExtendPb);
  branch_Hash : HashFunc → branch → result bytes;
  branch_MarkAsRoot : branch → branch;
  branch_Search : HashFunc → KVStore → branch → bytes → N → result node;
  branch_Delete : HashFunc → branch → bytes → N → M KVStore node;
  branch_Upsert : HashFunc → branch → bytes → N → bytes → M KVStore node;
  (* [hash.Hash160b] of go-pkgs *)
  Hash160b : bytes → bytes;
}.

Section Trie.

Context `{Nodes}.

(** [merklePatriciaTree].  The mutex and the metrics counter are left out;
    [root], [rootHash] and [kvStore] are [None] while they are nil; the nil
    [emptyRootHash] is the empty slice, from which [bytes.Equal] does not
    tell it apart. *)
Record merklePatriciaTree : Type := mkMPT {
  keyLength : Z;
  root : option branch;
  rootHash : option bytes;
  rootKey : string;
  kvStore : option KVStore;
  hashFunc : HashFunc;
  emptyRootHash : bytes;
}.

Definition set_keyLength (v : Z) (t : merklePatriciaTree) :=
  mkMPT v (root t) (rootHash t) (rootKey t) (kvStore t) (hashFunc t) (emptyRootHash t).
Definition set_root (v : option branch) (t : merklePatriciaTree) :=
  mkMPT (keyLength t) v (rootHash t) (rootKey t) (kvStore t) (hashFunc t) (emptyRootHash t).
Definition set_rootHash (v : option bytes) (t : merklePatriciaTree) :=
  mkMPT (keyLength t) (root t) v (rootKey t) (kvStore t) (hashFunc t) (emptyRootHash t).
Definition set_kvStore (v : option KVStore) (t : merklePatriciaTree) :=
  mkMPT (keyLength t) (root t) (rootHash t) (rootKey t) v (hashFunc t) (emptyRootHash t).
Definition set_hashFunc (v : HashFunc) (t : merklePatriciaTree) :=
  mkMPT (keyLength t) (root t) (rootHash t) (rootKey t) (kvStore t) v (emptyRootHash t).
Definition set_emptyRootHash (v : bytes) (t : merklePatriciaTree) :=
  mkMPT (keyLength t) (root t) (rootHash t) (rootKey t) (kvStore t) (hashFunc t) v.

(** [len(s)] and [bytes.Equal] on a slice that may be nil. *)
Definition slice (s : option bytes) : bytes := default [] s.

(** A computation on the store of the trie; a nil store is a nil
    dereference. *)
Definition onStore {A} (m : M KVStore A) : M merklePatriciaTree A :=
  λ t, match kvStore t with
       | Some st => let '(r, st') := m st in (r, set_kvStore (Some st') t)
       | None => (Err (ErrPanic "nil kvStore"), t)
       end.

(** Runs [m] and drops its error, as a call whose result is not looked at. *)
Definition ignoreError {S A} (m : M S A) : M S unit :=
  λ s, let '(_, s') := m s in (Ok tt, s').

(** Runs [m] and reports any error of it as [e]. *)
Definition replaceError {S A} (e : error) (m : M S A) : M S A :=
  λ s, match m s with
       | (Ok a, s') => (Ok a, s')
       | (Err _, s') => (Err e, s')
       end.

(** [DefaultHashFunc]. *)
Definition DefaultHashFunc (data : bytes) : bytes := Hash160b data.

(** [Option] and the four options. *)
Definition Option : Type := merklePatriciaTree → result merklePatriciaTree.

Definition KeyLengthOption (len : Z) : Option :=
  λ mpt, if bool_decide (len ≤ 0) || bool_decide (128 < len)
         then Err (ErrOther "invalid key length")
         else Ok (set_keyLength len mpt).

Definition RootHashOption (h : option bytes) : Option :=
  λ mpt, Ok (set_rootHash (Some (slice h)) mpt).

Definition HashFuncOption (hashFunc : HashFunc) : Option :=
  λ mpt, Ok (set_hashFunc hashFunc mpt).

Definition KVStoreOption (kvStore : option KVStore) : Option :=
  λ mpt, Ok (set_kvStore kvStore mpt).

Fixpoint applyOptions (options : list Option) (t : merklePatriciaTree)
    : result merklePatriciaTree :=
  match options with
  | [] => Ok t
  | opt :: options =>
      match opt t with
      | Ok t => applyOptions options t
      | Err e => Err e
      end
  end.

Definition New (options : list Option) : result merklePatriciaTree :=
  let t := {| keyLength := 20; root := None; rootHash := None; rootKey := "";
              kvStore := None; hashFunc := DefaultHashFunc;
              emptyRootHash := [] |} in
  match applyOptions options t with
  | Err e => Err e
  | Ok t =>
      Ok (match kvStore t with
          | None => set_kvStore (Some NewMemKVStore) t
          | Some _ => t
          end)
  end.

Definition RootHash (mpt : merklePatriciaTree) : option bytes := rootHash mpt.

Definition isEmptyRootHash (mpt : merklePatriciaTree) (h : option bytes) : bool :=
  bool_decide (slice h = emptyRootHash mpt).

Definition IsEmpty (mpt : merklePatriciaTree) : bool :=
  isEmptyRootHash mpt (rootHash mpt).

Definition resetRoot (newRoot : branch) : M merklePatriciaTree unit :=
  modify (set_root (Some newRoot));;
  mpt ← get;
  h ← lift_result (branch_Hash (hashFunc mpt) newRoot);
  modify (set_rootHash (Some h)).

Definition checkKeyType (mpt : merklePatriciaTree) (key : bytes) : result bytes :=
  if bool_decide (Z.of_nat (length key) ≠ keyLength mpt)
  then Err ErrInvalidKeyLength
  else Ok key.

Definition deleteNode (key : bytes) : M merklePatriciaTree unit :=
  onStore (KVStore_Delete key).

Definition putNode (key value : bytes) : M merklePatriciaTree unit :=
  onStore (KVStore_Put key value).

Definition loadNode (mpt : merklePatriciaTree) (key : bytes) : result node :=
  match kvStore mpt with
  | None => Err (ErrPanic "nil kvStore")
  | Some st =>
      match KVStore_Get st key with
      | Err e => Err e
      | Ok s =>
          match proto_Unmarshal s with
          | Err e => Err e
          | Ok (PbBranch pbBranch) => Ok (newBranchNodeFromProtoPb pbBranch)
          | Ok (PbLeaf pbLeaf) => Ok (newLeafNodeFromProtoPb pbLeaf)
          | Ok (PbExtend pbExtend) => Ok (newExtensionNodeFromProtoPb pbExtend)
          | Ok PbUnset => Err ErrInvalidNodeType
          end
      end
  end.

Definition setRootHash (rootHash : option bytes) : M merklePatriciaTree unit :=
  mpt ← get;
  if bool_decide (length (slice rootHash) = 0%nat) || isEmptyRootHash mpt rootHash then
    let emptyRoot := newEmptyRootBranchNode in
    ignoreError (resetRoot emptyRoot)
  else
    node ← lift_result (loadNode mpt (slice rootHash));
    match as_branch node with
    | None => throw ErrInvalidTrie
    | Some root =>
        let root := branch_MarkAsRoot root in
        ignoreError (resetRoot root)
    end.

Definition SetRootHash (rootHash : option bytes) : M merklePatriciaTree unit :=
  setRootHash rootHash.

Definition Start : M merklePatriciaTree unit :=
  mpt ← get;
  emptyRootHash ← lift_result (branch_Hash (hashFunc mpt) newEmptyRootBranchNode);
  modify (set_emptyRootHash emptyRootHash);;
  mpt ← get;
  (match rootHash mpt with
   | None => modify (set_rootHash (Some (emptyRootHash)))
   | Some _ => mret tt
   end);;
  mpt ← get;
  setRootHash (rootHash mpt).

Definition Stop : M merklePatriciaTree unit := mret tt.

(** The receiver of [mpt.root.Search] and its like; a nil root is a nil
    dereference. *)
Definition theRoot : M merklePatriciaTree branch :=
  mpt ← get;
  match root mpt with
  | Some r => mret r
  | None => throw (ErrPanic "nil root")
  end.

Definition Get (mpt : merklePatriciaTree) (key : bytes) : result bytes :=
  match checkKeyType mpt key with
  | Err e => Err e
  | Ok kt =>
      match root mpt, kvStore mpt with
      | Some r, Some st =>
          match branch_Search (hashFunc mpt) st r kt 0 with
          | Err e => Err e
          | Ok t =>
              match as_leaf t with
              | Some l => Ok (leaf_Value l)
              | None => Err ErrInvalidTrie
              end
          end
      | _, _ => Err (ErrPanic "nil root")
      end
  end.

Definition Delete (key : bytes) : M merklePatriciaTree unit :=
  mpt ← get;
  kt ← lift_result (checkKeyType mpt key);
  r ← theRoot;
  (* if err != nil { return errors.Wrapf(trie.ErrNotExist, ...) } *)
  newRoot ← replaceError ErrNotExist (onStore (branch_Delete (hashFunc mpt) r kt 0));
  match as_branch newRoot with
  | None => throw (ErrPanic "unexpected new root")
  | Some bn => resetRoot bn
  end.

Definition Upsert (key value : bytes) : M merklePatriciaTree unit :=
  mpt ← get;
  kt ← lift_result (checkKeyType mpt key);
  r ← theRoot;
  newRoot ← onStore (branch_Upsert (hashFunc mpt) r kt 0 value);
  match as_branch newRoot with
  | None => throw (ErrPanic "unexpected new root")
  | Some bn => resetRoot bn
  end.

End Trie.

(** ** Vocabulary of the properties *)

Section TrieVocabulary.
Context `{Nodes}.



(** [h] is reachable: the store holds under [h] the serialization of a
    branch, and that branch, as a root, hashes to [h] (nodes are stored
    under their own hash). *)
Definition reachable (mpt : merklePatriciaTree) (h : bytes) : Prop :=
  ∃ st s pb b,
    kvStore mpt = Some st ∧
    st !! h = Some s ∧
    proto_Unmarshal s = Ok (PbBranch pb) ∧
    as_branch (newBranchNodeFromProtoPb pb) = Some b ∧
    branch_Hash (hashFunc mpt) (branch_MarkAsRoot b) = Ok h.
End TrieVocabulary.


(** ** A reference implementation of the node interface *)

Definition encodeField (b : bytes) : bytes :=
  byte_of_N (N.of_nat (length b)) :: b.

Definition encodePairs (l : list (bytes * bytes)) : bytes :=
  flat_map (λ kv, encodeField kv.1 ++ encodeField kv.2) l.

Fixpoint decodeFields (fuel : nat) (s : bytes) : option (list bytes) :=
  match fuel with
  | O => None
  | S fuel =>
      match s with
      | [] => Some []
      | n :: rest =>
          let len := N.to_nat (Byte.to_N n) in
          if decide (len ≤ length rest)%nat
          then (λ fs, take len rest :: fs) <$> decodeFields fuel (drop len rest)
          else None
      end
  end.

Fixpoint pairUp (fs : list bytes) : option (list (bytes * bytes)) :=
  match fs with
  | [] => Some []
  | k :: v :: fs => (λ kvs, (k, v) :: kvs) <$> pairUp fs
  | [_] => None
  end.

Definition refSerialize (b : gmap bytes bytes) : bytes :=
  Byte.x0a :: encodePairs (map_to_list b).

Definition refUnmarshal (s : bytes)
    : result (NodePb (list (bytes * bytes)) bytes Empty_set) :=
  match s with
  | [] => Ok PbUnset
  | tag :: rest =>
      if decide (tag = Byte.x0a) then
        match decodeFields (S (length rest)) rest ≫= pairUp with
        | Some kvs => Ok (PbBranch kvs)
        | None => Err (ErrOther "proto: cannot parse")
        end
      else if decide (tag = Byte.x12) then Ok (PbLeaf rest)
      else Err (ErrOther "proto: cannot parse")
  end.

Definition refStoreNode (hashFunc : HashFunc) (b : gmap bytes bytes)
    : M KVStore (gmap bytes bytes + bytes) :=
  KVStore_Put (hashFunc (refSerialize b)) (refSerialize b);;
  mret (inl b).

Definition referenceNodes (hash160b : bytes → bytes) : Nodes :=
  {| node := gmap bytes bytes + bytes;
     branch := gmap bytes bytes;
     leaf := bytes;
     BranchPb := list (bytes * bytes);
     LeafPb := bytes;
     ExtendPb := Empty_set;
     as_branch := λ n, match n with inl b => Some b | inr _ => None end;
     as_leaf := λ n, match n with inl _ => None | inr v => Some v end;
     leaf_Value := λ v, v;
     newEmptyRootBranchNode := ∅;
     newBranchNodeFromProtoPb := λ pb, inl (list_to_map pb);
     newLeafNodeFromProtoPb := λ pb, inr pb;
     newExtensionNodeFromProtoPb := λ pb, match pb with end;
     proto_Unmarshal := refUnmarshal;
     branch_Hash := λ hashFunc b, Ok (hashFunc (refSerialize b));
     branch_MarkAsRoot := λ b, b;
     branch_Search := λ _ _ b key _,
       match b !! key with
       | Some v => Ok (inr v)
       | None => Err ErrNotExist
       end;
     branch_Delete := λ hashFunc b key _,
       match b !! key with
       | Some _ => refStoreNode hashFunc (delete key b)
       | None => throw ErrNotExist
       end;
     branch_Upsert := λ hashFunc b key _ value,
       refStoreNode hashFunc (<[key := value]> b);
     Hash160b := hash160b |}.

(** A stand-in for the digest: the data itself, cut or padded to twenty
    bytes. *)
Definition exampleHash160b (data : bytes) : bytes :=
  take 20 (data ++ replicate 20 Byte.x00).

Definition exampleNodes : Nodes := referenceNodes exampleHash160b.

#[local] Existing Instance exampleNodes.

(** The trie that [New] makes for keys of two bytes. *)
Definition newTrie : @merklePatriciaTree exampleNodes :=
  {| keyLength := 2; root := None; rootHash := None; rootKey := "";
     kvStore := Some NewMemKVStore; hashFunc := DefaultHashFunc;
     emptyRootHash := [] |}.

(** The trie after [steps], one after the other. *)
Definition after `{Nodes} (steps : list (M merklePatriciaTree unit))
    (t : merklePatriciaTree) : merklePatriciaTree :=
  foldl (λ t step, (step t).2) t steps.

Definition k1 : bytes := [Byte.x01; Byte.x01].
Definition k2 : bytes := [Byte.x02; Byte.x02].
Definition v1 : bytes := [Byte.x61].
Definition v2 : bytes := [Byte.x62].

Definition exampleTrie1 : @merklePatriciaTree exampleNodes :=
  Eval vm_compute in after [Start; Upsert k1 v1] newTrie.

Definition exampleTrie2 : @merklePatriciaTree exampleNodes :=
  Eval vm_compute in after [Upsert k2 v2] exampleTrie1.

End MerklePatriciaTree.

(** * Properties of the staking handlers *)

Module StakingSpec.
Import Staking.

(** ** Reasoning about computations in [M] *)

Lemma bind_Ok_inv {S A B} (m : M S A) (k : A → M S B) s b s' :
  (m ≫= k) s = (Ok b, s') →
  ∃ a s1, m s = (Ok a, s1) ∧ k a s1 = (Ok b, s').
Proof.
  unfold mbind, M_bind, bind. destruct (m s) as [[a|e] s1]; intros H.
  - eauto.
  - discriminate.
Qed.

Lemma bind_Ok {S A B} (m : M S A) (k : A → M S B) s a s1 :
  m s = (Ok a, s1) → (m ≫= k) s = k a s1.
Proof. unfold mbind, M_bind, bind. by intros ->. Qed.

Lemma bind_Err {S A B} (m : M S A) (k : A → M S B) s e s1 :
  m s = (Err e, s1) → (m ≫= k) s = (Err e, s1).
Proof. unfold mbind, M_bind, bind. by intros ->. Qed.

Lemma onSM_Ok_inv {A} (m : M StateManager A) w a w' :
  onSM m w = (Ok a, w') →
  ∃ s', m (sm w) = (Ok a, s') ∧ w' = mkWorld s' (inMemCandidates w).
Proof.
  unfold onSM. destruct (m (sm w)) as [r s']. intros [= -> <-]. eauto.
Qed.

Lemma onSM_eq {A} (m : M StateManager A) w r s' :
  m (sm w) = (r, s') → onSM m w = (r, mkWorld s' (inMemCandidates w)).
Proof. unfold onSM. by intros ->. Qed.

(** ** Settlement *)

Section Settlement.

Context (p : Protocol).

Lemma increaseNonce_Ok a nonce s acc :
  LoadAccount s a = Ok acc →
  increaseNonce a nonce s = (Ok tt, withNonce a acc nonce s).
Proof.
  intros Hload. unfold increaseNonce, withNonce.
  unfold mbind, M_bind, bind, reads. rewrite Hload.
  unfold StoreAccount, modify. do 3 f_equal.
  case_bool_decide as Hlt.
  - by rewrite N.max_r by lia.
  - destruct acc as [bal n]; simpl in *. by rewrite N.max_l by lia.
Qed.

Lemma increaseNonce_Err a nonce s e :
  LoadAccount s a = Err e → increaseNonce a nonce s = (Err e, s).
Proof.
  intros Hload. unfold increaseNonce, mbind, M_bind, bind, reads.
  by rewrite Hload.
Qed.

Lemma settleAction_gas_limit ctx status gasFee logs s :
  (GasLimit (blkCtx ctx) < IntrinsicGas (actionCtx ctx))%N →
  settleAction p ctx status gasFee logs s = (Err ErrHitGasLimit, s).
Proof. intros Hlt. unfold settleAction. by rewrite bool_decide_eq_true_2. Qed.

Lemma settleAction_Ok ctx status gasFee logs s s1 acc :
  (IntrinsicGas (actionCtx ctx) ≤ GasLimit (blkCtx ctx))%N →
  depositGas p ctx gasFee s = (Ok tt, s1) →
  LoadAccount s1 (Caller (actionCtx ctx)) = Ok acc →
  settleAction p ctx status gasFee logs s
  = (Ok (receiptOf p ctx status logs),
     withNonce (Caller (actionCtx ctx)) acc (ActNonce (actionCtx ctx)) s1).
Proof.
  intros Hle Hdep Hload. unfold settleAction.
  rewrite bool_decide_eq_false_2 by lia.
  rewrite (bind_Ok _ _ _ _ _ Hdep).
  rewrite (bind_Ok _ _ _ _ _ (increaseNonce_Ok _ _ _ _ Hload)).
  reflexivity.
Qed.

Lemma settleAction_Ok_inv ctx status gasFee logs s r s' :
  settleAction p ctx status gasFee logs s = (Ok r, s') →
  (IntrinsicGas (actionCtx ctx) ≤ GasLimit (blkCtx ctx))%N ∧
  r = receiptOf p ctx status logs ∧
  ∃ s1 acc,
    depositGas p ctx gasFee s = (Ok tt, s1) ∧
    LoadAccount s1 (Caller (actionCtx ctx)) = Ok acc ∧
    s' = withNonce (Caller (actionCtx ctx)) acc (ActNonce (actionCtx ctx)) s1.
Proof.
  unfold settleAction. case_bool_decide as Hlt; [discriminate|].
  intros H. apply bind_Ok_inv in H as ([] & s1 & Hdep & H).
  apply bind_Ok_inv in H as ([] & s2 & Hnonce & H).
  injection H as <- <-.
  destruct (LoadAccount s1 (Caller (actionCtx ctx))) as [acc|e] eqn:Hload.
  - rewrite (increaseNonce_Ok _ _ _ _ Hload) in Hnonce.
    injection Hnonce as <-. split; [lia|]. split; [done|]. eauto.
  - rewrite (increaseNonce_Err _ _ _ _ Hload) in Hnonce. discriminate.
Qed.

End Settlement.


(** ** [fetchCaller] *)

(** C2.  For a caller whose account loads as [caller]: when the required
    amount plus the gas fee ([gas price * intrinsic gas]) exceeds the balance,
    [fetchCaller] returns the [NotEnoughBalance] error together with the fee
    [min gas_fee balance]; otherwise it returns the loaded account and the
    full gas fee. *)
Theorem fetchCaller_balance_check (ctx : Ctx) (sr : StateManager) (amount : Z)
    (caller : Account) :
  LoadAccount sr (Caller (actionCtx ctx)) = Ok caller →
  let gasFee := GasPrice (actionCtx ctx) * Z.of_N (IntrinsicGas (actionCtx ctx)) in
  fetchCaller ctx sr amount =
    if bool_decide (Balance caller < amount + gasFee)
    then inr (gasFee `min` Balance caller,
              {| err := ErrNotEnoughBalance;
                 failureStatus := ReceiptStatus_ErrNotEnoughBalance |})
    else inl (caller, gasFee).
Proof.
  intros Hload gasFee. unfold fetchCaller. rewrite Hload. fold gasFee.
  repeat case_bool_decide; try lia; repeat f_equal; lia.
Qed.

Lemma fetchCaller_balance_check_witness :
  let ctx := exampleCtx "io1alice" 1 0 in
  let sr := accountsOnly [("io1alice", mkAccount 5 0)] in
  LoadAccount sr (Caller (actionCtx ctx)) = Ok (mkAccount 5 0) ∧
  fetchCaller ctx sr 10 =
    inr (1, {| err := ErrNotEnoughBalance;
               failureStatus := ReceiptStatus_ErrNotEnoughBalance |}) ∧
  fetchCaller ctx sr 4 = inl (mkAccount 5 0, 1).
Proof.
  intros ctx sr.
  assert (Hload : LoadAccount sr (Caller (actionCtx ctx)) = Ok (mkAccount 5 0))
    by reflexivity.
  split; [exact Hload|]. split.
  - rewrite (fetchCaller_balance_check ctx sr 10 _ Hload). reflexivity.
  - rewrite (fetchCaller_balance_check ctx sr 4 _ Hload). reflexivity.
Defined.

(** ** [settleAction] *)

(** C3.  Settlement fails with [ErrHitGasLimit], without a receipt and
    without touching the state, when the block gas limit is below the
    intrinsic gas.  Otherwise, once the deposit-gas hook has taken the fee
    (leaving [s1], in which the caller's account is [acc]), the caller's
    account is stored with nonce [max (nonce, action nonce)] and the receipt
    carries the given status and logs, the block height, the action hash,
    the intrinsic gas as consumed gas and the protocol address. *)
Theorem settleAction_spec (p : Protocol) (ctx : Ctx) (status : ReceiptStatus)
    (gasFee : Z) (logs : list Log) (s : StateManager) :
  ((GasLimit (blkCtx ctx) < IntrinsicGas (actionCtx ctx))%N →
   settleAction p ctx status gasFee logs s = (Err ErrHitGasLimit, s)) ∧
  ((IntrinsicGas (actionCtx ctx) ≤ GasLimit (blkCtx ctx))%N →
   ∀ s1 acc,
     depositGas p ctx gasFee s = (Ok tt, s1) →
     LoadAccount s1 (Caller (actionCtx ctx)) = Ok acc →
     settleAction p ctx status gasFee logs s =
       (Ok {| Status := status;
              rBlockHeight := BlockHeight (blkCtx ctx);
              rActionHash := ActionHash (actionCtx ctx);
              GasConsumed := IntrinsicGas (actionCtx ctx);
              ContractAddress := addr p;
              Logs := logs |},
        set_accounts
          <[Caller (actionCtx ctx) :=
              {| Balance := Balance acc;
                 Nonce := N.max (Nonce acc) (ActNonce (actionCtx ctx)) |}]> s1)).
Proof.
  split.
  - apply settleAction_gas_limit.
  - intros Hle s1 acc Hdep Hload. by apply settleAction_Ok.
Qed.

Lemma settleAction_spec_witness :
  let ctx := exampleCtx "io1alice" 7 0 in
  let s := accountsOnly [("io1alice", mkAccount 5 3)] in
  settleAction exampleProtocol ctx ReceiptStatus_ErrNotEnoughBalance 1 [] s =
    (Ok {| Status := ReceiptStatus_ErrNotEnoughBalance; rBlockHeight := 1;
           rActionHash := []; GasConsumed := 1;
           ContractAddress := "io1staking"; Logs := [] |},
     set_rewardPool (λ _, 1) (accountsOnly [("io1alice", mkAccount 4 7)])).
Proof.
  intros ctx s.
  pose proof (proj2 (settleAction_spec exampleProtocol ctx
    ReceiptStatus_ErrNotEnoughBalance 1 [] s)) as H.
  rewrite (H ltac:(vm_compute; discriminate)
    (set_rewardPool (λ _, 1) (accountsOnly [("io1alice", mkAccount 4 3)]))
    (mkAccount 4 3) eq_refl eq_refl).
  reflexivity.
Defined.


(** ** Receipts of the handlers *)

Lemma bind_readSM {A B} (f : StateManager → A) (k : A → M World B) w :
  (readSM f ≫= k) w = k (f (sm w)) w.
Proof. reflexivity. Qed.

Lemma bind_readCenter {A B} (f : CandidateCenter → A) (k : A → M World B) w :
  (readCenter f ≫= k) w = k (f (inMemCandidates w)) w.
Proof. reflexivity. Qed.

Lemma bind_get {S B} (k : S → M S B) w : (get ≫= k) w = k w w.
Proof. reflexivity. Qed.

(** Computations all of whose receipts have status [Success]. *)
Definition succ_only (m : M World Receipt) : Prop :=
  ∀ w r w', m w = (Ok r, w') → Status r = ReceiptStatus_Success.

(** Computations that can only return [r]. *)
Definition returns_only {A} (r : A) (m : M World A) : Prop :=
  ∀ w r' w', m w = (Ok r', w') → r' = r.

Lemma returns_only_mret {A} (r : A) : returns_only r (mret r).
Proof. intros w r' w' [= <- _]. reflexivity. Qed.

Lemma returns_only_bind {A B} (r : A) (m : M World B) k :
  (∀ b, returns_only r (k b)) → returns_only r (m ≫= k).
Proof.
  intros Hk w r' w' H. apply bind_Ok_inv in H as (b & w1 & _ & H).
  by eapply Hk.
Qed.

Lemma succ_only_bind {A} (m : M World A) k :
  (∀ a, succ_only (k a)) → succ_only (m ≫= k).
Proof.
  intros Hk w r w' H. apply bind_Ok_inv in H as (a & w1 & _ & H).
  by eapply Hk.
Qed.

Lemma succ_only_settle p ctx gasFee logs :
  succ_only (onSM (settleAction p ctx ReceiptStatus_Success gasFee logs)).
Proof.
  intros w r w' H. apply onSM_Ok_inv in H as (s' & H & _).
  apply settleAction_Ok_inv in H as (_ & -> & _). reflexivity.
Qed.

Lemma succ_only_settle_then p ctx gasFee logs (k : Receipt → M World Receipt) :
  (∀ r, returns_only r (k r)) →
  succ_only (onSM (settleAction p ctx ReceiptStatus_Success gasFee logs) ≫= k).
Proof.
  intros Hk w r w' H. apply bind_Ok_inv in H as (r0 & w1 & H0 & H).
  apply Hk in H as ->. by eapply succ_only_settle.
Qed.

Lemma succ_only_match_option {A} (o : option A) (m : M World Receipt) k :
  succ_only m → (∀ a, succ_only (k a)) →
  succ_only (match o with Some a => k a | None => m end).
Proof. destruct o; auto. Qed.

Lemma succ_only_throw e : succ_only (throw e).
Proof. intros w r w' H. discriminate. Qed.

(** Closes [succ_only] goals for the tail of a handler after its last
    check. *)
Ltac succ_only_tail :=
  repeat first
    [ apply succ_only_settle
    | apply succ_only_throw
    | apply succ_only_settle_then; intros;
      repeat (first [ apply returns_only_mret
                    | apply returns_only_bind; intros ])
    | apply succ_only_bind; intros
    | apply succ_only_match_option; intros ].

Section FailedActions.

Context (Hash256b : bytes → bytes) (p : Protocol) (ctx : Ctx).

Lemma settle_error_path status gasFee w r w' :
  onSM (settleAction p ctx status gasFee []) w = (Ok r, w') →
  settledOnly p ctx w r w'.
Proof.
  intros H. apply onSM_Ok_inv in H as (s' & H & ->).
  apply settleAction_Ok_inv in H as (_ & -> & s1 & acc & Hdep & Hload & ->).
  exists gasFee, s1, acc. done.
Qed.

Lemma onFetchError_path gasFee fetchErr w r w' :
  onFetchError p ctx gasFee fetchErr w = (Ok r, w') →
  settledOnly p ctx w r w'.
Proof.
  unfold onFetchError. case_bool_decide; [discriminate|].
  apply settle_error_path.
Qed.

(** In each handler, a receipt whose status is not [Success] comes from a
    settlement on the state the handler was entered with. *)
Ltac failed_path Hrun Hstatus :=
  first
    [ by eapply onFetchError_path
    | by eapply settle_error_path
    | exfalso; apply Hstatus; revert Hrun;
      match goal with
      | |- ?m ?w = (Ok ?r, ?w') → _ =>
          let H := fresh in
          assert (H : succ_only m) by succ_only_tail;
          apply H
      end ].

Lemma handleCreateStake_failed act w r w' :
  handleCreateStake Hash256b p ctx act w = (Ok r, w') →
  Status r ≠ ReceiptStatus_Success → settledOnly p ctx w r w'.
Proof.
  intros Hrun Hstatus. unfold handleCreateStake in Hrun.
  cbv zeta in Hrun. rewrite bind_readSM in Hrun.
  destruct (fetchCaller _ _ _) as [[staker gasFee]|[gasFee fetchErr]];
    [|failed_path Hrun Hstatus].
  rewrite bind_readCenter in Hrun.
  destruct (GetByName _ _) as [candidate|]; failed_path Hrun Hstatus.
Qed.

Lemma handleUnstake_failed act w r w' :
  handleUnstake Hash256b p ctx act w = (Ok r, w') →
  Status r ≠ ReceiptStatus_Success → settledOnly p ctx w r w'.
Proof.
  intros Hrun Hstatus. unfold handleUnstake in Hrun.
  cbv zeta in Hrun. rewrite bind_readSM in Hrun.
  destruct (fetchCaller _ _ _) as [[staker gasFee]|[gasFee fetchErr]];
    [|failed_path Hrun Hstatus].
  rewrite bind_get in Hrun.
  destruct (fetchBucket _ _ _ _ _ _) as [bucket|fetchErr];
    failed_path Hrun Hstatus.
Qed.

Lemma handleWithdrawStake_failed act w r w' :
  handleWithdrawStake Hash256b p ctx act w = (Ok r, w') →
  Status r ≠ ReceiptStatus_Success → settledOnly p ctx w r w'.
Proof.
  intros Hrun Hstatus. unfold handleWithdrawStake in Hrun.
  cbv zeta in Hrun. rewrite bind_readSM in Hrun.
  destruct (fetchCaller _ _ _) as [[staker gasFee]|[gasFee fetchErr]];
    [|failed_path Hrun Hstatus].
  rewrite bind_get in Hrun.
  destruct (fetchBucket _ _ _ _ _ _) as [bucket|fetchErr];
    [|failed_path Hrun Hstatus].
  case_bool_decide; [failed_path Hrun Hstatus|].
  destruct (Before _ _); failed_path Hrun Hstatus.
Qed.

Lemma handleChangeCandidate_failed act w r w' :
  handleChangeCandidate Hash256b p ctx act w = (Ok r, w') →
  Status r ≠ ReceiptStatus_Success → settledOnly p ctx w r w'.
Proof.
  intros Hrun Hstatus. unfold handleChangeCandidate in Hrun.
  cbv zeta in Hrun. rewrite bind_readSM in Hrun.
  destruct (fetchCaller _ _ _) as [[staker gasFee]|[gasFee fetchErr]];
    [|failed_path Hrun Hstatus].
  rewrite bind_readCenter in Hrun.
  destruct (GetByName _ _) as [candidate|]; [|failed_path Hrun Hstatus].
  rewrite bind_get in Hrun.
  destruct (fetchBucket _ _ _ _ _ _) as [bucket|fetchErr];
    failed_path Hrun Hstatus.
Qed.

Lemma handleTransferStake_failed act w r w' :
  handleTransferStake Hash256b p ctx act w = (Ok r, w') →
  Status r ≠ ReceiptStatus_Success → settledOnly p ctx w r w'.
Proof.
  intros Hrun Hstatus. unfold handleTransferStake in Hrun.
  cbv zeta in Hrun. rewrite bind_readSM in Hrun.
  destruct (fetchCaller _ _ _) as [[staker gasFee]|[gasFee fetchErr]];
    [|failed_path Hrun Hstatus].
  rewrite bind_get in Hrun.
  destruct (fetchBucket _ _ _ _ _ _) as [bucket|fetchErr];
    failed_path Hrun Hstatus.
Qed.

Lemma handleDepositToStake_failed act w r w' :
  handleDepositToStake Hash256b p ctx act w = (Ok r, w') →
  Status r ≠ ReceiptStatus_Success → settledOnly p ctx w r w'.
Proof.
  intros Hrun Hstatus. unfold handleDepositToStake in Hrun.
  cbv zeta in Hrun. rewrite bind_readSM in Hrun.
  destruct (fetchCaller _ _ _) as [[staker gasFee]|[gasFee fetchErr]];
    [|failed_path Hrun Hstatus].
  rewrite bind_get in Hrun.
  destruct (fetchBucket _ _ _ _ _ _) as [bucket|fetchErr];
    [|failed_path Hrun Hstatus].
  destruct (AutoStake bucket); simpl in Hrun; failed_path Hrun Hstatus.
Qed.

Lemma handleRestake_failed act w r w' :
  handleRestake Hash256b p ctx act w = (Ok r, w') →
  Status r ≠ ReceiptStatus_Success → settledOnly p ctx w r w'.
Proof.
  intros Hrun Hstatus. unfold handleRestake in Hrun.
  cbv zeta in Hrun. rewrite bind_readSM in Hrun.
  destruct (fetchCaller _ _ _) as [[staker gasFee]|[gasFee fetchErr]];
    [|failed_path Hrun Hstatus].
  rewrite bind_get in Hrun.
  destruct (fetchBucket _ _ _ _ _ _) as [bucket|fetchErr];
    failed_path Hrun Hstatus.
Qed.

Lemma handleCandidateRegister_failed act w r w' :
  handleCandidateRegister Hash256b p ctx act w = (Ok r, w') →
  Status r ≠ ReceiptStatus_Success → settledOnly p ctx w r w'.
Proof.
  intros Hrun Hstatus. unfold handleCandidateRegister in Hrun.
  cbv zeta in Hrun. rewrite bind_readSM in Hrun.
  destruct (fetchCaller _ _ _) as [[staker gasFee]|[gasFee fetchErr]];
    failed_path Hrun Hstatus.
Qed.

Lemma handleCandidateUpdate_failed act w r w' :
  handleCandidateUpdate Hash256b p ctx act w = (Ok r, w') →
  Status r ≠ ReceiptStatus_Success → settledOnly p ctx w r w'.
Proof.
  intros Hrun Hstatus. unfold handleCandidateUpdate in Hrun.
  cbv zeta in Hrun. rewrite bind_readSM in Hrun.
  destruct (fetchCaller _ _ _) as [[staker gasFee]|[gasFee fetchErr]];
    [|failed_path Hrun Hstatus].
  rewrite bind_readCenter in Hrun.
  destruct (GetByOwner _ _) as [c|]; failed_path Hrun Hstatus.
Qed.

Lemma handle_failed act w r w' :
  handle Hash256b p ctx act w = (Ok r, w') →
  Status r ≠ ReceiptStatus_Success → settledOnly p ctx w r w'.
Proof.
  destruct act; simpl;
    eauto using handleCreateStake_failed, handleUnstake_failed,
      handleWithdrawStake_failed, handleChangeCandidate_failed,
      handleTransferStake_failed, handleDepositToStake_failed,
      handleRestake_failed, handleCandidateRegister_failed,
      handleCandidateUpdate_failed.
Qed.

(** *** The fee of a failed action *)

Lemma settled_status status gasFee logs w r w' :
  onSM (settleAction p ctx status gasFee logs) w = (Ok r, w') →
  Status r = status.
Proof.
  intros H. apply onSM_Ok_inv in H as (s' & H & _).
  by apply settleAction_Ok_inv in H as (_ & -> & _).
Qed.

Lemma fetchCaller_passed sr amount caller gasFee :
  fetchCaller ctx sr amount = inl (caller, gasFee) →
  LoadAccount sr (Caller (actionCtx ctx)) = Ok caller ∧ gasFee = gasFeeOf ctx.
Proof.
  unfold fetchCaller, gasFeeOf.
  destruct (LoadAccount _ _) as [acc|e]; [|discriminate].
  case_bool_decide; [discriminate|]. by intros [= <- <-].
Qed.

(** [fetchCaller] refused the caller: the fee is the gas fee, or the balance
    if that is less, and the status is [ErrNotEnoughBalance]. *)
Lemma fetchCaller_refused_path amount gasFee fetchErr w r w' :
  fetchCaller ctx (sm w) amount = inr (gasFee, fetchErr) →
  onFetchError p ctx gasFee fetchErr w = (Ok r, w') →
  chargedOnFailure p ctx w r w'.
Proof.
  unfold fetchCaller, onFetchError.
  destruct (LoadAccount _ _) as [caller|e] eqn:Hload.
  - case_bool_decide as Hamount; [|discriminate].
    intros [= <- <-]. simpl. intros Hrun.
    pose proof (settled_status _ _ _ _ _ _ Hrun) as Hstatus.
    exists caller. split; [done|]. rewrite Hstatus.
    unfold failureFee, gasFeeOf. rewrite bool_decide_eq_true_2 by done.
    revert Hrun. case_bool_decide as Hfee; intros Hrun.
    + by rewrite Z.min_r by lia.
    + by rewrite Z.min_l by lia.
  - intros [= <- <-]. simpl. discriminate.
Qed.

(** A settlement with the gas fee and a status other than
    [ErrNotEnoughBalance], after [fetchCaller] let the caller pass. *)
Lemma settle_fee_path status caller w r w' :
  onSM (settleAction p ctx status (gasFeeOf ctx) []) w = (Ok r, w') →
  LoadAccount (sm w) (Caller (actionCtx ctx)) = Ok caller →
  status ≠ ReceiptStatus_ErrNotEnoughBalance →
  chargedOnFailure p ctx w r w'.
Proof.
  intros Hrun Hload Hstatus.
  pose proof (settled_status _ _ _ _ _ _ Hrun) as Hr.
  exists caller. split; [done|]. rewrite Hr.
  unfold failureFee. by rewrite bool_decide_eq_false_2.
Qed.

(** [fetchBucket] refused the bucket: the fee is the gas fee. *)
Lemma fetchBucket_refused_path caller center index checkOwner allowSelfStaking
    fetchErr w r w' :
  onFetchError p ctx (gasFeeOf ctx) fetchErr w = (Ok r, w') →
  LoadAccount (sm w) (Caller (actionCtx ctx)) = Ok caller →
  fetchBucket ctx (sm w) center index checkOwner allowSelfStaking = inr fetchErr →
  chargedOnFailure p ctx w r w'.
Proof.
  intros Hrun Hload Hbucket. unfold onFetchError in Hrun.
  case_bool_decide as Hfailure; [discriminate|].
  eapply settle_fee_path; [exact Hrun|exact Hload|].
  revert Hbucket. unfold fetchBucket. destruct (getBucket _ _).
  - destruct (_ && _); [by intros [= <-]|].
    destruct (_ && _); [by intros [= <-]|]. discriminate.
  - case_bool_decide; by intros [= <-].
Qed.

(** In each handler, a receipt whose status is not [Success] comes from a
    settlement with the fee of the failure. *)
Ltac charged_path Hrun Hstatus :=
  first
    [ by eapply fetchCaller_refused_path
    | eapply fetchBucket_refused_path; [exact Hrun|eassumption|eassumption]
    | eapply settle_fee_path; [exact Hrun|eassumption|discriminate]
    | exfalso; apply Hstatus; revert Hrun;
      match goal with
      | |- ?m ?w = (Ok ?r, ?w') → _ =>
          let H := fresh in
          assert (H : succ_only m) by succ_only_tail;
          apply H
      end ].

(** After [fetchCaller]: either it refused the caller, or the caller loads
    and the fee is the gas fee. *)
Ltac after_fetchCaller Hrun Hstatus :=
  cbv zeta in Hrun; rewrite bind_readSM in Hrun;
  let staker := fresh "staker" in
  let gasFee := fresh "gasFee" in
  let fetchErr := fresh "fetchErr" in
  let Hcaller := fresh "Hcaller" in
  let Hload := fresh "Hload" in
  destruct (fetchCaller _ _ _) as [[staker gasFee]|[gasFee fetchErr]] eqn:Hcaller;
    [apply fetchCaller_passed in Hcaller as [Hload ->]
    |charged_path Hrun Hstatus].

Lemma handleCreateStake_charged act w r w' :
  handleCreateStake Hash256b p ctx act w = (Ok r, w') →
  Status r ≠ ReceiptStatus_Success → chargedOnFailure p ctx w r w'.
Proof.
  intros Hrun Hstatus. unfold handleCreateStake in Hrun.
  after_fetchCaller Hrun Hstatus.
  rewrite bind_readCenter in Hrun.
  destruct (GetByName _ _) as [candidate|]; charged_path Hrun Hstatus.
Qed.

Lemma handleUnstake_charged act w r w' :
  handleUnstake Hash256b p ctx act w = (Ok r, w') →
  Status r ≠ ReceiptStatus_Success → chargedOnFailure p ctx w r w'.
Proof.
  intros Hrun Hstatus. unfold handleUnstake in Hrun.
  after_fetchCaller Hrun Hstatus.
  rewrite bind_get in Hrun.
  destruct (fetchBucket _ _ _ _ _ _) as [bucket|fetchErr] eqn:Hbucket;
    charged_path Hrun Hstatus.
Qed.

Lemma handleWithdrawStake_charged act w r w' :
  handleWithdrawStake Hash256b p ctx act w = (Ok r, w') →
  Status r ≠ ReceiptStatus_Success → chargedOnFailure p ctx w r w'.
Proof.
  intros Hrun Hstatus. unfold handleWithdrawStake in Hrun.
  after_fetchCaller Hrun Hstatus.
  rewrite bind_get in Hrun.
  destruct (fetchBucket _ _ _ _ _ _) as [bucket|fetchErr] eqn:Hbucket;
    [|charged_path Hrun Hstatus].
  case_bool_decide; [charged_path Hrun Hstatus|].
  destruct (Before _ _); charged_path Hrun Hstatus.
Qed.

Lemma handleChangeCandidate_charged act w r w' :
  handleChangeCandidate Hash256b p ctx act w = (Ok r, w') →
  Status r ≠ ReceiptStatus_Success → chargedOnFailure p ctx w r w'.
Proof.
  intros Hrun Hstatus. unfold handleChangeCandidate in Hrun.
  after_fetchCaller Hrun Hstatus.
  rewrite bind_readCenter in Hrun.
  destruct (GetByName _ _) as [candidate|]; [|charged_path Hrun Hstatus].
  rewrite bind_get in Hrun.
  destruct (fetchBucket _ _ _ _ _ _) as [bucket|fetchErr] eqn:Hbucket;
    charged_path Hrun Hstatus.
Qed.

Lemma handleTransferStake_charged act w r w' :
  handleTransferStake Hash256b p ctx act w = (Ok r, w') →
  Status r ≠ ReceiptStatus_Success → chargedOnFailure p ctx w r w'.
Proof.
  intros Hrun Hstatus. unfold handleTransferStake in Hrun.
  after_fetchCaller Hrun Hstatus.
  rewrite bind_get in Hrun.
  destruct (fetchBucket _ _ _ _ _ _) as [bucket|fetchErr] eqn:Hbucket;
    charged_path Hrun Hstatus.
Qed.

Lemma handleDepositToStake_charged act w r w' :
  handleDepositToStake Hash256b p ctx act w = (Ok r, w') →
  Status r ≠ ReceiptStatus_Success → chargedOnFailure p ctx w r w'.
Proof.
  intros Hrun Hstatus. unfold handleDepositToStake in Hrun.
  after_fetchCaller Hrun Hstatus.
  rewrite bind_get in Hrun.
  destruct (fetchBucket _ _ _ _ _ _) as [bucket|fetchErr] eqn:Hbucket;
    [|charged_path Hrun Hstatus].
  destruct (AutoStake bucket); simpl in Hrun; charged_path Hrun Hstatus.
Qed.

Lemma handleRestake_charged act w r w' :
  handleRestake Hash256b p ctx act w = (Ok r, w') →
  Status r ≠ ReceiptStatus_Success → chargedOnFailure p ctx w r w'.
Proof.
  intros Hrun Hstatus. unfold handleRestake in Hrun.
  after_fetchCaller Hrun Hstatus.
  rewrite bind_get in Hrun.
  destruct (fetchBucket _ _ _ _ _ _) as [bucket|fetchErr] eqn:Hbucket;
    charged_path Hrun Hstatus.
Qed.

Lemma handleCandidateRegister_charged act w r w' :
  handleCandidateRegister Hash256b p ctx act w = (Ok r, w') →
  Status r ≠ ReceiptStatus_Success → chargedOnFailure p ctx w r w'.
Proof.
  intros Hrun Hstatus. unfold handleCandidateRegister in Hrun.
  after_fetchCaller Hrun Hstatus.
  charged_path Hrun Hstatus.
Qed.

Lemma handleCandidateUpdate_charged act w r w' :
  handleCandidateUpdate Hash256b p ctx act w = (Ok r, w') →
  Status r ≠ ReceiptStatus_Success → chargedOnFailure p ctx w r w'.
Proof.
  intros Hrun Hstatus. unfold handleCandidateUpdate in Hrun.
  after_fetchCaller Hrun Hstatus.
  rewrite bind_readCenter in Hrun.
  destruct (GetByOwner _ _) as [c|]; charged_path Hrun Hstatus.
Qed.

Lemma handle_charged act w r w' :
  handle Hash256b p ctx act w = (Ok r, w') →
  Status r ≠ ReceiptStatus_Success → chargedOnFailure p ctx w r w'.
Proof.
  destruct act; simpl;
    eauto using handleCreateStake_charged, handleUnstake_charged,
      handleWithdrawStake_charged, handleChangeCandidate_charged,
      handleTransferStake_charged, handleDepositToStake_charged,
      handleRestake_charged, handleCandidateRegister_charged,
      handleCandidateUpdate_charged.
Qed.

Lemma withNonce_stakingState a acc nonce s :
  stakingState (withNonce a acc nonce s) = stakingState s.
Proof. reflexivity. Qed.

(** C1.  Whichever of the nine handlers runs: when it returns a receipt
    whose status is not [Success], the account of the caller loads, the
    deposit-gas hook has been run on the state the handler was entered with
    for the fee of the failure (the gas fee of the action; for
    [ErrNotEnoughBalance] the gas fee or, if that is more, the whole balance
    of the caller), the caller's account has been stored with its nonce
    raised to the nonce of the action, and the persisted buckets, bucket
    count, both bucket indices and the candidates are what they were before
    the action, as is the in-memory candidate center.  The hook is assumed
    to leave the staking state alone. *)
Theorem failed_action_settles_and_keeps_staking_state
    (act : Action) (w : World) (r : Receipt) (w' : World) :
  hookKeepsStakingState p →
  handle Hash256b p ctx act w = (Ok r, w') →
  Status r ≠ ReceiptStatus_Success →
  (∃ caller s1 acc,
     LoadAccount (sm w) (Caller (actionCtx ctx)) = Ok caller ∧
     depositGas p ctx (failureFee ctx caller (Status r)) (sm w) = (Ok tt, s1) ∧
     LoadAccount s1 (Caller (actionCtx ctx)) = Ok acc ∧
     sm w' =
       set_accounts
         <[Caller (actionCtx ctx) :=
             {| Balance := Balance acc;
                Nonce := N.max (Nonce acc) (ActNonce (actionCtx ctx)) |}]> s1) ∧
  stakingState (sm w') = stakingState (sm w) ∧
  inMemCandidates w' = inMemCandidates w.
Proof.
  intros Hhook Hrun Hstatus.
  destruct (handle_charged _ _ _ _ Hrun Hstatus) as (caller & Hcaller & Hsettle).
  apply onSM_Ok_inv in Hsettle as (s' & Hsettle & ->).
  apply settleAction_Ok_inv in Hsettle as (_ & _ & s1 & acc & Hdep & Hload & ->).
  split; [by exists caller, s1, acc|]. split; [|done].
  simpl. rewrite withNonce_stakingState. by eapply Hhook.
Qed.

End FailedActions.


(** The spec-modelled hook only touches the caller's account and the reward
    pool. *)
Lemma rewardingDepositGas_keeps_staking_state :
  hookKeepsStakingState exampleProtocol.
Proof.
  intros ctx amount s s' H. simpl in H. unfold rewardingDepositGas in H.
  apply bind_Ok_inv in H as (acc & s1 & Hload & H).
  injection Hload as _ <-.
  apply bind_Ok_inv in H as (acc' & s2 & Hsub & H).
  injection Hsub as _ <-.
  apply bind_Ok_inv in H as ([] & s3 & Hstore & H).
  injection Hstore as <-. injection H as <-. reflexivity.
Qed.

(** Scenario "unknown candidate": Alice, with a balance of 1000, stakes 50
    on a name that the candidate center does not know, at a gas fee of 10.
    The receipt is [ErrCandidateNotExist], and Alice has paid the gas fee
    and has her nonce raised. *)
Lemma failed_action_settles_and_keeps_staking_state_witness :
  let ctx := {| actionCtx := {| Caller := "io1alice"; ActionHash := [];
                                GasPrice := 10; IntrinsicGas := 1;
                                ActNonce := 1 |};
                blkCtx := {| BlockHeight := 1; BlockTimeStamp := 0;
                             GasLimit := 100 |} |} in
  let w := {| sm := accountsOnly [("io1alice", mkAccount 1000 0)];
              inMemCandidates := emptyCenter |} in
  let act := ActCreateStake (mkCreateStake "delegate" 50 7 false) in
  ∃ r w',
    handle exampleHash256b exampleProtocol ctx act w = (Ok r, w') ∧
    Status r = ReceiptStatus_ErrCandidateNotExist ∧
    accounts (sm w') !! "io1alice" = Some (mkAccount 990 1) ∧
    stakingState (sm w') = stakingState (sm w) ∧
    inMemCandidates w' = inMemCandidates w.
Proof.
  intros ctx w act.
  destruct (handle exampleHash256b exampleProtocol ctx act w) as [[r|e] w'] eqn:Hrun;
    [|vm_compute in Hrun; discriminate].
  exists r, w'.
  assert (Hstatus : Status r = ReceiptStatus_ErrCandidateNotExist).
  { vm_compute in Hrun. by injection Hrun as <- _. }
  destruct (failed_action_settles_and_keeps_staking_state exampleHash256b
              exampleProtocol ctx act w r w'
              rewardingDepositGas_keeps_staking_state Hrun)
    as ((caller & s1 & acc & Hcaller & Hdep & Hload & Hsm) & Hstate & Hcenter).
  { rewrite Hstatus. discriminate. }
  split; [reflexivity|]. split; [exact Hstatus|]. split; [|done].
  injection Hcaller as <-. rewrite Hstatus in Hdep.
  vm_compute in Hdep. injection Hdep as <-.
  vm_compute in Hload. injection Hload as <-.
  rewrite Hsm. reflexivity.
Defined.

(** ** [fetchBucket] *)

Lemma fetchBucket_Ok ctx sr center index bucket checkOwner :
  buckets sr !! index = Some bucket →
  (checkOwner = true → bOwner bucket = Caller (actionCtx ctx)) →
  fetchBucket ctx sr center index checkOwner true = inl bucket.
Proof.
  intros Hb Howner. unfold fetchBucket, getBucket. rewrite Hb.
  destruct checkOwner; simpl; [|done].
  by rewrite bool_decide_eq_true_2 by auto.
Qed.

Lemma fetchCaller_Ok ctx sr amount caller :
  LoadAccount sr (Caller (actionCtx ctx)) = Ok caller →
  amount + gasFeeOf ctx ≤ Balance caller →
  fetchCaller ctx sr amount = inl (caller, gasFeeOf ctx).
Proof.
  intros Hload Hbal. unfold fetchCaller, gasFeeOf in *. rewrite Hload.
  by rewrite bool_decide_eq_false_2 by lia.
Qed.

Lemma settle_status p ctx status gasFee logs w r w' :
  onSM (settleAction p ctx status gasFee logs) w = (Ok r, w') →
  Status r = status.
Proof.
  intros H. apply onSM_Ok_inv in H as (s' & H & _).
  by apply settleAction_Ok_inv in H as (_ & -> & _).
Qed.


(** ** [handleWithdrawStake] *)

(** C4.  The caller owns the bucket at the index of the action and can pay
    the gas fee.  Then the handler settles with status
    [ErrWithdrawBeforeUnstake] when the unstake time of the bucket is the
    zero sentinel (Unix time 0); otherwise with [ErrWithdrawBeforeMaturity]
    when the block timestamp is strictly before the unstake time plus the
    waiting period; otherwise, so also when the block timestamp is exactly
    the unstake time plus the waiting period, it deletes the bucket, removes
    its index from both bucket indices, credits the staked amount to the
    caller, and settles with status [Success] and the withdraw log.  The
    receipt of a settlement has the status it was asked for. *)
Theorem withdrawStake_time_checks (Hash256b : bytes → bytes) (p : Protocol)
    (ctx : Ctx) (act : WithdrawStake) (w : World)
    (withdrawer : Account) (bucket : VoteBucket) :
  LoadAccount (sm w) (Caller (actionCtx ctx)) = Ok withdrawer →
  gasFeeOf ctx ≤ Balance withdrawer →
  buckets (sm w) !! ws_BucketIndex act = Some bucket →
  bOwner bucket = Caller (actionCtx ctx) →
  0 ≤ StakedAmount bucket →
  let now := BlockTimeStamp (blkCtx ctx) in
  let mature := UnstakeStartTime bucket + WithdrawWaitingPeriod (config p) in
  let run := handleWithdrawStake Hash256b p ctx act w in
  (Unix (UnstakeStartTime bucket) = 0 →
   run = onSM (settleAction p ctx ReceiptStatus_ErrWithdrawBeforeUnstake
                 (gasFeeOf ctx) []) w) ∧
  (Unix (UnstakeStartTime bucket) ≠ 0 → now < mature →
   run = onSM (settleAction p ctx ReceiptStatus_ErrWithdrawBeforeMaturity
                 (gasFeeOf ctx) []) w) ∧
  (Unix (UnstakeStartTime bucket) ≠ 0 → mature ≤ now →
   run = onSM (settleAction p ctx ReceiptStatus_Success (gasFeeOf ctx)
                 [createLog Hash256b p ctx HandleWithdrawStake None
                    (Caller (actionCtx ctx)) []])
           {| sm := withdrawn (Caller (actionCtx ctx)) withdrawer
                      (ws_BucketIndex act) bucket (sm w);
              inMemCandidates := inMemCandidates w |}) ∧
  (∀ r w', run = (Ok r, w') →
     Status r =
       if bool_decide (Unix (UnstakeStartTime bucket) = 0)
       then ReceiptStatus_ErrWithdrawBeforeUnstake
       else if bool_decide (now < mature)
            then ReceiptStatus_ErrWithdrawBeforeMaturity
            else ReceiptStatus_Success).
Proof.
  intros Hload Hfee Hbucket Howner Hamount now mature run.
  assert (Hrun : run =
    if bool_decide (Unix (UnstakeStartTime bucket) = 0)
    then onSM (settleAction p ctx ReceiptStatus_ErrWithdrawBeforeUnstake
                 (gasFeeOf ctx) []) w
    else if bool_decide (now < mature)
    then onSM (settleAction p ctx ReceiptStatus_ErrWithdrawBeforeMaturity
                 (gasFeeOf ctx) []) w
    else onSM (settleAction p ctx ReceiptStatus_Success (gasFeeOf ctx)
                 [createLog Hash256b p ctx HandleWithdrawStake None
                    (Caller (actionCtx ctx)) []])
           {| sm := withdrawn (Caller (actionCtx ctx)) withdrawer
                      (ws_BucketIndex act) bucket (sm w);
              inMemCandidates := inMemCandidates w |}).
  { subst run. unfold handleWithdrawStake. cbv zeta.
    rewrite bind_readSM, (fetchCaller_Ok _ _ 0 _ Hload) by lia.
    rewrite bind_get, (fetchBucket_Ok _ _ _ _ _ true Hbucket) by done.
    case_bool_decide; [done|].
    unfold Before, Add. fold now mature. case_bool_decide; [done|].
    unfold AddBalance. rewrite bool_decide_eq_false_2 by lia.
    reflexivity. }
  rewrite Hrun. repeat split.
  - intros H0. by rewrite bool_decide_eq_true_2.
  - intros H0 Hlt. by rewrite bool_decide_eq_false_2, bool_decide_eq_true_2.
  - intros H0 Hge. by rewrite !bool_decide_eq_false_2 by lia.
  - intros r w'. repeat case_bool_decide; apply settle_status.
Qed.


(** The bucket was unstaked at second 1000; the waiting period is three
    days.  At exactly that time plus three days the withdrawal succeeds, one
    nanosecond earlier it does not. *)
Lemma withdrawStake_time_checks_witness :
  let t0 := 1000 * Second in
  let w := exampleWorld t0 false in
  let act := mkWithdrawStake 0 in
  let run now := handleWithdrawStake exampleHash256b exampleProtocol
                   (exampleCtx "io1alice" 1 now) act w in
  (∃ r w', run (t0 + 3 * 24 * Hour) = (Ok r, w') ∧
           Status r = ReceiptStatus_Success ∧
           buckets (sm w') !! 0%N = None ∧
           (0%N ∉ indices (voterBuckets (sm w')) "io1alice") ∧
           (0%N ∉ indices (candBuckets (sm w')) "io1bob") ∧
           accounts (sm w') !! "io1alice" = Some (mkAccount 1099 1)) ∧
  (∃ r w', run (t0 + 3 * 24 * Hour - 1) = (Ok r, w') ∧
           Status r = ReceiptStatus_ErrWithdrawBeforeMaturity ∧
           buckets (sm w') !! 0%N = Some (exampleBucket t0 false)).
Proof.
  intros t0 w act run. split.
  - pose proof (withdrawStake_time_checks exampleHash256b exampleProtocol
      (exampleCtx "io1alice" 1 (t0 + 3 * 24 * Hour)) act w (mkAccount 1000 0)
      (exampleBucket t0 false) eq_refl) as H.
    specialize (H ltac:(vm_compute; congruence) eq_refl eq_refl
                  ltac:(vm_compute; congruence)).
    destruct H as (_ & _ & _ & Hst). unfold run.
    destruct (handleWithdrawStake _ _ _ _ _) as [[r|e] w'] eqn:Hr;
      [|vm_compute in Hr; discriminate].
    specialize (Hst r w' eq_refl). vm_compute in Hr. injection Hr as <- <-.
    eexists _, _. split; [reflexivity|]. split; [exact Hst|].
    repeat split; vm_compute; congruence.
  - pose proof (withdrawStake_time_checks exampleHash256b exampleProtocol
      (exampleCtx "io1alice" 1 (t0 + 3 * 24 * Hour - 1)) act w (mkAccount 1000 0)
      (exampleBucket t0 false) eq_refl) as H.
    specialize (H ltac:(vm_compute; congruence) eq_refl eq_refl
                  ltac:(vm_compute; congruence)).
    destruct H as (_ & _ & _ & Hst). unfold run.
    destruct (handleWithdrawStake _ _ _ _ _) as [[r|e] w'] eqn:Hr;
      [|vm_compute in Hr; discriminate].
    specialize (Hst r w' eq_refl). vm_compute in Hr. injection Hr as <- <-.
    eexists _, _. split; [reflexivity|]. split; [exact Hst|].
    vm_compute; congruence.
Defined.


(** ** Tails of the handlers *)

Lemma lift_result_Ok_inv {S A} (r : result A) (s : S) a s' :
  lift_result r s = (Ok a, s') → r = Ok a ∧ s' = s.
Proof. unfold lift_result. by intros [= -> ->]. Qed.

Lemma onSM_modify_inv (f : StateManager → StateManager) w u w' :
  onSM (modify f) w = (Ok u, w') → w' = mkWorld (f (sm w)) (inMemCandidates w).
Proof. unfold onSM, modify. by intros [= _ <-]. Qed.

Lemma onCenter_Ok_inv {A} (m : M CandidateCenter A) w a w' :
  onCenter m w = (Ok a, w') → sm w' = sm w.
Proof.
  unfold onCenter. destruct (m (inMemCandidates w)) as [r c].
  by intros [= _ <-].
Qed.

(** A settlement that is the last step of a handler. *)
Lemma settle_tail p ctx status gasFee logs w r w' :
  hookKeepsStakingState p →
  onSM (settleAction p ctx status gasFee logs) w = (Ok r, w') →
  Status r = status ∧
  stakingState (sm w') = stakingState (sm w) ∧
  inMemCandidates w' = inMemCandidates w.
Proof.
  intros Hhook H. apply onSM_Ok_inv in H as (s' & H & ->).
  apply settleAction_Ok_inv in H as (_ & -> & s1 & acc & Hdep & _ & ->).
  split; [done|]. split; [|done]. simpl.
  rewrite withNonce_stakingState. by eapply Hhook.
Qed.

(** A settlement followed by updates of the candidate center. *)
Lemma settle_then_center_tail p ctx status gasFee logs
    (k : Receipt → M World Receipt) w r w' :
  hookKeepsStakingState p →
  (∀ r0 w0 r1 w1, k r0 w0 = (Ok r1, w1) → r1 = r0 ∧ sm w1 = sm w0) →
  (onSM (settleAction p ctx status gasFee logs) ≫= k) w = (Ok r, w') →
  Status r = status ∧ stakingState (sm w') = stakingState (sm w).
Proof.
  intros Hhook Hk H. apply bind_Ok_inv in H as (r0 & w0 & Hsettle & H).
  apply Hk in H as [-> Hsm]. rewrite Hsm.
  by destruct (settle_tail _ _ _ _ _ _ _ _ Hhook Hsettle) as (? & ? & _).
Qed.

Lemma upsert_then_return (c : Candidate) (r0 : Receipt) w0 r1 w1 :
  (onCenter (Upsert c) ≫= λ _, mret r0) w0 = (Ok r1, w1) →
  r1 = r0 ∧ sm w1 = sm w0.
Proof.
  intros H. apply bind_Ok_inv in H as ([] & w2 & Hup & H).
  injection H as <- <-. split; [done|]. by eapply onCenter_Ok_inv.
Qed.


Lemma AddVote_Ok_inv c amount c' :
  AddVote c amount = Ok c' → c' = set_Votes (Votes c + amount) c.
Proof. unfold AddVote. case_bool_decide; congruence. Qed.

Lemma SubVote_Ok_inv c amount c' :
  SubVote c amount = Ok c' → c' = set_Votes (Votes c - amount) c.
Proof. unfold SubVote. repeat case_bool_decide; congruence. Qed.

Lemma AddSelfStake_Ok_inv c amount c' :
  AddSelfStake c amount = Ok c' → c' = set_SelfStake (SelfStake c + amount) c.
Proof. unfold AddSelfStake. case_bool_decide; congruence. Qed.

Ltac inv_step H :=
  let a := fresh "a" in let w1 := fresh "w" in
  let H1 := fresh "Hstep" in
  apply bind_Ok_inv in H as (a & w1 & H1 & H);
  first
    [ apply lift_result_Ok_inv in H1 as [H1 ->]
    | apply onSM_modify_inv in H1 as -> ].

(** ** [handleDepositToStake] *)

(** C5 (as amended).  The caller can pay the amount and the gas fee, and a
    bucket exists at the index of the action; who owns the bucket plays no
    part.  Then the receipt has status [ErrInvalidBucketType] exactly when the
    bucket is not an auto-stake bucket, and never [ErrUnauthorizedOperator].
    On an auto-stake bucket a receipt has status [Success]; the stored bucket
    has its staked amount grown by the amount of the action, and the stored
    candidate has the old weighted vote of the bucket replaced by the new
    one. *)
Theorem depositToStake_bucket_checks (Hash256b : bytes → bytes) (p : Protocol)
    (ctx : Ctx) (act : DepositToStake) (w : World)
    (depositor : Account) (bucket : VoteBucket) :
  LoadAccount (sm w) (Caller (actionCtx ctx)) = Ok depositor →
  ds_Amount act + gasFeeOf ctx ≤ Balance depositor →
  buckets (sm w) !! ds_BucketIndex act = Some bucket →
  hookKeepsStakingState p →
  let run := handleDepositToStake Hash256b p ctx act w in
  let self := ContainsSelfStakingBucket (inMemCandidates w) (ds_BucketIndex act) in
  let bucket' := set_StakedAmount (StakedAmount bucket + ds_Amount act) bucket in
  (AutoStake bucket = false →
   run = onSM (settleAction p ctx ReceiptStatus_ErrInvalidBucketType
                 (gasFeeOf ctx) []) w) ∧
  (∀ r w', run = (Ok r, w') →
     (Status r = ReceiptStatus_ErrInvalidBucketType ↔ AutoStake bucket = false) ∧
     Status r ≠ ReceiptStatus_ErrUnauthorizedOperator ∧
     (AutoStake bucket = true →
      Status r = ReceiptStatus_Success ∧
      buckets (sm w') = <[ds_BucketIndex act := bucket']> (buckets (sm w)) ∧
      ∃ candidate candidate',
        GetByOwner (inMemCandidates w) (bCandidate bucket) = Some candidate ∧
        candidates (sm w') = <[Owner candidate := candidate']> (candidates (sm w)) ∧
        Owner candidate' = Owner candidate ∧
        Votes candidate' =
          Votes candidate - calculateVoteWeight p bucket self
          + calculateVoteWeight p bucket' self)).
Proof.
  intros Hload Hbal Hbucket Hhook run self bucket'.
  subst run. unfold handleDepositToStake. cbv zeta.
  rewrite bind_readSM, (fetchCaller_Ok _ _ _ _ Hload Hbal).
  rewrite bind_get, (fetchBucket_Ok _ _ _ _ _ false Hbucket) by done.
  destruct (AutoStake bucket) eqn:Hauto; simpl.
  - split; [done|]. intros r w' Hrun.
    rewrite bind_readCenter in Hrun. unfold id in Hrun.
    destruct (GetByOwner _ _) as [candidate|] eqn:Hcand; [|discriminate].
    fold self bucket' in Hrun.
    inv_step Hrun. inv_step Hrun. inv_step Hrun.
    apply SubVote_Ok_inv in Hstep0 as ->. apply AddVote_Ok_inv in Hstep1 as ->.
    apply bind_Ok_inv in Hrun as (c' & w1 & Hself & Hrun).
    assert (Hc' : w1 = {| sm := set_buckets <[ds_BucketIndex act:=bucket']> (sm w);
                          inMemCandidates := inMemCandidates w |} ∧
                  Owner c' = Owner candidate ∧
                  Votes c' = Votes candidate - calculateVoteWeight p bucket self
                             + calculateVoteWeight p bucket' self).
    { destruct self.
      - apply lift_result_Ok_inv in Hself as [Hself ->].
        apply AddSelfStake_Ok_inv in Hself as ->. done.
      - injection Hself as <- <-. done. }
    destruct Hc' as (-> & Howner & Hvotes).
    inv_step Hrun. inv_step Hrun. inv_step Hrun.
    eapply settle_then_center_tail in Hrun as [Hstatus Hstate];
      [|done|intros; by eapply upsert_then_return].
    simpl in Hstate. injection Hstate as Hb _ _ _ Hc.
    rewrite Hstatus. split; [split; discriminate|]. split; [discriminate|].
    intros _. split; [done|]. split; [done|].
    exists candidate, c'. rewrite <- Howner. done.
  - split; [done|]. intros r w' Hrun.
    apply settle_status in Hrun. rewrite Hrun.
    split; [done|]. split; [discriminate|]. discriminate.
Qed.

Lemma fetchBucket_inl_inv ctx sr center index checkOwner allowSelfStaking bucket :
  fetchBucket ctx sr center index checkOwner allowSelfStaking = inl bucket →
  buckets sr !! index = Some bucket ∧
  (checkOwner = true → bOwner bucket = Caller (actionCtx ctx)) ∧
  (allowSelfStaking = false → ContainsSelfStakingBucket center index = false).
Proof.
  unfold fetchBucket, getBucket.
  destruct (buckets sr !! index) as [b|]; [|discriminate].
  destruct checkOwner, allowSelfStaking; simpl;
    repeat case_bool_decide; simpl;
    try destruct (ContainsSelfStakingBucket center index);
    intros [= <-]; try discriminate; repeat split; congruence.
Qed.

Lemma onFetchError_status p ctx gasFee fetchErr w r w' :
  onFetchError p ctx gasFee fetchErr w = (Ok r, w') →
  Status r = failureStatus fetchErr.
Proof.
  unfold onFetchError. case_bool_decide; [discriminate|]. apply settle_status.
Qed.

Lemma fetchCaller_inr_status ctx sr amount gasFee fetchErr :
  fetchCaller ctx sr amount = inr (gasFee, fetchErr) →
  failureStatus fetchErr = ReceiptStatus_Failure ∨
  failureStatus fetchErr = ReceiptStatus_ErrNotEnoughBalance.
Proof.
  unfold fetchCaller. destruct (LoadAccount _ _); [case_bool_decide|];
    intros [= _ <-]; auto.
Qed.

Lemma fetchBucket_inr_status ctx sr center index checkOwner allowSelfStaking fetchErr :
  fetchBucket ctx sr center index checkOwner allowSelfStaking = inr fetchErr →
  failureStatus fetchErr ≠ ReceiptStatus_Success.
Proof.
  unfold fetchBucket. destruct (getBucket _ _).
  - destruct (_ && _); [by intros [= <-]|].
    destruct (_ && _); [by intros [= <-]|]. discriminate.
  - case_bool_decide; by intros [= <-].
Qed.

(** ** [handleTransferStake] *)

(** C7 (as amended).  When [transferStake (Y, idx)] by caller [X] returns a
    [Success] receipt, the bucket at [idx] existed, was owned by [X] and was
    not a self-staking bucket; [idx] has been removed from
    [voter_buckets[X]] and then added to [voter_buckets[Y]], so that it is in
    [voter_buckets[Y]] and, when [Y] is not [X], no longer in
    [voter_buckets[X]]; the owner of the bucket is [Y]; the candidates, the
    [cand_buckets] index and the candidate center are unchanged. *)
Theorem transferStake_moves_voter_index (Hash256b : bytes → bytes)
    (p : Protocol) (ctx : Ctx) (act : TransferStake) (w : World)
    (r : Receipt) (w' : World) :
  hookKeepsStakingState p →
  handleTransferStake Hash256b p ctx act w = (Ok r, w') →
  Status r = ReceiptStatus_Success →
  let X := Caller (actionCtx ctx) in
  let Y := ts_VoterAddress act in
  let idx := ts_BucketIndex act in
  ∃ bucket,
    buckets (sm w) !! idx = Some bucket ∧
    bOwner bucket = X ∧
    ContainsSelfStakingBucket (inMemCandidates w) idx = false ∧
    voterBuckets (sm w') =
      <[Y := indices (<[X := indices (voterBuckets (sm w)) X ∖ {[idx]}]>
                        (voterBuckets (sm w))) Y ∪ {[idx]}]>
        (<[X := indices (voterBuckets (sm w)) X ∖ {[idx]}]> (voterBuckets (sm w))) ∧
    idx ∈ indices (voterBuckets (sm w')) Y ∧
    (Y ≠ X → idx ∉ indices (voterBuckets (sm w')) X) ∧
    buckets (sm w') = <[idx := set_bOwner Y bucket]> (buckets (sm w)) ∧
    candidates (sm w') = candidates (sm w) ∧
    candBuckets (sm w') = candBuckets (sm w) ∧
    inMemCandidates w' = inMemCandidates w.
Proof.
  intros Hhook Hrun Hstatus X Y idx.
  unfold handleTransferStake in Hrun. cbv zeta in Hrun.
  rewrite bind_readSM in Hrun.
  destruct (fetchCaller _ _ _) as [[caller gasFee]|[gasFee fetchErr]] eqn:Hcaller.
  2:{ apply onFetchError_status in Hrun.
      apply fetchCaller_inr_status in Hcaller as [H|H]; congruence. }
  rewrite bind_get in Hrun.
  destruct (fetchBucket _ _ _ _ _ _) as [bucket|fetchErr] eqn:Hbucket.
  2:{ apply onFetchError_status in Hrun.
      apply fetchBucket_inr_status in Hbucket. congruence. }
  apply fetchBucket_inl_inv in Hbucket as (Hb & Howner & Hself).
  specialize (Howner eq_refl). specialize (Hself eq_refl).
  inv_step Hrun. inv_step Hrun. inv_step Hrun.
  apply settle_tail in Hrun as (_ & Hstate & Hcenter); [|done].
  simpl in Hstate, Hcenter. injection Hstate as Hbs _ Hvb Hcb Hcs.
  exists bucket. rewrite Howner in Hvb. fold X Y idx in Hvb, Hbs.
  repeat split; try done.
  - rewrite Hvb. unfold indices at 1. rewrite lookup_insert_eq. simpl. set_solver.
  - intros Hne. rewrite Hvb. unfold indices at 1.
    rewrite lookup_insert_ne by done. rewrite lookup_insert_eq. simpl. set_solver.
Qed.

(** ** [handleChangeCandidate] *)

(** C10 (as amended).  The name of the new candidate is resolved right after
    the caller has been fetched and before the bucket is looked at: when the
    name is unknown and the caller can pay the gas fee, the handler settles
    with [ErrCandidateNotExist] whatever the bucket index, its owner or its
    kind; a caller who cannot pay the gas fee gets [ErrNotEnoughBalance]. *)
Theorem changeCandidate_unknown_name (Hash256b : bytes → bytes) (p : Protocol)
    (ctx : Ctx) (act : ChangeCandidate) (w : World) (caller : Account) :
  LoadAccount (sm w) (Caller (actionCtx ctx)) = Ok caller →
  GetByName (inMemCandidates w) (cc_Candidate act) = None →
  let run := handleChangeCandidate Hash256b p ctx act w in
  (gasFeeOf ctx ≤ Balance caller →
   run = onSM (settleAction p ctx ReceiptStatus_ErrCandidateNotExist
                 (gasFeeOf ctx) []) w) ∧
  (∀ r w', run = (Ok r, w') →
     Status r = if bool_decide (Balance caller < gasFeeOf ctx)
                then ReceiptStatus_ErrNotEnoughBalance
                else ReceiptStatus_ErrCandidateNotExist).
Proof.
  intros Hload Hname run. subst run.
  unfold handleChangeCandidate. cbv zeta. rewrite bind_readSM.
  case_bool_decide as Hbal.
  - split; [lia|]. intros r w'.
    unfold fetchCaller. rewrite Hload. fold (gasFeeOf ctx).
    rewrite bool_decide_eq_true_2 by lia.
    intros H. by apply onFetchError_status in H.
  - rewrite (fetchCaller_Ok _ _ 0 _ Hload) by lia.
    rewrite bind_readCenter, Hname.
    split; [done|]. intros r w'. apply settle_status.
Qed.

(** ** [handleCandidateRegister] *)

(** C6.  The register scenario: balance 1000, registration fee 10, intrinsic
    gas 1, gas price 1, amount 100, duration 7, no auto-stake, with the hook
    of the specification.  The registration succeeds; afterwards the balance
    of the caller is 889 (100 debited by the handler, the fee of 10 and the
    gas fee of 1 taken by the hook, which holds 11), bucket 0 exists and the
    candidate exists with a self-stake of 100. *)
Theorem candidateRegister_scenario (Hash256b : bytes → bytes)
    (weight : VoteBucket → bool → Z) (a : Address) (period : Duration)
    (now : Time) :
  let p := {| addr := a;
              config := {| WithdrawWaitingPeriod := period;
                           RegistrationConsts_Fee := 10 |};
              depositGas := rewardingDepositGas;
              calculateVoteWeight := weight |} in
  let ctx := {| actionCtx := {| Caller := "io1alice"; ActionHash := [];
                                GasPrice := 1; IntrinsicGas := 1;
                                ActNonce := 1 |};
                blkCtx := {| BlockHeight := 1; BlockTimeStamp := now;
                             GasLimit := 100 |} |} in
  let act := {| cr_Name := "alice"; cr_OperatorAddress := "io1aliceop";
                cr_RewardAddress := "io1alicerw"; cr_OwnerAddress := None;
                cr_Amount := 100; cr_Duration := 7; cr_AutoStake := false |} in
  let w := {| sm := accountsOnly [("io1alice", mkAccount 1000 0)];
              inMemCandidates := emptyCenter |} in
  ∃ r w' bucket c,
    handleCandidateRegister Hash256b p ctx act w = (Ok r, w') ∧
    Status r = ReceiptStatus_Success ∧
    accounts (sm w') !! "io1alice" = Some (mkAccount 889 1) ∧
    rewardPool (sm w') = 11 ∧
    buckets (sm w') !! 0%N = Some bucket ∧
    bOwner bucket = "io1alice" ∧ bCandidate bucket = "io1alice" ∧
    StakedAmount bucket = 100 ∧ AutoStake bucket = false ∧
    candidates (sm w') !! "io1alice" = Some c ∧
    SelfStake c = 100 ∧ SelfStakeBucketIdx c = 0%N ∧
    Votes c = weight bucket true ∧
    GetByOwner (inMemCandidates w') "io1alice" = Some c.
Proof.
  intros p ctx act w.
  eexists _, _, _, _. split; [vm_compute; reflexivity|].
  repeat split; try (vm_compute; reflexivity).
Qed.


(** ** The handlers on the example state *)

(** Carol deposits 50 into the auto-stake bucket of Alice. *)
Lemma depositToStake_bucket_checks_witness :
  let run auto := handleDepositToStake exampleHash256b exampleProtocol
                    (exampleCtx "io1carol" 1 0) (mkDepositToStake 0 50)
                    (exampleWorld 0 auto) in
  (∃ r w', run true = (Ok r, w') ∧
           Status r = ReceiptStatus_Success ∧
           StakedAmount <$> buckets (sm w') !! 0%N = Some 150 ∧
           Votes <$> candidates (sm w') !! "io1bob" = Some 350) ∧
  (∃ r w', run false = (Ok r, w') ∧
           Status r = ReceiptStatus_ErrInvalidBucketType ∧
           StakedAmount <$> buckets (sm w') !! 0%N = Some 100).
Proof.
  intros run. split.
  - pose proof (depositToStake_bucket_checks exampleHash256b exampleProtocol
      (exampleCtx "io1carol" 1 0) (mkDepositToStake 0 50) (exampleWorld 0 true)
      (mkAccount 1000 0) (exampleBucket 0 true) eq_refl
      ltac:(vm_compute; congruence) eq_refl
      rewardingDepositGas_keeps_staking_state) as [_ H].
    unfold run.
    destruct (handleDepositToStake _ _ _ _ _) as [[r|e] w'] eqn:Hr;
      [|vm_compute in Hr; discriminate].
    destruct (H r w' eq_refl) as (_ & _ & Hauto).
    destruct (Hauto eq_refl) as (Hstatus & _).
    vm_compute in Hr. injection Hr as <- <-.
    eexists _, _. split; [reflexivity|]. split; [exact Hstatus|].
    split; vm_compute; reflexivity.
  - pose proof (depositToStake_bucket_checks exampleHash256b exampleProtocol
      (exampleCtx "io1carol" 1 0) (mkDepositToStake 0 50) (exampleWorld 0 false)
      (mkAccount 1000 0) (exampleBucket 0 false) eq_refl
      ltac:(vm_compute; congruence) eq_refl
      rewardingDepositGas_keeps_staking_state) as [_ H].
    unfold run.
    destruct (handleDepositToStake _ _ _ _ _) as [[r|e] w'] eqn:Hr;
      [|vm_compute in Hr; discriminate].
    destruct (H r w' eq_refl) as ([_ Hstatus] & _).
    specialize (Hstatus eq_refl).
    vm_compute in Hr. injection Hr as <- <-.
    eexists _, _. split; [reflexivity|]. split; [exact Hstatus|].
    vm_compute; reflexivity.
Defined.

(** Dave, whose balance is 0, deposits into a bucket that is not an
    auto-stake bucket: the receipt is [ErrNotEnoughBalance]. *)
Lemma depositToStake_bucket_checks_counterexample :
  let w := exampleWorld 0 false in
  let act := mkDepositToStake 0 50 in
  (AutoStake <$> buckets (sm w) !! ds_BucketIndex act) = Some false ∧
  ∃ r w',
    handleDepositToStake exampleHash256b exampleProtocol
      (exampleCtx "io1dave" 1 0) act w = (Ok r, w') ∧
    Status r = ReceiptStatus_ErrNotEnoughBalance ∧
    Status r ≠ ReceiptStatus_ErrInvalidBucketType.
Proof.
  intros w act. split; [reflexivity|].
  eexists _, _. split; [vm_compute; reflexivity|].
  split; [reflexivity|discriminate].
Qed.

(** Alice transfers her bucket to Carol. *)
Lemma transferStake_moves_voter_index_witness :
  let w := exampleWorld 0 false in
  ∃ r w',
    handleTransferStake exampleHash256b exampleProtocol
      (exampleCtx "io1alice" 1 0) (mkTransferStake "io1carol" 0) w = (Ok r, w') ∧
    Status r = ReceiptStatus_Success ∧
    (0%N ∈ indices (voterBuckets (sm w')) "io1carol") ∧
    (0%N ∉ indices (voterBuckets (sm w')) "io1alice") ∧
    bOwner <$> buckets (sm w') !! 0%N = Some "io1carol" ∧
    candidates (sm w') = candidates (sm w) ∧
    candBuckets (sm w') = candBuckets (sm w).
Proof.
  intros w.
  destruct (handleTransferStake exampleHash256b exampleProtocol
              (exampleCtx "io1alice" 1 0) (mkTransferStake "io1carol" 0) w)
    as [[r|e] w'] eqn:Hr; [|vm_compute in Hr; discriminate].
  assert (Hstatus : Status r = ReceiptStatus_Success).
  { vm_compute in Hr. by injection Hr as <- _. }
  destruct (transferStake_moves_voter_index _ _ _ _ _ _ _
              rewardingDepositGas_keeps_staking_state Hr Hstatus)
    as (bucket & Hb & _ & _ & _ & Hin & Hout & Hbs & Hcs & Hcb & _).
  exists r, w'. split; [done|]. split; [done|]. split; [exact Hin|].
  split; [by apply Hout|]. split; [|done].
  rewrite Hbs. simpl. rewrite lookup_insert_eq. reflexivity.
Defined.

(** Alice transfers her bucket to herself: the index stays in her set. *)
Lemma transferStake_moves_voter_index_counterexample :
  let w := exampleWorld 0 false in
  (bOwner <$> buckets (sm w) !! 0%N) = Some "io1alice" ∧
  ContainsSelfStakingBucket (inMemCandidates w) 0 = false ∧
  ∃ r w',
    handleTransferStake exampleHash256b exampleProtocol
      (exampleCtx "io1alice" 1 0) (mkTransferStake "io1alice" 0) w = (Ok r, w') ∧
    Status r = ReceiptStatus_Success ∧
    0%N ∈ indices (voterBuckets (sm w')) "io1alice".
Proof.
  intros w. split; [reflexivity|]. split; [reflexivity|].
  eexists _, _. split; [vm_compute; reflexivity|]. split; [reflexivity|].
  vm_compute. reflexivity.
Qed.

(** An unknown name together with a bucket index that does not exist, a
    bucket of another owner, and a self-staking bucket. *)
Lemma changeCandidate_unknown_name_witness :
  let w := exampleWorld 0 false in
  let run caller idx :=
    handleChangeCandidate exampleHash256b exampleProtocol
      (exampleCtx caller 1 0) (mkChangeCandidate "nobody" idx) w in
  (∃ r w', run "io1alice" 99%N = (Ok r, w') ∧
           Status r = ReceiptStatus_ErrCandidateNotExist) ∧
  (∃ r w', run "io1carol" 0%N = (Ok r, w') ∧
           Status r = ReceiptStatus_ErrCandidateNotExist) ∧
  (∃ r w', run "io1bob" 1%N = (Ok r, w') ∧
           Status r = ReceiptStatus_ErrCandidateNotExist).
Proof.
  intros w run.
  assert (H : ∀ caller idx,
    LoadAccount (sm w) caller = Ok (mkAccount 1000 0) →
    is_Ok (run caller idx).1 = true →
    ∃ r w', run caller idx = (Ok r, w') ∧
            Status r = ReceiptStatus_ErrCandidateNotExist).
  { intros caller idx Hload Hok.
    destruct (changeCandidate_unknown_name exampleHash256b exampleProtocol
                (exampleCtx caller 1 0) (mkChangeCandidate "nobody" idx) w
                (mkAccount 1000 0) Hload eq_refl) as [_ Hstatus].
    fold (run caller idx) in Hstatus.
    destruct (run caller idx) as [[r|e] w']; [|discriminate].
    exists r, w'. split; [done|]. by rewrite (Hstatus r w' eq_refl). }
  repeat split; apply H; vm_compute; reflexivity.
Defined.

(** Dave, whose balance is 0, names an unknown candidate: the receipt is
    [ErrNotEnoughBalance]. *)
Lemma changeCandidate_unknown_name_counterexample :
  let w := exampleWorld 0 false in
  let act := mkChangeCandidate "nobody" 0 in
  GetByName (inMemCandidates w) (cc_Candidate act) = None ∧
  ∃ r w',
    handleChangeCandidate exampleHash256b exampleProtocol
      (exampleCtx "io1dave" 1 0) act w = (Ok r, w') ∧
    Status r = ReceiptStatus_ErrNotEnoughBalance ∧
    Status r ≠ ReceiptStatus_ErrCandidateNotExist.
Proof.
  intros w act. split; [reflexivity|].
  eexists _, _. split; [vm_compute; reflexivity|].
  split; [reflexivity|discriminate].
Qed.

(** Alice owns bucket 0, which has not been unstaked, but her balance of
    1000 does not cover a gas fee of 2000: the receipt is
    [ErrNotEnoughBalance]. *)
Lemma withdrawStake_time_checks_counterexample :
  let w := exampleWorld 0 false in
  let ctx := {| actionCtx := {| Caller := "io1alice"; ActionHash := [];
                                GasPrice := 2000; IntrinsicGas := 1;
                                ActNonce := 1 |};
                blkCtx := {| BlockHeight := 1; BlockTimeStamp := 0;
                             GasLimit := 100 |} |} in
  buckets (sm w) !! 0%N = Some (exampleBucket 0 false) ∧
  bOwner (exampleBucket 0 false) = Caller (actionCtx ctx) ∧
  UnstakeStartTime (exampleBucket 0 false) = 0 ∧
  ∃ r w',
    handleWithdrawStake exampleHash256b exampleProtocol ctx
      (mkWithdrawStake 0) w = (Ok r, w') ∧
    Status r = ReceiptStatus_ErrNotEnoughBalance ∧
    Status r ≠ ReceiptStatus_ErrWithdrawBeforeUnstake.
Proof.
  intros w ctx. repeat (split; [reflexivity|]).
  eexists _, _. split; [vm_compute; reflexivity|].
  split; [reflexivity|discriminate].
Qed.

End StakingSpec.

(** * Properties of the Merkle Patricia Tree front end *)

Module TrieSpec.
Import MerklePatriciaTree.

Section TrieSpec.
Context `{Nodes}.

Lemma resetRoot_Ok newRoot mpt h :
  branch_Hash (hashFunc mpt) newRoot = Ok h →
  resetRoot newRoot mpt = (Ok tt, set_rootHash (Some h) (set_root (Some newRoot) mpt)).
Proof.
  intros Hh. unfold resetRoot.
  unfold mbind, M_bind, bind, modify, get, lift_result. simpl.
  rewrite Hh. reflexivity.
Qed.



End TrieSpec.

(** ** The front end over the reference nodes *)

#[local] Existing Instance exampleNodes.



Example New_newTrie : New [KeyLengthOption 2] = Ok newTrie.
Proof. reflexivity. Qed.



Example exampleTrie1_steps :
  (Start ≫= λ _, Upsert k1 v1) newTrie = (Ok tt, exampleTrie1).
Proof. vm_refl. Qed.

Example exampleTrie2_steps : Upsert k2 v2 exampleTrie1 = (Ok tt, exampleTrie2).
Proof. vm_refl. Qed.




End TrieSpec.

(** * Further properties of the staking handlers *)

Module StakingExtra.
Import Staking StakingSpec.
#[local] Set Warnings "-clear-no-such-hyp".

Section Success.

Context (Hash256b : bytes → bytes) (p : Protocol) (ctx : Ctx).

Lemma fetchCaller_inl_inv sr amount caller gasFee :
  fetchCaller ctx sr amount = inl (caller, gasFee) →
  LoadAccount sr (Caller (actionCtx ctx)) = Ok caller ∧
  gasFee = gasFeeOf ctx ∧
  amount + gasFee ≤ Balance caller.
Proof.
  unfold fetchCaller, gasFeeOf.
  destruct (LoadAccount _ _) as [acc|e]; [|discriminate].
  case_bool_decide; [discriminate|]. intros [= <- <-].
  repeat split; lia.
Qed.

(** Drops the branches of a successful run in which a fetch failed. *)
Ltac fetch_ok Hrun Hstatus :=
  first
    [ rewrite bind_readSM in Hrun;
      let caller := fresh "caller" in
      let gasFee := fresh "gasFee" in
      let fetchErr := fresh "fetchErr" in
      let Hcaller := fresh "Hcaller" in
      destruct (fetchCaller _ _ _) as [[caller gasFee]|[gasFee fetchErr]] eqn:Hcaller;
      [ apply fetchCaller_inl_inv in Hcaller as (Hcaller & -> & ?)
      | apply onFetchError_status in Hrun;
        apply fetchCaller_inr_status in Hcaller as [Hcaller|Hcaller]; congruence ]
    | rewrite bind_get in Hrun;
      let bucket := fresh "bucket" in
      let fetchErr := fresh "fetchErr" in
      let Hbucket := fresh "Hbucket" in
      destruct (fetchBucket _ _ _ _ _ _) as [bucket|fetchErr] eqn:Hbucket;
      [ apply fetchBucket_inl_inv in Hbucket as (Hbucket & ? & ?)
      | apply onFetchError_status in Hrun;
        apply fetchBucket_inr_status in Hbucket; congruence ] ].

(** One step of a run that succeeded; [Hs] names what the step returned. *)
Ltac inv_bind H Hs :=
  let a := fresh "a" in
  let w1 := fresh "w" in
  apply bind_Ok_inv in H as (a & w1 & Hs & H);
  first
    [ apply lift_result_Ok_inv in Hs as [Hs ->]
    | apply onSM_modify_inv in Hs as -> ].

Lemma SubBalance_Ok_inv acc amount acc' :
  SubBalance acc amount = Ok acc' →
  acc' = mkAccount (Balance acc - amount) (Nonce acc) ∧ 0 ≤ amount ≤ Balance acc.
Proof. unfold SubBalance. repeat case_bool_decide; intros [= <-]; split; [done|lia]. Qed.

Lemma AddBalance_Ok_inv acc amount acc' :
  AddBalance acc amount = Ok acc' →
  acc' = mkAccount (Balance acc + amount) (Nonce acc) ∧ 0 ≤ amount.
Proof. unfold AddBalance. case_bool_decide; intros [= <-]; split; [done|lia]. Qed.

Lemma putBucketAndIndex_run bucket s :
  putBucketAndIndex bucket s =
    (Ok (totalBucketCount s),
     set_candBuckets
       (λ m, <[bCandidate bucket := indices m (bCandidate bucket) ∪ {[totalBucketCount s]}]> m)
       (set_voterBuckets
          (λ m, <[bOwner bucket := indices m (bOwner bucket) ∪ {[totalBucketCount s]}]> m)
          (set_totalBucketCount (λ n, ((n + 1) `mod` 2 ^ 64)%N)
             (set_buckets <[totalBucketCount s := bucket]> s)))).
Proof. reflexivity. Qed.

Lemma AddVote_Ok_nonneg c amount c' : AddVote c amount = Ok c' → 0 ≤ amount.
Proof. unfold AddVote. case_bool_decide; [discriminate|lia]. Qed.

Lemma SubVote_Ok_bounds c amount c' :
  SubVote c amount = Ok c' → 0 ≤ amount ≤ Votes c.
Proof. unfold SubVote. repeat case_bool_decide; [discriminate..|lia]. Qed.

(** What a settlement in a handler leaves behind. *)
Lemma settle_world_inv status gasFee logs w r w1 :
  onSM (settleAction p ctx status gasFee logs) w = (Ok r, w1) →
  r = receiptOf p ctx status logs ∧
  (IntrinsicGas (actionCtx ctx) ≤ GasLimit (blkCtx ctx))%N ∧
  inMemCandidates w1 = inMemCandidates w ∧
  ∃ s1 acc,
    depositGas p ctx gasFee (sm w) = (Ok tt, s1) ∧
    LoadAccount s1 (Caller (actionCtx ctx)) = Ok acc ∧
    sm w1 = withNonce (Caller (actionCtx ctx)) acc (ActNonce (actionCtx ctx)) s1.
Proof.
  intros H. apply onSM_Ok_inv in H as (s' & H & ->).
  apply settleAction_Ok_inv in H as (Hgas & -> & s1 & acc & Hdep & Hload & ->).
  repeat split; [done|]. by exists s1, acc.
Qed.

(** The end of a handler: settlement, then updates of the candidate center
    only. *)
Definition center_tail (r0 : Receipt) (m : M World Receipt) : Prop :=
  ∀ w0 r1 w1, m w0 = (Ok r1, w1) → r1 = r0 ∧ sm w1 = sm w0.

Lemma center_tail_mret r0 : center_tail r0 (mret r0).
Proof. intros w0 r1 w1 [= <- <-]. done. Qed.

Lemma center_tail_bind {A} r0 (m : M CandidateCenter A) k :
  (∀ a, center_tail r0 (k a)) → center_tail r0 (onCenter m ≫= k).
Proof.
  intros Hk w0 r1 w1 H. apply bind_Ok_inv in H as (a & w2 & Hm & H).
  apply Hk in H as [-> Hsm]. split; [done|].
  rewrite Hsm. by eapply onCenter_Ok_inv.
Qed.

Lemma settle_success_tail logs gasFee (k : Receipt → M World Receipt) w r w' :
  hookKeepsStakingState p →
  (∀ r0, center_tail r0 (k r0)) →
  (onSM (settleAction p ctx ReceiptStatus_Success gasFee logs) ≫= k) w = (Ok r, w') →
  r = receiptOf p ctx ReceiptStatus_Success logs ∧
  stakingState (sm w') = stakingState (sm w).
Proof.
  intros Hhook Hk H. apply bind_Ok_inv in H as (r0 & w0 & Hsettle & H).
  apply Hk in H as [-> Hsm]. rewrite Hsm.
  apply settle_world_inv in Hsettle as (-> & _ & _ & s1 & acc & Hdep & _ & ->).
  split; [done|]. rewrite withNonce_stakingState. by eapply Hhook.
Qed.

Ltac center_tail_tac :=
  intros; repeat first [ apply center_tail_mret | apply center_tail_bind; intros ].

Lemma handleCreateStake_success act w r w' :
  hookKeepsStakingState p →
  handleCreateStake Hash256b p ctx act w = (Ok r, w') →
  Status r = ReceiptStatus_Success →
  ∃ staker candidate,
    LoadAccount (sm w) (Caller (actionCtx ctx)) = Ok staker ∧
    cs_Amount act + gasFeeOf ctx ≤ Balance staker ∧
    0 ≤ cs_Amount act ∧
    GetByName (inMemCandidates w) (cs_Candidate act) = Some candidate ∧
    let index := totalBucketCount (sm w) in
    let bucket := NewVoteBucket (Owner candidate) (Caller (actionCtx ctx))
                    (cs_Amount act) (cs_Duration act)
                    (BlockTimeStamp (blkCtx ctx)) (cs_AutoStake act) in
    let weight := calculateVoteWeight p bucket false in
    0 ≤ weight ∧
    stakingState (sm w') =
      {| ss_buckets := <[index := bucket]> (buckets (sm w));
         ss_totalBucketCount := ((index + 1) `mod` 2 ^ 64)%N;
         ss_voterBuckets :=
           <[Caller (actionCtx ctx) :=
               indices (voterBuckets (sm w)) (Caller (actionCtx ctx)) ∪ {[index]}]>
             (voterBuckets (sm w));
         ss_candBuckets :=
           <[Owner candidate :=
               indices (candBuckets (sm w)) (Owner candidate) ∪ {[index]}]>
             (candBuckets (sm w));
         ss_candidates :=
           <[Owner candidate := set_Votes (Votes candidate + weight) candidate]>
             (candidates (sm w)) |} ∧
    r = receiptOf p ctx ReceiptStatus_Success
          [createLog Hash256b p ctx HandleCreateStake (Some (Owner candidate))
             (Caller (actionCtx ctx)) (Uint64ToBytes index)].
Proof.
  intros Hhook Hrun Hstatus. unfold handleCreateStake in Hrun. cbv zeta in Hrun.
  fetch_ok Hrun Hstatus.
  rewrite bind_readCenter in Hrun.
  destruct (GetByName _ _) as [candidate|] eqn:Hcand.
  2:{ apply settle_status in Hrun. congruence. }
  apply bind_Ok_inv in Hrun as (idx & w1 & Hput & Hrun).
  apply onSM_Ok_inv in Hput as (s1 & Hput & ->).
  rewrite putBucketAndIndex_run in Hput. injection Hput as <- <-.
  inv_step Hrun. pose proof (AddVote_Ok_nonneg _ _ _ Hstep) as Hweight.
  apply AddVote_Ok_inv in Hstep as ->.
  inv_step Hrun. inv_step Hrun.
  apply SubBalance_Ok_inv in Hstep0 as [-> Hamount].
  inv_step Hrun.
  apply settle_success_tail in Hrun as [-> Hstate]; [|done|center_tail_tac].
  exists caller, candidate. repeat split; try done; try lia.
Qed.


Lemma handleUnstake_success act w r w' :
  hookKeepsStakingState p →
  handleUnstake Hash256b p ctx act w = (Ok r, w') →
  Status r = ReceiptStatus_Success →
  ∃ bucket candidate,
    buckets (sm w) !! us_BucketIndex act = Some bucket ∧
    bOwner bucket = Caller (actionCtx ctx) ∧
    GetByOwner (inMemCandidates w) (bCandidate bucket) = Some candidate ∧
    let self := ContainsSelfStakingBucket (inMemCandidates w) (us_BucketIndex act) in
    let bucket' := set_UnstakeStartTime (BlockTimeStamp (blkCtx ctx)) bucket in
    let weight := calculateVoteWeight p bucket' self in
    0 ≤ weight ≤ Votes candidate ∧
    stakingState (sm w') =
      {| ss_buckets := <[us_BucketIndex act := bucket']> (buckets (sm w));
         ss_totalBucketCount := totalBucketCount (sm w);
         ss_voterBuckets := voterBuckets (sm w);
         ss_candBuckets := candBuckets (sm w);
         ss_candidates :=
           <[Owner candidate :=
               (if self then set_SelfStake 0 else id)
                 (set_Votes (Votes candidate - weight) candidate)]>
             (candidates (sm w)) |}.
Proof.
  intros Hhook Hrun Hstatus. unfold handleUnstake in Hrun. cbv zeta in Hrun.
  fetch_ok Hrun Hstatus. fetch_ok Hrun Hstatus.
  inv_step Hrun. rewrite bind_readCenter in Hrun.
  destruct (GetByOwner _ _) as [candidate|] eqn:Hcand; [|discriminate].
  rewrite bind_readCenter in Hrun. unfold id in Hrun. simpl in Hrun, Hcand.
  inv_step Hrun. pose proof (SubVote_Ok_bounds _ _ _ Hstep0) as Hweight.
  apply SubVote_Ok_inv in Hstep0 as ->.
  inv_step Hrun.
  apply settle_success_tail in Hrun as [-> Hstate]; [|done|center_tail_tac].
  exists bucket, candidate. repeat split; try done; try lia; auto.
  rewrite Hstate. simpl. by destruct (ContainsSelfStakingBucket _ _).
Qed.

Lemma handleWithdrawStake_success act w r w' :
  hookKeepsStakingState p →
  handleWithdrawStake Hash256b p ctx act w = (Ok r, w') →
  Status r = ReceiptStatus_Success →
  ∃ bucket,
    buckets (sm w) !! ws_BucketIndex act = Some bucket ∧
    bOwner bucket = Caller (actionCtx ctx) ∧
    Unix (UnstakeStartTime bucket) ≠ 0 ∧
    UnstakeStartTime bucket + WithdrawWaitingPeriod (config p)
      ≤ BlockTimeStamp (blkCtx ctx) ∧
    stakingState (sm w') =
      {| ss_buckets := delete (ws_BucketIndex act) (buckets (sm w));
         ss_totalBucketCount := totalBucketCount (sm w);
         ss_voterBuckets :=
           <[bOwner bucket :=
               indices (voterBuckets (sm w)) (bOwner bucket) ∖ {[ws_BucketIndex act]}]>
             (voterBuckets (sm w));
         ss_candBuckets :=
           <[bCandidate bucket :=
               indices (candBuckets (sm w)) (bCandidate bucket) ∖ {[ws_BucketIndex act]}]>
             (candBuckets (sm w));
         ss_candidates := candidates (sm w) |}.
Proof.
  intros Hhook Hrun Hstatus. unfold handleWithdrawStake in Hrun. cbv zeta in Hrun.
  fetch_ok Hrun Hstatus. fetch_ok Hrun Hstatus.
  case_bool_decide as Hunix; [apply settle_status in Hrun; congruence|].
  unfold Before, Add in Hrun.
  case_bool_decide as Hmature; [apply settle_status in Hrun; congruence|].
  inv_step Hrun. inv_step Hrun. inv_step Hrun. inv_step Hrun. inv_step Hrun.
  apply settle_tail in Hrun as (_ & Hstate & _); [|done].
  exists bucket. repeat split; try done; try lia; auto.
Qed.

Lemma handleChangeCandidate_success act w r w' :
  hookKeepsStakingState p →
  handleChangeCandidate Hash256b p ctx act w = (Ok r, w') →
  Status r = ReceiptStatus_Success →
  ∃ bucket candidate prevCandidate,
    GetByName (inMemCandidates w) (cc_Candidate act) = Some candidate ∧
    buckets (sm w) !! cc_BucketIndex act = Some bucket ∧
    bOwner bucket = Caller (actionCtx ctx) ∧
    ContainsSelfStakingBucket (inMemCandidates w) (cc_BucketIndex act) = false ∧
    GetByOwner (inMemCandidates w) (bCandidate bucket) = Some prevCandidate ∧
    let bucket' := set_bCandidate (Owner candidate) bucket in
    let weight := calculateVoteWeight p bucket' false in
    let removed :=
      <[bCandidate bucket :=
          indices (candBuckets (sm w)) (bCandidate bucket) ∖ {[cc_BucketIndex act]}]>
        (candBuckets (sm w)) in
    0 ≤ weight ≤ Votes prevCandidate ∧
    stakingState (sm w') =
      {| ss_buckets := <[cc_BucketIndex act := bucket']> (buckets (sm w));
         ss_totalBucketCount := totalBucketCount (sm w);
         ss_voterBuckets := voterBuckets (sm w);
         ss_candBuckets :=
           <[Owner candidate :=
               indices removed (Owner candidate) ∪ {[cc_BucketIndex act]}]> removed;
         ss_candidates :=
           <[Owner candidate := set_Votes (Votes candidate + weight) candidate]>
             (<[Owner prevCandidate :=
                  set_Votes (Votes prevCandidate - weight) prevCandidate]>
                (candidates (sm w))) |}.
Proof.
  intros Hhook Hrun Hstatus. unfold handleChangeCandidate in Hrun. cbv zeta in Hrun.
  fetch_ok Hrun Hstatus.
  rewrite bind_readCenter in Hrun.
  destruct (GetByName _ _) as [candidate|] eqn:Hcand.
  2:{ apply settle_status in Hrun. congruence. }
  fetch_ok Hrun Hstatus.
  rewrite bind_readCenter in Hrun.
  destruct (GetByOwner _ _) as [prevCandidate|] eqn:Hprev; [|discriminate].
  inv_step Hrun. inv_step Hrun. inv_step Hrun. inv_step Hrun.
  pose proof (SubVote_Ok_bounds _ _ _ Hstep2) as Hweight.
  apply SubVote_Ok_inv in Hstep2 as ->.
  inv_step Hrun. inv_step Hrun.
  apply AddVote_Ok_inv in Hstep3 as ->.
  inv_step Hrun.
  apply settle_success_tail in Hrun as [-> Hstate]; [|done|center_tail_tac].
  exists bucket, candidate, prevCandidate.
  repeat split; try done; try lia; auto.
Qed.

Lemma handleTransferStake_success act w r w' :
  hookKeepsStakingState p →
  handleTransferStake Hash256b p ctx act w = (Ok r, w') →
  Status r = ReceiptStatus_Success →
  ∃ bucket,
    buckets (sm w) !! ts_BucketIndex act = Some bucket ∧
    bOwner bucket = Caller (actionCtx ctx) ∧
    ContainsSelfStakingBucket (inMemCandidates w) (ts_BucketIndex act) = false ∧
    let removed :=
      <[bOwner bucket :=
          indices (voterBuckets (sm w)) (bOwner bucket) ∖ {[ts_BucketIndex act]}]>
        (voterBuckets (sm w)) in
    stakingState (sm w') =
      {| ss_buckets :=
           <[ts_BucketIndex act := set_bOwner (ts_VoterAddress act) bucket]>
             (buckets (sm w));
         ss_totalBucketCount := totalBucketCount (sm w);
         ss_voterBuckets :=
           <[ts_VoterAddress act :=
               indices removed (ts_VoterAddress act) ∪ {[ts_BucketIndex act]}]> removed;
         ss_candBuckets := candBuckets (sm w);
         ss_candidates := candidates (sm w) |}.
Proof.
  intros Hhook Hrun Hstatus. unfold handleTransferStake in Hrun. cbv zeta in Hrun.
  fetch_ok Hrun Hstatus. fetch_ok Hrun Hstatus.
  inv_step Hrun. inv_step Hrun. inv_step Hrun.
  apply settle_tail in Hrun as (_ & Hstate & _); [|done].
  exists bucket. repeat split; try done; auto.
Qed.

Lemma handleDepositToStake_success act w r w' :
  hookKeepsStakingState p →
  handleDepositToStake Hash256b p ctx act w = (Ok r, w') →
  Status r = ReceiptStatus_Success →
  ∃ bucket candidate,
    buckets (sm w) !! ds_BucketIndex act = Some bucket ∧
    AutoStake bucket = true ∧
    0 ≤ ds_Amount act ∧
    GetByOwner (inMemCandidates w) (bCandidate bucket) = Some candidate ∧
    let self := ContainsSelfStakingBucket (inMemCandidates w) (ds_BucketIndex act) in
    let bucket' := set_StakedAmount (StakedAmount bucket + ds_Amount act) bucket in
    let prevWeight := calculateVoteWeight p bucket self in
    let weight := calculateVoteWeight p bucket' self in
    0 ≤ prevWeight ≤ Votes candidate ∧ 0 ≤ weight ∧
    stakingState (sm w') =
      {| ss_buckets := <[ds_BucketIndex act := bucket']> (buckets (sm w));
         ss_totalBucketCount := totalBucketCount (sm w);
         ss_voterBuckets := voterBuckets (sm w);
         ss_candBuckets := candBuckets (sm w);
         ss_candidates :=
           <[Owner candidate :=
               (if self then set_SelfStake (SelfStake candidate + ds_Amount act)
                else id)
                 (set_Votes (Votes candidate - prevWeight + weight) candidate)]>
             (candidates (sm w)) |}.
Proof.
  intros Hhook Hrun Hstatus. unfold handleDepositToStake in Hrun. cbv zeta in Hrun.
  fetch_ok Hrun Hstatus. fetch_ok Hrun Hstatus.
  destruct (AutoStake bucket) eqn:Hauto; simpl in Hrun.
  2:{ apply settle_status in Hrun. congruence. }
  rewrite bind_readCenter in Hrun. unfold id in Hrun.
  destruct (GetByOwner _ _) as [candidate|] eqn:Hcand; [|discriminate].
  inv_step Hrun. inv_step Hrun.
  pose proof (SubVote_Ok_bounds _ _ _ Hstep0) as HprevW.
  apply SubVote_Ok_inv in Hstep0 as ->.
  inv_step Hrun. pose proof (AddVote_Ok_nonneg _ _ _ Hstep0) as HW.
  apply AddVote_Ok_inv in Hstep0 as ->.
  apply bind_Ok_inv in Hrun as (c' & w1 & Hself & Hrun).
  destruct (ContainsSelfStakingBucket _ _) eqn:Hcontains.
  - apply lift_result_Ok_inv in Hself as [Hself ->].
    apply AddSelfStake_Ok_inv in Hself as ->.
    inv_step Hrun. inv_bind Hrun Hsub.
    apply SubBalance_Ok_inv in Hsub as [-> Hamount].
    inv_step Hrun.
    apply settle_success_tail in Hrun as [-> Hstate]; [|done|center_tail_tac].
    exists bucket, candidate. repeat split; try done; try lia; auto.
  - injection Hself as <- <-.
    inv_step Hrun. inv_bind Hrun Hsub.
    apply SubBalance_Ok_inv in Hsub as [-> Hamount].
    inv_step Hrun.
    apply settle_success_tail in Hrun as [-> Hstate]; [|done|center_tail_tac].
    exists bucket, candidate. repeat split; try done; try lia; auto.
Qed.


Lemma handleRestake_success act w r w' :
  hookKeepsStakingState p →
  handleRestake Hash256b p ctx act w = (Ok r, w') →
  Status r = ReceiptStatus_Success →
  ∃ bucket candidate,
    buckets (sm w) !! rs_BucketIndex act = Some bucket ∧
    bOwner bucket = Caller (actionCtx ctx) ∧
    GetByOwner (inMemCandidates w) (bCandidate bucket) = Some candidate ∧
    let self := ContainsSelfStakingBucket (inMemCandidates w) (rs_BucketIndex act) in
    let bucket' :=
      set_AutoStake (rs_AutoStake act)
        (set_StakedDuration (int64_wrap (Z.of_N (rs_Duration act) * 24 * Hour))
           bucket) in
    let prevWeight := calculateVoteWeight p bucket self in
    let weight := calculateVoteWeight p bucket' self in
    0 ≤ prevWeight ≤ Votes candidate ∧ 0 ≤ weight ∧
    stakingState (sm w') =
      {| ss_buckets := <[rs_BucketIndex act := bucket']> (buckets (sm w));
         ss_totalBucketCount := totalBucketCount (sm w);
         ss_voterBuckets := voterBuckets (sm w);
         ss_candBuckets := candBuckets (sm w);
         ss_candidates :=
           <[Owner candidate :=
               set_Votes (Votes candidate - prevWeight + weight) candidate]>
             (candidates (sm w)) |}.
Proof.
  intros Hhook Hrun Hstatus. unfold handleRestake in Hrun. cbv zeta in Hrun.
  fetch_ok Hrun Hstatus. fetch_ok Hrun Hstatus.
  rewrite bind_readCenter in Hrun. unfold id in Hrun.
  destruct (GetByOwner _ _) as [candidate|] eqn:Hcand; [|discriminate].
  inv_step Hrun. inv_bind Hrun Hsub.
  pose proof (SubVote_Ok_bounds _ _ _ Hsub) as HprevW.
  apply SubVote_Ok_inv in Hsub as ->.
  inv_bind Hrun Hadd. pose proof (AddVote_Ok_nonneg _ _ _ Hadd) as HW.
  apply AddVote_Ok_inv in Hadd as ->.
  inv_step Hrun.
  apply settle_success_tail in Hrun as [-> Hstate]; [|done|center_tail_tac].
  exists bucket, candidate. repeat split; try done; try lia; auto.
Qed.

Lemma handleCandidateRegister_success act w r w' :
  hookKeepsStakingState p →
  handleCandidateRegister Hash256b p ctx act w = (Ok r, w') →
  Status r = ReceiptStatus_Success →
  ∃ caller,
    LoadAccount (sm w) (Caller (actionCtx ctx)) = Ok caller ∧
    cr_Amount act + RegistrationConsts_Fee (config p) + gasFeeOf ctx
      ≤ Balance caller ∧
    0 ≤ cr_Amount act ∧
    let owner := default (Caller (actionCtx ctx)) (cr_OwnerAddress act) in
    let index := totalBucketCount (sm w) in
    let bucket := NewVoteBucket owner owner (cr_Amount act) (cr_Duration act)
                    (BlockTimeStamp (blkCtx ctx)) (cr_AutoStake act) in
    let c := {| Owner := owner; Operator := cr_OperatorAddress act;
                Reward := cr_RewardAddress act; Name := cr_Name act;
                Votes := calculateVoteWeight p bucket true;
                SelfStakeBucketIdx := index; SelfStake := cr_Amount act |} in
    stakingState (sm w') =
      {| ss_buckets := <[index := bucket]> (buckets (sm w));
         ss_totalBucketCount := ((index + 1) `mod` 2 ^ 64)%N;
         ss_voterBuckets :=
           <[owner := indices (voterBuckets (sm w)) owner ∪ {[index]}]>
             (voterBuckets (sm w));
         ss_candBuckets :=
           <[owner := indices (candBuckets (sm w)) owner ∪ {[index]}]>
             (candBuckets (sm w));
         ss_candidates := <[owner := c]> (candidates (sm w)) |} ∧
    inMemCandidates w' = center_insert c
      (match GetByOwner (inMemCandidates w) owner with
       | Some old => center_remove old (inMemCandidates w)
       | None => inMemCandidates w
       end).
Proof.
  intros Hhook Hrun Hstatus. unfold handleCandidateRegister in Hrun.
  cbv zeta in Hrun. fetch_ok Hrun Hstatus.
  apply bind_Ok_inv in Hrun as (idx & w1 & Hput & Hrun).
  apply onSM_Ok_inv in Hput as (s1 & Hput & ->).
  rewrite putBucketAndIndex_run in Hput. injection Hput as <- <-.
  inv_step Hrun. inv_bind Hrun Hsub.
  apply SubBalance_Ok_inv in Hsub as [-> Hamount].
  inv_step Hrun.
  apply bind_Ok_inv in Hrun as ([] & w2 & Hfee & Hrun).
  apply onSM_Ok_inv in Hfee as (s2 & Hfee & ->).
  apply Hhook in Hfee.
  apply bind_Ok_inv in Hrun as (r0 & w3 & Hsettle & Hrun).
  apply settle_tail in Hsettle as (_ & Hstate & Hcenter); [|done].
  apply bind_Ok_inv in Hrun as ([] & w4 & Hup & Hrun).
  injection Hrun as <- <-.
  assert (Hsm : sm w4 = sm w3) by (by eapply onCenter_Ok_inv).
  exists caller. split; [done|]. split; [lia|]. split; [lia|].
  cbv zeta. split.
  - rewrite Hsm, Hstate. simpl. rewrite Hfee. simpl.
    by destruct (cr_OwnerAddress act).
  - unfold onCenter in Hup. rewrite Hcenter in Hup. simpl in Hup.
    unfold Upsert in Hup.
    unfold mbind, M_bind, bind, get in Hup. simpl in Hup.
    destruct (_ || _); [discriminate|].
    unfold put in Hup. injection Hup as <-. simpl.
    by destruct (cr_OwnerAddress act).
Qed.

Definition updatedCandidate (act : CandidateUpdate) (c : Candidate) : Candidate :=
  {| Owner := Owner c;
     Operator := default (Operator c) (cu_OperatorAddress act);
     Reward := default (Reward c) (cu_RewardAddress act);
     Name := if bool_decide (cu_Name act = "") then Name c else cu_Name act;
     Votes := Votes c;
     SelfStakeBucketIdx := SelfStakeBucketIdx c;
     SelfStake := SelfStake c |}.

Lemma string_length_0 (s : string) : String.length s = 0%nat ↔ s = "".
Proof. destruct s; simpl; split; congruence. Qed.

Lemma handleCandidateUpdate_success act w r w' :
  hookKeepsStakingState p →
  handleCandidateUpdate Hash256b p ctx act w = (Ok r, w') →
  Status r = ReceiptStatus_Success →
  ∃ c,
    GetByOwner (inMemCandidates w) (Caller (actionCtx ctx)) = Some c ∧
    stakingState (sm w') =
      {| ss_buckets := buckets (sm w);
         ss_totalBucketCount := totalBucketCount (sm w);
         ss_voterBuckets := voterBuckets (sm w);
         ss_candBuckets := candBuckets (sm w);
         ss_candidates :=
           <[Owner c := updatedCandidate act c]> (candidates (sm w)) |}.
Proof.
  intros Hhook Hrun Hstatus. unfold handleCandidateUpdate in Hrun.
  cbv zeta in Hrun. fetch_ok Hrun Hstatus.
  rewrite bind_readCenter in Hrun.
  destruct (GetByOwner _ _) as [c|] eqn:Hc.
  2:{ apply settle_status in Hrun. congruence. }
  inv_step Hrun.
  apply settle_success_tail in Hrun as [-> Hstate]; [|done|center_tail_tac].
  exists c. split; [done|]. rewrite Hstate. simpl.
  assert (Heq :
    match cu_RewardAddress act with
    | Some a => set_Reward a
                 match cu_OperatorAddress act with
                 | Some a0 => set_Operator a0
                               (if bool_decide (String.length (cu_Name act) ≠ 0%nat)
                                then set_Name (cu_Name act) c else c)
                 | None => if bool_decide (String.length (cu_Name act) ≠ 0%nat)
                           then set_Name (cu_Name act) c else c
                 end
    | None => match cu_OperatorAddress act with
              | Some a0 => set_Operator a0
                            (if bool_decide (String.length (cu_Name act) ≠ 0%nat)
                             then set_Name (cu_Name act) c else c)
              | None => if bool_decide (String.length (cu_Name act) ≠ 0%nat)
                        then set_Name (cu_Name act) c else c
              end
    end = updatedCandidate act c).
  { unfold updatedCandidate.
    destruct (cu_RewardAddress act), (cu_OperatorAddress act);
      repeat case_bool_decide; simpl;
      try (exfalso; rewrite string_length_0 in *; congruence);
      destruct c; reflexivity. }
  rewrite Heq. reflexivity.
Qed.


(** ** Receipts *)

Definition possibleStatuses (act : Action) : list ReceiptStatus :=
  match act with
  | ActCreateStake _ =>
      [ReceiptStatus_Success; ReceiptStatus_ErrNotEnoughBalance;
       ReceiptStatus_ErrCandidateNotExist]
  | ActUnstake _ | ActRestake _ =>
      [ReceiptStatus_Success; ReceiptStatus_ErrNotEnoughBalance;
       ReceiptStatus_ErrInvalidBucketIndex; ReceiptStatus_ErrUnauthorizedOperator]
  | ActWithdrawStake _ =>
      [ReceiptStatus_Success; ReceiptStatus_ErrNotEnoughBalance;
       ReceiptStatus_ErrInvalidBucketIndex; ReceiptStatus_ErrUnauthorizedOperator;
       ReceiptStatus_ErrWithdrawBeforeUnstake;
       ReceiptStatus_ErrWithdrawBeforeMaturity]
  | ActChangeCandidate _ =>
      [ReceiptStatus_Success; ReceiptStatus_ErrNotEnoughBalance;
       ReceiptStatus_ErrCandidateNotExist; ReceiptStatus_ErrInvalidBucketIndex;
       ReceiptStatus_ErrUnauthorizedOperator; ReceiptStatus_ErrInvalidBucketType]
  | ActTransferStake _ =>
      [ReceiptStatus_Success; ReceiptStatus_ErrNotEnoughBalance;
       ReceiptStatus_ErrInvalidBucketIndex; ReceiptStatus_ErrUnauthorizedOperator;
       ReceiptStatus_ErrInvalidBucketType]
  | ActDepositToStake _ =>
      [ReceiptStatus_Success; ReceiptStatus_ErrNotEnoughBalance;
       ReceiptStatus_ErrInvalidBucketIndex; ReceiptStatus_ErrInvalidBucketType]
  | ActCandidateRegister _ =>
      [ReceiptStatus_Success; ReceiptStatus_ErrNotEnoughBalance]
  | ActCandidateUpdate _ =>
      [ReceiptStatus_Success; ReceiptStatus_ErrNotEnoughBalance;
       ReceiptStatus_ErrCandidateNotExist]
  end.

Lemma onFetchError_caller_status sr amount gasFee fetchErr w r w' :
  fetchCaller ctx sr amount = inr (gasFee, fetchErr) →
  onFetchError p ctx gasFee fetchErr w = (Ok r, w') →
  Status r = ReceiptStatus_ErrNotEnoughBalance.
Proof.
  intros Hcaller Hrun. unfold onFetchError in Hrun.
  case_bool_decide as Hf; [discriminate|].
  apply settle_status in Hrun.
  apply fetchCaller_inr_status in Hcaller as [H|H]; congruence.
Qed.

Lemma onFetchError_bucket_status sr center index checkOwner allowSelfStaking
    gasFee fetchErr w r w' :
  fetchBucket ctx sr center index checkOwner allowSelfStaking = inr fetchErr →
  onFetchError p ctx gasFee fetchErr w = (Ok r, w') →
  Status r = ReceiptStatus_ErrInvalidBucketIndex ∨
  (checkOwner = true ∧ Status r = ReceiptStatus_ErrUnauthorizedOperator) ∨
  (allowSelfStaking = false ∧ Status r = ReceiptStatus_ErrInvalidBucketType).
Proof.
  intros Hbucket Hrun. apply onFetchError_status in Hrun. rewrite Hrun.
  unfold fetchBucket, getBucket in Hbucket.
  destruct (buckets sr !! index).
  - destruct checkOwner, allowSelfStaking; simpl in Hbucket;
      repeat case_bool_decide; simpl in Hbucket;
      try destruct (ContainsSelfStakingBucket center index);
      try discriminate; injection Hbucket as <-; simpl; auto.
  - rewrite bool_decide_eq_true_2 in Hbucket by done.
    injection Hbucket as <-. auto.
Qed.

Ltac in_list :=
  repeat first [ apply list_elem_of_here | apply list_elem_of_further ].

(** Settles the status of a receipt on each path of a handler. *)
Ltac status_path Hrun :=
  first
    [ erewrite onFetchError_caller_status by eassumption; in_list
    | eapply onFetchError_bucket_status in Hrun; [|eassumption];
      destruct Hrun as [Hrun|[[? Hrun]|[? Hrun]]];
      first [ discriminate | rewrite Hrun; in_list ]
    | rewrite (settle_status _ _ _ _ _ _ _ _ Hrun); in_list
    | revert Hrun;
      match goal with
      | |- ?m ?w = (Ok ?r, ?w') → _ =>
          let H := fresh in
          assert (H : succ_only m) by succ_only_tail;
          let Hs := fresh in
          intros Hs; rewrite (H _ _ _ Hs); in_list
      end ].

(** X1.  The receipt of a handler has one of the statuses of its action. *)
Theorem receipt_status_of_action (act : Action) (w : World) (r : Receipt)
    (w' : World) :
  handle Hash256b p ctx act w = (Ok r, w') →
  Status r ∈ possibleStatuses act.
Proof.
  intros Hrun. destruct act as [act|act|act|act|act|act|act|act|act];
    simpl in Hrun |- *.
  - unfold handleCreateStake in Hrun. cbv zeta in Hrun.
    rewrite bind_readSM in Hrun.
    destruct (fetchCaller _ _ _) as [[caller gasFee]|[gasFee fetchErr]] eqn:Hc;
      [|status_path Hrun].
    rewrite bind_readCenter in Hrun.
    destruct (GetByName _ _); status_path Hrun.
  - unfold handleUnstake in Hrun. cbv zeta in Hrun.
    rewrite bind_readSM in Hrun.
    destruct (fetchCaller _ _ _) as [[caller gasFee]|[gasFee fetchErr]] eqn:Hc;
      [|status_path Hrun].
    rewrite bind_get in Hrun.
    destruct (fetchBucket _ _ _ _ _ _) eqn:Hb; status_path Hrun.
  - unfold handleWithdrawStake in Hrun. cbv zeta in Hrun.
    rewrite bind_readSM in Hrun.
    destruct (fetchCaller _ _ _) as [[caller gasFee]|[gasFee fetchErr]] eqn:Hc;
      [|status_path Hrun].
    rewrite bind_get in Hrun.
    destruct (fetchBucket _ _ _ _ _ _) eqn:Hb; [|status_path Hrun].
    case_bool_decide; [status_path Hrun|].
    destruct (Before _ _); status_path Hrun.
  - unfold handleChangeCandidate in Hrun. cbv zeta in Hrun.
    rewrite bind_readSM in Hrun.
    destruct (fetchCaller _ _ _) as [[caller gasFee]|[gasFee fetchErr]] eqn:Hc;
      [|status_path Hrun].
    rewrite bind_readCenter in Hrun.
    destruct (GetByName _ _); [|status_path Hrun].
    rewrite bind_get in Hrun.
    destruct (fetchBucket _ _ _ _ _ _) eqn:Hb; status_path Hrun.
  - unfold handleTransferStake in Hrun. cbv zeta in Hrun.
    rewrite bind_readSM in Hrun.
    destruct (fetchCaller _ _ _) as [[caller gasFee]|[gasFee fetchErr]] eqn:Hc;
      [|status_path Hrun].
    rewrite bind_get in Hrun.
    destruct (fetchBucket _ _ _ _ _ _) eqn:Hb; status_path Hrun.
  - unfold handleDepositToStake in Hrun. cbv zeta in Hrun.
    rewrite bind_readSM in Hrun.
    destruct (fetchCaller _ _ _) as [[caller gasFee]|[gasFee fetchErr]] eqn:Hc;
      [|status_path Hrun].
    rewrite bind_get in Hrun.
    destruct (fetchBucket _ _ _ _ _ _) eqn:Hb; [|status_path Hrun].
    destruct (AutoStake _); simpl in Hrun; status_path Hrun.
  - unfold handleRestake in Hrun. cbv zeta in Hrun.
    rewrite bind_readSM in Hrun.
    destruct (fetchCaller _ _ _) as [[caller gasFee]|[gasFee fetchErr]] eqn:Hc;
      [|status_path Hrun].
    rewrite bind_get in Hrun.
    destruct (fetchBucket _ _ _ _ _ _) eqn:Hb; status_path Hrun.
  - unfold handleCandidateRegister in Hrun. cbv zeta in Hrun.
    rewrite bind_readSM in Hrun.
    destruct (fetchCaller _ _ _) as [[caller gasFee]|[gasFee fetchErr]] eqn:Hc;
      status_path Hrun.
  - unfold handleCandidateUpdate in Hrun. cbv zeta in Hrun.
    rewrite bind_readSM in Hrun.
    destruct (fetchCaller _ _ _) as [[caller gasFee]|[gasFee fetchErr]] eqn:Hc;
      [|status_path Hrun].
    rewrite bind_readCenter in Hrun.
    destruct (GetByOwner _ _); status_path Hrun.
Qed.


(** Computations whose receipts come out of a settlement after which the
    state manager is not written any more. *)
Definition ends_in_settle (m : M World Receipt) : Prop :=
  ∀ w r w', m w = (Ok r, w') →
    ∃ status gasFee logs w0 w1,
      onSM (settleAction p ctx status gasFee logs) w0 = (Ok r, w1) ∧
      sm w' = sm w1.

Lemma ends_settle status gasFee logs :
  ends_in_settle (onSM (settleAction p ctx status gasFee logs)).
Proof. intros w r w' H. by exists status, gasFee, logs, w, w'. Qed.

Lemma ends_settle_tail status gasFee logs (k : Receipt → M World Receipt) :
  (∀ r0, center_tail r0 (k r0)) →
  ends_in_settle (onSM (settleAction p ctx status gasFee logs) ≫= k).
Proof.
  intros Hk w r w' H. apply bind_Ok_inv in H as (r0 & w1 & Hsettle & H).
  apply Hk in H as [-> Hsm]. by exists status, gasFee, logs, w, w1.
Qed.

Lemma ends_throw e : ends_in_settle (throw e).
Proof. intros w r w' H. discriminate. Qed.

Lemma ends_onFetchError gasFee fetchErr :
  ends_in_settle (onFetchError p ctx gasFee fetchErr).
Proof.
  unfold onFetchError. case_bool_decide; [apply ends_throw|apply ends_settle].
Qed.

Lemma ends_bind {A} (m : M World A) k :
  (∀ a, ends_in_settle (k a)) → ends_in_settle (m ≫= k).
Proof.
  intros Hk w r w' H. apply bind_Ok_inv in H as (a & w1 & _ & H).
  by eapply Hk.
Qed.

Ltac ends_tac :=
  repeat first
    [ apply ends_settle_tail; center_tail_tac
    | apply ends_settle
    | apply ends_throw
    | apply ends_onFetchError
    | apply ends_bind; intros
    | match goal with
      | |- ends_in_settle (match ?x with _ => _ end) => destruct x
      end ].

Lemma handle_ends_in_settle act : ends_in_settle (handle Hash256b p ctx act).
Proof.
  destruct act; simpl;
    [ unfold handleCreateStake | unfold handleUnstake
    | unfold handleWithdrawStake | unfold handleChangeCandidate
    | unfold handleTransferStake | unfold handleDepositToStake
    | unfold handleRestake | unfold handleCandidateRegister
    | unfold handleCandidateUpdate ];
    cbv zeta; ends_tac.
Qed.

(** X2.  Whatever the action and its outcome, a receipt is only returned
    when the block gas limit admits the intrinsic gas; it reports the
    intrinsic gas as consumed, the protocol address, and the block height and
    action hash of the context; and the account of the caller is then stored
    with a nonce that is at least the nonce of the action. *)
Theorem receipt_is_settled (act : Action) (w : World) (r : Receipt) (w' : World) :
  handle Hash256b p ctx act w = (Ok r, w') →
  (IntrinsicGas (actionCtx ctx) ≤ GasLimit (blkCtx ctx))%N ∧
  GasConsumed r = IntrinsicGas (actionCtx ctx) ∧
  ContractAddress r = addr p ∧
  rBlockHeight r = BlockHeight (blkCtx ctx) ∧
  rActionHash r = ActionHash (actionCtx ctx) ∧
  ∃ acc, accounts (sm w') !! Caller (actionCtx ctx) = Some acc ∧
         (ActNonce (actionCtx ctx) ≤ Nonce acc)%N.
Proof.
  intros Hrun.
  destruct (handle_ends_in_settle _ _ _ _ Hrun)
    as (status & gasFee & logs & w0 & w1 & Hsettle & Hsm).
  apply settle_world_inv in Hsettle
    as (-> & Hgas & _ & s1 & acc & _ & _ & Hw1).
  repeat split; try done.
  rewrite Hsm, Hw1. eexists. split.
  - unfold withNonce. simpl. apply lookup_insert_eq.
  - simpl. lia.
Qed.

(** X3.  When the account of the caller cannot be loaded, every handler
    aborts with the error of the load: there is no receipt and neither the
    state manager nor the candidate center is touched. *)
Theorem caller_not_loaded_aborts (act : Action) (w : World) (e : error) :
  LoadAccount (sm w) (Caller (actionCtx ctx)) = Err e →
  handle Hash256b p ctx act w = (Err e, w).
Proof.
  intros Hload.
  assert (Hf : ∀ amount, fetchCaller ctx (sm w) amount
                         = inr (0, {| err := e; failureStatus := ReceiptStatus_Failure |})).
  { intros amount. unfold fetchCaller. by rewrite Hload. }
  destruct act; simpl;
    [ unfold handleCreateStake | unfold handleUnstake
    | unfold handleWithdrawStake | unfold handleChangeCandidate
    | unfold handleTransferStake | unfold handleDepositToStake
    | unfold handleRestake | unfold handleCandidateRegister
    | unfold handleCandidateUpdate ];
    cbv zeta; rewrite bind_readSM, Hf; reflexivity.
Qed.

(** The amount an action needs on top of the gas fee. *)
Definition requiredAmount (act : Action) : Z :=
  match act with
  | ActCreateStake a => cs_Amount a
  | ActDepositToStake a => ds_Amount a
  | ActCandidateRegister a => cr_Amount a + RegistrationConsts_Fee (config p)
  | _ => 0
  end.

(** X4.  The balance check comes first in every handler: a caller whose
    balance is below the amount of the action plus the gas fee gets a
    settlement with status [ErrNotEnoughBalance], charged the gas fee or, if
    that is more than the balance, the whole balance, whatever else is wrong
    with the action. *)
Theorem balance_check_comes_first (act : Action) (w : World) (caller : Account) :
  LoadAccount (sm w) (Caller (actionCtx ctx)) = Ok caller →
  Balance caller < requiredAmount act + gasFeeOf ctx →
  handle Hash256b p ctx act w =
    onSM (settleAction p ctx ReceiptStatus_ErrNotEnoughBalance
            (gasFeeOf ctx `min` Balance caller) []) w.
Proof.
  intros Hload Hbal.
  assert (Hf : fetchCaller ctx (sm w) (requiredAmount act)
               = inr (gasFeeOf ctx `min` Balance caller,
                      {| err := ErrNotEnoughBalance;
                         failureStatus := ReceiptStatus_ErrNotEnoughBalance |})).
  { unfold fetchCaller, gasFeeOf in *. rewrite Hload.
    rewrite bool_decide_eq_true_2 by lia.
    case_bool_decide; do 2 f_equal; lia. }
  destruct act; simpl in *;
    [ unfold handleCreateStake | unfold handleUnstake
    | unfold handleWithdrawStake | unfold handleChangeCandidate
    | unfold handleTransferStake | unfold handleDepositToStake
    | unfold handleRestake | unfold handleCandidateRegister
    | unfold handleCandidateUpdate ];
    cbv zeta; rewrite bind_readSM, Hf; reflexivity.
Qed.


(** ** The bucket indices *)

(** Every stored bucket is listed under its owner in [voter_buckets] and
    under its candidate in [cand_buckets]. *)
Definition indexed (s : StakingState) : Prop :=
  ∀ i b, ss_buckets s !! i = Some b →
    i ∈ indices (ss_voterBuckets s) (bOwner b) ∧
    i ∈ indices (ss_candBuckets s) (bCandidate b).

Lemma elem_of_indices_add (m : gmap Address (gset N)) a j a' i :
  i ∈ indices (<[a := indices m a ∪ {[j]}]> m) a' ↔
  i ∈ indices m a' ∨ (a' = a ∧ i = j).
Proof.
  unfold indices at 1. destruct (decide (a = a')) as [<-|Hne].
  - rewrite lookup_insert_eq. simpl. set_solver.
  - rewrite lookup_insert_ne by done. fold (indices m a'). naive_solver.
Qed.

Lemma elem_of_indices_remove (m : gmap Address (gset N)) a j a' i :
  i ∈ indices (<[a := indices m a ∖ {[j]}]> m) a' ↔
  i ∈ indices m a' ∧ ¬ (a' = a ∧ i = j).
Proof.
  unfold indices at 1. destruct (decide (a = a')) as [<-|Hne].
  - rewrite lookup_insert_eq. simpl. set_solver.
  - rewrite lookup_insert_ne by done. fold (indices m a'). naive_solver.
Qed.

Lemma indexed_update (s s' : StakingState) index bucket bucket' :
  indexed s →
  ss_buckets s !! index = Some bucket →
  ss_buckets s' = <[index := bucket']> (ss_buckets s) →
  ss_voterBuckets s' = ss_voterBuckets s →
  ss_candBuckets s' = ss_candBuckets s →
  bOwner bucket' = bOwner bucket →
  bCandidate bucket' = bCandidate bucket →
  indexed s'.
Proof.
  intros Hs Hb Hbs Hvb Hcb Ho Hc i b Hi. rewrite Hvb, Hcb. rewrite Hbs in Hi.
  destruct (decide (index = i)) as [<-|Hne].
  - rewrite lookup_insert_eq in Hi. injection Hi as <-. rewrite Ho, Hc. by apply Hs.
  - rewrite lookup_insert_ne in Hi by done. by apply Hs.
Qed.

Lemma indexed_new (s s' : StakingState) index bucket :
  indexed s →
  ss_buckets s' = <[index := bucket]> (ss_buckets s) →
  ss_voterBuckets s' =
    <[bOwner bucket := indices (ss_voterBuckets s) (bOwner bucket) ∪ {[index]}]>
      (ss_voterBuckets s) →
  ss_candBuckets s' =
    <[bCandidate bucket := indices (ss_candBuckets s) (bCandidate bucket) ∪ {[index]}]>
      (ss_candBuckets s) →
  indexed s'.
Proof.
  intros Hs Hbs Hvb Hcb i b Hi. rewrite Hvb, Hcb, !elem_of_indices_add.
  rewrite Hbs in Hi. destruct (decide (index = i)) as [<-|Hne].
  - rewrite lookup_insert_eq in Hi. injection Hi as <-. auto.
  - rewrite lookup_insert_ne in Hi by done. apply Hs in Hi as [? ?]. auto.
Qed.

(** X5.  The handlers keep the bucket indices complete: if every stored
    bucket is listed under its owner and under its candidate before an
    action, the same holds after any action that returns a receipt. *)
Theorem handlers_keep_buckets_indexed (act : Action) (w : World) (r : Receipt)
    (w' : World) :
  hookKeepsStakingState p →
  indexed (stakingState (sm w)) →
  handle Hash256b p ctx act w = (Ok r, w') →
  indexed (stakingState (sm w')).
Proof.
  intros Hhook Hs Hrun.
  destruct (decide (Status r = ReceiptStatus_Success)) as [Hstatus|Hstatus].
  2:{ destruct (handle_failed _ _ _ _ _ _ _ Hrun Hstatus)
        as (gasFee & s1 & acc & Hdep & _ & Hsm & _).
      rewrite Hsm, withNonce_stakingState, (Hhook _ _ _ _ Hdep). done. }
  destruct act as [act|act|act|act|act|act|act|act|act]; simpl in Hrun.
  - destruct (handleCreateStake_success _ _ _ _ Hhook Hrun Hstatus)
      as (staker & candidate & _ & _ & _ & _ & _ & Hstate & _).
    rewrite Hstate. eapply indexed_new; [exact Hs|reflexivity..].
  - destruct (handleUnstake_success _ _ _ _ Hhook Hrun Hstatus)
      as (bucket & candidate & Hb & _ & _ & _ & Hstate).
    rewrite Hstate. eapply indexed_update; [exact Hs|exact Hb|reflexivity..].
  - destruct (handleWithdrawStake_success _ _ _ _ Hhook Hrun Hstatus)
      as (bucket & Hb & _ & _ & _ & Hstate).
    rewrite Hstate. intros i b Hi. simpl in *.
    rewrite elem_of_indices_remove.
    destruct (decide (ws_BucketIndex act = i)) as [<-|Hne].
    { by rewrite lookup_delete_eq in Hi. }
    rewrite lookup_delete_ne in Hi by done.
    rewrite elem_of_indices_remove. apply Hs in Hi as [? ?]. naive_solver.
  - destruct (handleChangeCandidate_success _ _ _ _ Hhook Hrun Hstatus)
      as (bucket & candidate & prev & _ & Hb & _ & _ & _ & _ & Hstate).
    rewrite Hstate. intros i b Hi. simpl in *.
    rewrite elem_of_indices_add, elem_of_indices_remove.
    destruct (decide (cc_BucketIndex act = i)) as [<-|Hne].
    + rewrite lookup_insert_eq in Hi. injection Hi as <-. simpl.
      apply Hs in Hb as [? ?]. auto.
    + rewrite lookup_insert_ne in Hi by done. apply Hs in Hi as [? ?].
      naive_solver.
  - destruct (handleTransferStake_success _ _ _ _ Hhook Hrun Hstatus)
      as (bucket & Hb & _ & _ & Hstate).
    rewrite Hstate. intros i b Hi. simpl in *.
    rewrite elem_of_indices_add, elem_of_indices_remove.
    destruct (decide (ts_BucketIndex act = i)) as [<-|Hne].
    + rewrite lookup_insert_eq in Hi. injection Hi as <-. simpl.
      apply Hs in Hb as [? ?]. auto.
    + rewrite lookup_insert_ne in Hi by done. apply Hs in Hi as [? ?].
      naive_solver.
  - destruct (handleDepositToStake_success _ _ _ _ Hhook Hrun Hstatus)
      as (bucket & candidate & Hb & _ & _ & _ & _ & _ & Hstate).
    rewrite Hstate. eapply indexed_update; [exact Hs|exact Hb|reflexivity..].
  - destruct (handleRestake_success _ _ _ _ Hhook Hrun Hstatus)
      as (bucket & candidate & Hb & _ & _ & _ & _ & Hstate).
    rewrite Hstate. eapply indexed_update; [exact Hs|exact Hb|reflexivity..].
  - destruct (handleCandidateRegister_success _ _ _ _ Hhook Hrun Hstatus)
      as (caller & _ & _ & _ & Hstate & _).
    rewrite Hstate. eapply indexed_new; [exact Hs|reflexivity..].
  - destruct (handleCandidateUpdate_success _ _ _ _ Hhook Hrun Hstatus)
      as (c & _ & Hstate).
    rewrite Hstate. intros i b Hi. by apply Hs.
Qed.


(** No bucket is stored at or above the bucket count. *)
Definition belowCount (s : StakingState) : Prop :=
  ∀ i b, ss_buckets s !! i = Some b → (i < ss_totalBucketCount s)%N.

(** X6.  As long as the bucket count has not reached the end of [uint64],
    the handlers keep every stored bucket below the bucket count, so that the
    index a new bucket gets is one that holds no bucket. *)
Theorem handlers_keep_buckets_below_count (act : Action) (w : World)
    (r : Receipt) (w' : World) :
  hookKeepsStakingState p →
  (totalBucketCount (sm w) + 1 < 2 ^ 64)%N →
  belowCount (stakingState (sm w)) →
  handle Hash256b p ctx act w = (Ok r, w') →
  belowCount (stakingState (sm w')) ∧
  (totalBucketCount (sm w) ≤ totalBucketCount (sm w'))%N ∧
  buckets (sm w) !! totalBucketCount (sm w) = None.
Proof.
  intros Hhook Hcount Hs Hrun.
  assert (Hfree : buckets (sm w) !! totalBucketCount (sm w) = None).
  { destruct (buckets (sm w) !! totalBucketCount (sm w)) as [b|] eqn:Hb; [|done].
    apply Hs in Hb. simpl in Hb. lia. }
  assert (Hnew : ∀ s' bucket,
    ss_buckets s' = <[totalBucketCount (sm w) := bucket]> (buckets (sm w)) →
    ss_totalBucketCount s' = ((totalBucketCount (sm w) + 1) `mod` 2 ^ 64)%N →
    belowCount s' ∧ (totalBucketCount (sm w) ≤ ss_totalBucketCount s')%N).
  { intros s' bucket Hbs Hc. rewrite Hc, N.mod_small by done. split; [|lia].
    intros i b Hi. rewrite Hbs in Hi. rewrite Hc, N.mod_small by done.
    destruct (decide (totalBucketCount (sm w) = i)) as [<-|Hne]; [lia|].
    rewrite lookup_insert_ne in Hi by done. apply Hs in Hi. simpl in Hi. lia. }
  assert (Hupd : ∀ s' index bucket bucket',
    buckets (sm w) !! index = Some bucket →
    ss_buckets s' = <[index := bucket']> (buckets (sm w)) →
    ss_totalBucketCount s' = totalBucketCount (sm w) →
    belowCount s' ∧ (totalBucketCount (sm w) ≤ ss_totalBucketCount s')%N).
  { intros s' index bucket bucket' Hb Hbs Hc. rewrite Hc. split; [|lia].
    intros i b Hi. rewrite Hbs in Hi. rewrite Hc.
    destruct (decide (index = i)) as [<-|Hne].
    - by apply Hs in Hb.
    - rewrite lookup_insert_ne in Hi by done. by apply Hs in Hi. }
  rewrite (and_assoc _ _ _). split; [|done].
  change (totalBucketCount (sm w')) with (ss_totalBucketCount (stakingState (sm w'))).
  destruct (decide (Status r = ReceiptStatus_Success)) as [Hstatus|Hstatus].
  2:{ destruct (handle_failed _ _ _ _ _ _ _ Hrun Hstatus)
        as (gasFee & s1 & acc & Hdep & _ & Hsm & _).
      rewrite Hsm, withNonce_stakingState, (Hhook _ _ _ _ Hdep). simpl.
      split; [done|lia]. }
  destruct act as [act|act|act|act|act|act|act|act|act]; simpl in Hrun.
  - destruct (handleCreateStake_success _ _ _ _ Hhook Hrun Hstatus)
      as (staker & candidate & _ & _ & _ & _ & _ & Hstate & _).
    rewrite Hstate. by eapply Hnew.
  - destruct (handleUnstake_success _ _ _ _ Hhook Hrun Hstatus)
      as (bucket & candidate & Hb & _ & _ & _ & Hstate).
    rewrite Hstate. by eapply Hupd.
  - destruct (handleWithdrawStake_success _ _ _ _ Hhook Hrun Hstatus)
      as (bucket & Hb & _ & _ & _ & Hstate).
    rewrite Hstate. simpl. split; [|lia]. intros i b Hi. simpl in *.
    apply lookup_delete_Some in Hi as [_ Hi]. by apply Hs in Hi.
  - destruct (handleChangeCandidate_success _ _ _ _ Hhook Hrun Hstatus)
      as (bucket & candidate & prev & _ & Hb & _ & _ & _ & _ & Hstate).
    rewrite Hstate. by eapply Hupd.
  - destruct (handleTransferStake_success _ _ _ _ Hhook Hrun Hstatus)
      as (bucket & Hb & _ & _ & Hstate).
    rewrite Hstate. by eapply Hupd.
  - destruct (handleDepositToStake_success _ _ _ _ Hhook Hrun Hstatus)
      as (bucket & candidate & Hb & _ & _ & _ & _ & _ & Hstate).
    rewrite Hstate. by eapply Hupd.
  - destruct (handleRestake_success _ _ _ _ Hhook Hrun Hstatus)
      as (bucket & candidate & Hb & _ & _ & _ & _ & Hstate).
    rewrite Hstate. by eapply Hupd.
  - destruct (handleCandidateRegister_success _ _ _ _ Hhook Hrun Hstatus)
      as (caller & _ & _ & _ & Hstate & _).
    rewrite Hstate. by eapply Hnew.
  - destruct (handleCandidateUpdate_success _ _ _ _ Hhook Hrun Hstatus)
      as (c & _ & Hstate).
    rewrite Hstate. simpl. split; [done|lia].
Qed.


(** ** What the handlers store on success *)

(** X7.  A successful [createStake] stores the new bucket, owned by the
    caller and voting for the named candidate, at the index that was the
    bucket count, raises the count by one, lists the index under the caller
    and under the candidate, adds the weight of the bucket to the votes of
    the stored candidate and leaves the other buckets alone; the log carries
    the index. *)
Theorem createStake_effects (act : CreateStake) (w : World) (r : Receipt)
    (w' : World) :
  hookKeepsStakingState p →
  handleCreateStake Hash256b p ctx act w = (Ok r, w') →
  Status r = ReceiptStatus_Success →
  let index := totalBucketCount (sm w) in
  ∃ candidate,
    GetByName (inMemCandidates w) (cs_Candidate act) = Some candidate ∧
    let bucket := NewVoteBucket (Owner candidate) (Caller (actionCtx ctx))
                    (cs_Amount act) (cs_Duration act)
                    (BlockTimeStamp (blkCtx ctx)) (cs_AutoStake act) in
    buckets (sm w') !! index = Some bucket ∧
    (∀ j, j ≠ index → buckets (sm w') !! j = buckets (sm w) !! j) ∧
    totalBucketCount (sm w') = ((index + 1) `mod` 2 ^ 64)%N ∧
    index ∈ indices (voterBuckets (sm w')) (Caller (actionCtx ctx)) ∧
    index ∈ indices (candBuckets (sm w')) (Owner candidate) ∧
    candidates (sm w') !! Owner candidate =
      Some (set_Votes (Votes candidate + calculateVoteWeight p bucket false)
              candidate) ∧
    Logs r = [createLog Hash256b p ctx HandleCreateStake (Some (Owner candidate))
                (Caller (actionCtx ctx)) (Uint64ToBytes index)].
Proof.
  intros Hhook Hrun Hstatus index.
  destruct (handleCreateStake_success _ _ _ _ Hhook Hrun Hstatus)
    as (staker & candidate & _ & _ & _ & Hcand & _ & Hstate & ->).
  injection Hstate as Hbs Hcount Hvb Hcb Hcs.
  exists candidate. split; [done|]. cbv zeta.
  rewrite Hbs, Hcount, Hvb, Hcb, Hcs, !elem_of_indices_add.
  repeat split; auto.
  - apply lookup_insert_eq.
  - intros j Hj. by apply lookup_insert_ne.
  - apply lookup_insert_eq.
Qed.

(** X8.  A successful [unstake] sets the unstake time of the bucket to the
    block timestamp, takes the weight of the bucket, computed after the time
    is set, off the votes of the candidate of the bucket, and clears the
    self-stake of that candidate exactly when the bucket is its self-staking
    bucket; the bucket indices and the bucket count stay. *)
Theorem unstake_effects (act : Unstake) (w : World) (r : Receipt) (w' : World) :
  hookKeepsStakingState p →
  handleUnstake Hash256b p ctx act w = (Ok r, w') →
  Status r = ReceiptStatus_Success →
  ∃ bucket candidate,
    buckets (sm w) !! us_BucketIndex act = Some bucket ∧
    bOwner bucket = Caller (actionCtx ctx) ∧
    GetByOwner (inMemCandidates w) (bCandidate bucket) = Some candidate ∧
    let self := ContainsSelfStakingBucket (inMemCandidates w) (us_BucketIndex act) in
    let bucket' := set_UnstakeStartTime (BlockTimeStamp (blkCtx ctx)) bucket in
    buckets (sm w') !! us_BucketIndex act = Some bucket' ∧
    (∃ c', candidates (sm w') !! Owner candidate = Some c' ∧
           Votes c' = Votes candidate - calculateVoteWeight p bucket' self ∧
           0 ≤ Votes c' ∧
           SelfStake c' = if self then 0 else SelfStake candidate) ∧
    voterBuckets (sm w') = voterBuckets (sm w) ∧
    candBuckets (sm w') = candBuckets (sm w) ∧
    totalBucketCount (sm w') = totalBucketCount (sm w).
Proof.
  intros Hhook Hrun Hstatus.
  destruct (handleUnstake_success _ _ _ _ Hhook Hrun Hstatus)
    as (bucket & candidate & Hb & Howner & Hcand & Hweight & Hstate).
  injection Hstate as Hbs Hcount Hvb Hcb Hcs.
  exists bucket, candidate. repeat split; try done.
  - rewrite Hbs. apply lookup_insert_eq.
  - rewrite Hcs. eexists. split; [apply lookup_insert_eq|].
    destruct (ContainsSelfStakingBucket _ _); simpl; repeat split; lia.
Qed.

(** X9.  A successful [changeCandidate] rebinds the bucket to the named
    candidate, lists the index of the bucket in the [cand_buckets] of that
    candidate, keeps the [voter_buckets], and stores the named candidate with
    its votes raised by the weight of the bucket, computed without the
    self-stake bonus and at most the votes of the old candidate.  When the
    old candidate is another one, the index leaves its [cand_buckets] and
    the weight is taken off its stored votes: the weight moves.  When the
    bucket already votes for the named candidate, nothing is taken off: the
    copy with the lowered votes is stored first and the copy with the raised
    votes over it, so the stored votes of the candidate grow by the weight
    though the bucket is as before.  No other candidate is written. *)
Theorem changeCandidate_effects (act : ChangeCandidate) (w : World)
    (r : Receipt) (w' : World) :
  hookKeepsStakingState p →
  handleChangeCandidate Hash256b p ctx act w = (Ok r, w') →
  Status r = ReceiptStatus_Success →
  ∃ bucket candidate prevCandidate,
    GetByName (inMemCandidates w) (cc_Candidate act) = Some candidate ∧
    buckets (sm w) !! cc_BucketIndex act = Some bucket ∧
    GetByOwner (inMemCandidates w) (bCandidate bucket) = Some prevCandidate ∧
    let bucket' := set_bCandidate (Owner candidate) bucket in
    let weight := calculateVoteWeight p bucket' false in
    buckets (sm w') !! cc_BucketIndex act = Some bucket' ∧
    cc_BucketIndex act ∈ indices (candBuckets (sm w')) (Owner candidate) ∧
    (bCandidate bucket ≠ Owner candidate →
     cc_BucketIndex act ∉ indices (candBuckets (sm w')) (bCandidate bucket)) ∧
    voterBuckets (sm w') = voterBuckets (sm w) ∧
    candidates (sm w') !! Owner candidate =
      Some (set_Votes (Votes candidate + weight) candidate) ∧
    (Owner prevCandidate ≠ Owner candidate →
     candidates (sm w') !! Owner prevCandidate =
       Some (set_Votes (Votes prevCandidate - weight) prevCandidate)) ∧
    0 ≤ weight ≤ Votes prevCandidate ∧
    (Owner prevCandidate = Owner candidate →
     candidates (sm w') =
       <[Owner candidate := set_Votes (Votes candidate + weight) candidate]>
         (candidates (sm w))) ∧
    (∀ a, a ≠ Owner candidate → a ≠ Owner prevCandidate →
          candidates (sm w') !! a = candidates (sm w) !! a).
Proof.
  intros Hhook Hrun Hstatus.
  destruct (handleChangeCandidate_success _ _ _ _ Hhook Hrun Hstatus)
    as (bucket & candidate & prev & Hcand & Hb & _ & _ & Hprev & Hweight & Hstate).
  injection Hstate as Hbs Hcount Hvb Hcb Hcs.
  exists bucket, candidate, prev. split; [done|]. split; [done|]. split; [done|].
  cbv zeta. rewrite Hbs, Hvb, Hcb, Hcs.
  split; [apply lookup_insert_eq|].
  split; [rewrite elem_of_indices_add; auto|].
  split.
  { intros Hne. rewrite elem_of_indices_add, elem_of_indices_remove.
    naive_solver. }
  split; [done|]. split; [apply lookup_insert_eq|].
  split.
  { intros Hne. rewrite lookup_insert_ne by done. apply lookup_insert_eq. }
  split; [exact Hweight|].
  split.
  { intros ->. apply insert_insert_eq. }
  intros a Ha Hp. by rewrite !lookup_insert_ne.
Qed.

(** X10.  A successful [restake] sets the duration of the bucket to the days
    of the action times 24 hours, in [int64] nanoseconds with wrap-around,
    sets its auto-stake flag, and replaces the old weight of the bucket in
    the votes of its candidate by the new one; amount, owner, candidate and
    times of the bucket stay. *)
Theorem restake_effects (act : Restake) (w : World) (r : Receipt) (w' : World) :
  hookKeepsStakingState p →
  handleRestake Hash256b p ctx act w = (Ok r, w') →
  Status r = ReceiptStatus_Success →
  ∃ bucket candidate,
    buckets (sm w) !! rs_BucketIndex act = Some bucket ∧
    bOwner bucket = Caller (actionCtx ctx) ∧
    GetByOwner (inMemCandidates w) (bCandidate bucket) = Some candidate ∧
    let self := ContainsSelfStakingBucket (inMemCandidates w) (rs_BucketIndex act) in
    let bucket' :=
      {| bCandidate := bCandidate bucket; bOwner := bOwner bucket;
         StakedAmount := StakedAmount bucket;
         StakedDuration := int64_wrap (Z.of_N (rs_Duration act) * 24 * Hour);
         CreateTime := CreateTime bucket; StakeStartTime := StakeStartTime bucket;
         UnstakeStartTime := UnstakeStartTime bucket;
         AutoStake := rs_AutoStake act |} in
    buckets (sm w') !! rs_BucketIndex act = Some bucket' ∧
    candidates (sm w') !! Owner candidate =
      Some (set_Votes (Votes candidate - calculateVoteWeight p bucket self
                       + calculateVoteWeight p bucket' self) candidate).
Proof.
  intros Hhook Hrun Hstatus.
  destruct (handleRestake_success _ _ _ _ Hhook Hrun Hstatus)
    as (bucket & candidate & Hb & Howner & Hcand & _ & _ & Hstate).
  injection Hstate as Hbs Hcount Hvb Hcb Hcs.
  exists bucket, candidate. repeat split; try done.
  - rewrite Hbs. apply lookup_insert_eq.
  - rewrite Hcs. apply lookup_insert_eq.
Qed.

(** X11.  A successful [candidateUpdate] stores the candidate of the caller
    with the name, operator and reward address of the action where the
    action gives them (a non-empty name, a non-nil address) and the old ones
    where it does not; owner, votes, self-stake and self-stake bucket index
    are kept, and no bucket or bucket index is touched. *)
Theorem candidateUpdate_effects (act : CandidateUpdate) (w : World)
    (r : Receipt) (w' : World) :
  hookKeepsStakingState p →
  handleCandidateUpdate Hash256b p ctx act w = (Ok r, w') →
  Status r = ReceiptStatus_Success →
  ∃ c c',
    GetByOwner (inMemCandidates w) (Caller (actionCtx ctx)) = Some c ∧
    candidates (sm w') = <[Owner c := c']> (candidates (sm w)) ∧
    Name c' = (if bool_decide (cu_Name act = "") then Name c else cu_Name act) ∧
    Operator c' = default (Operator c) (cu_OperatorAddress act) ∧
    Reward c' = default (Reward c) (cu_RewardAddress act) ∧
    Owner c' = Owner c ∧ Votes c' = Votes c ∧ SelfStake c' = SelfStake c ∧
    SelfStakeBucketIdx c' = SelfStakeBucketIdx c ∧
    buckets (sm w') = buckets (sm w) ∧
    voterBuckets (sm w') = voterBuckets (sm w) ∧
    candBuckets (sm w') = candBuckets (sm w).
Proof.
  intros Hhook Hrun Hstatus.
  destruct (handleCandidateUpdate_success _ _ _ _ Hhook Hrun Hstatus)
    as (c & Hc & Hstate).
  injection Hstate as Hbs Hcount Hvb Hcb Hcs.
  exists c, (updatedCandidate act c). repeat split; done.
Qed.

(** X12.  A successful [candidateRegister] stores, at the index that was the
    bucket count, a bucket whose owner and candidate are both the owner of
    the new candidate (the owner address of the action, or the caller when
    the action has none), and stores and enters into the candidate center a
    candidate with that bucket as self-staking bucket, the amount of the
    action as self-stake and the self-staking weight of the bucket as
    votes. *)
Theorem candidateRegister_effects (act : CandidateRegister) (w : World)
    (r : Receipt) (w' : World) :
  hookKeepsStakingState p →
  handleCandidateRegister Hash256b p ctx act w = (Ok r, w') →
  Status r = ReceiptStatus_Success →
  let owner := default (Caller (actionCtx ctx)) (cr_OwnerAddress act) in
  let index := totalBucketCount (sm w) in
  let bucket := NewVoteBucket owner owner (cr_Amount act) (cr_Duration act)
                  (BlockTimeStamp (blkCtx ctx)) (cr_AutoStake act) in
  let c := {| Owner := owner; Operator := cr_OperatorAddress act;
              Reward := cr_RewardAddress act; Name := cr_Name act;
              Votes := calculateVoteWeight p bucket true;
              SelfStakeBucketIdx := index; SelfStake := cr_Amount act |} in
  buckets (sm w') !! index = Some bucket ∧
  totalBucketCount (sm w') = ((index + 1) `mod` 2 ^ 64)%N ∧
  index ∈ indices (voterBuckets (sm w')) owner ∧
  index ∈ indices (candBuckets (sm w')) owner ∧
  candidates (sm w') !! owner = Some c ∧
  GetByOwner (inMemCandidates w') owner = Some c ∧
  GetByName (inMemCandidates w') (cr_Name act) = Some c ∧
  ContainsSelfStakingBucket (inMemCandidates w') index = true.
Proof.
  intros Hhook Hrun Hstatus owner index bucket c.
  destruct (handleCandidateRegister_success _ _ _ _ Hhook Hrun Hstatus)
    as (caller & _ & _ & _ & Hstate & Hcenter).
  injection Hstate as Hbs Hcount Hvb Hcb Hcs.
  fold owner index bucket c in Hbs, Hcount, Hvb, Hcb, Hcs, Hcenter.
  rewrite Hbs, Hcount, Hvb, Hcb, Hcs, Hcenter, !elem_of_indices_add.
  unfold GetByOwner, GetByName, ContainsSelfStakingBucket, center_insert. simpl.
  rewrite !lookup_insert_eq.
  repeat split; auto.
Qed.


(** ** Logs *)

(** [r] is the receipt of a success with one log, made by [createLog] with
    the caller as voter. *)
Definition successWithLog (r : Receipt) : Prop :=
  Status r = ReceiptStatus_Success ∧
  ∃ handlerName candidateAddr data,
    Logs r = [createLog Hash256b p ctx handlerName candidateAddr
                (Caller (actionCtx ctx)) data].

(** [r] is the receipt of a failure, without a log. *)
Definition failureWithoutLog (r : Receipt) : Prop :=
  Status r ≠ ReceiptStatus_Success ∧ Logs r = [].

Definition all_receipts (R : Receipt → Prop) (m : M World Receipt) : Prop :=
  ∀ w r w', m w = (Ok r, w') → R r.

Lemma all_bind {A} R (m : M World A) k :
  (∀ a, all_receipts R (k a)) → all_receipts R (m ≫= k).
Proof.
  intros Hk w r w' H. apply bind_Ok_inv in H as (a & w1 & _ & H). by eapply Hk.
Qed.

Lemma all_throw R e : all_receipts R (throw e).
Proof. intros w r w' H. discriminate. Qed.

Lemma all_match_option {A} R (o : option A) (m : M World Receipt) k :
  all_receipts R m → (∀ a, all_receipts R (k a)) →
  all_receipts R (match o with Some a => k a | None => m end).
Proof. destruct o; auto. Qed.

Lemma all_settle (R : Receipt → Prop) status gasFee logs :
  R (receiptOf p ctx status logs) →
  all_receipts R (onSM (settleAction p ctx status gasFee logs)).
Proof.
  intros HR w r w' H. by apply settle_world_inv in H as (-> & _).
Qed.

Lemma all_settle_tail (R : Receipt → Prop) status gasFee logs
    (k : Receipt → M World Receipt) :
  R (receiptOf p ctx status logs) →
  (∀ r0, center_tail r0 (k r0)) →
  all_receipts R (onSM (settleAction p ctx status gasFee logs) ≫= k).
Proof.
  intros HR Hk w r w' H. apply bind_Ok_inv in H as (r0 & w1 & Hsettle & H).
  apply Hk in H as [-> _]. by apply settle_world_inv in Hsettle as (-> & _).
Qed.

Lemma successWithLog_receipt handlerName candidateAddr data :
  successWithLog
    (receiptOf p ctx ReceiptStatus_Success
       [createLog Hash256b p ctx handlerName candidateAddr
          (Caller (actionCtx ctx)) data]).
Proof. split; [done|]. by exists handlerName, candidateAddr, data. Qed.

Ltac success_tail :=
  repeat first
    [ apply all_settle_tail; [apply successWithLog_receipt|center_tail_tac]
    | apply all_settle; apply successWithLog_receipt
    | apply all_throw
    | apply all_bind; intros
    | apply all_match_option; intros ].

Lemma failure_settle status gasFee w r w' :
  status ≠ ReceiptStatus_Success →
  onSM (settleAction p ctx status gasFee []) w = (Ok r, w') →
  failureWithoutLog r.
Proof.
  intros Hs H. apply settle_world_inv in H as (-> & _). by split.
Qed.

Lemma failure_caller sr amount gasFee fetchErr w r w' :
  fetchCaller ctx sr amount = inr (gasFee, fetchErr) →
  onFetchError p ctx gasFee fetchErr w = (Ok r, w') →
  failureWithoutLog r.
Proof.
  intros Hc Hrun. unfold onFetchError in Hrun.
  case_bool_decide; [discriminate|].
  eapply failure_settle; [|done].
  apply fetchCaller_inr_status in Hc as [Hc|Hc]; congruence.
Qed.

Lemma failure_bucket sr center index checkOwner allowSelfStaking gasFee
    fetchErr w r w' :
  fetchBucket ctx sr center index checkOwner allowSelfStaking = inr fetchErr →
  onFetchError p ctx gasFee fetchErr w = (Ok r, w') →
  failureWithoutLog r.
Proof.
  intros Hb Hrun. unfold onFetchError in Hrun.
  case_bool_decide; [discriminate|].
  eapply failure_settle; [|done]. by eapply fetchBucket_inr_status.
Qed.

Ltac log_path Hrun :=
  first
    [ right; eapply failure_caller; eassumption
    | right; eapply failure_bucket; eassumption
    | right; eapply failure_settle; [|eassumption]; discriminate
    | left; revert Hrun;
      match goal with
      | |- ?m ?w = (Ok ?r, ?w') → _ =>
          let H := fresh in
          assert (H : all_receipts successWithLog m) by success_tail;
          apply H
      end ].

(** X13.  The receipt of a handler either reports [Success] and carries
    exactly one log, made by [createLog] with the caller as voter, or it
    reports a failure and carries no log. *)
Theorem receipt_logs (act : Action) (w : World) (r : Receipt) (w' : World) :
  handle Hash256b p ctx act w = (Ok r, w') →
  successWithLog r ∨ failureWithoutLog r.
Proof.
  intros Hrun. destruct act as [act|act|act|act|act|act|act|act|act];
    simpl in Hrun.
  - unfold handleCreateStake in Hrun. cbv zeta in Hrun.
    rewrite bind_readSM in Hrun.
    destruct (fetchCaller _ _ _) as [[caller gasFee]|[gasFee fetchErr]] eqn:Hc;
      [|log_path Hrun].
    rewrite bind_readCenter in Hrun.
    destruct (GetByName _ _); log_path Hrun.
  - unfold handleUnstake in Hrun. cbv zeta in Hrun.
    rewrite bind_readSM in Hrun.
    destruct (fetchCaller _ _ _) as [[caller gasFee]|[gasFee fetchErr]] eqn:Hc;
      [|log_path Hrun].
    rewrite bind_get in Hrun.
    destruct (fetchBucket _ _ _ _ _ _) eqn:Hb; log_path Hrun.
  - unfold handleWithdrawStake in Hrun. cbv zeta in Hrun.
    rewrite bind_readSM in Hrun.
    destruct (fetchCaller _ _ _) as [[caller gasFee]|[gasFee fetchErr]] eqn:Hc;
      [|log_path Hrun].
    rewrite bind_get in Hrun.
    destruct (fetchBucket _ _ _ _ _ _) eqn:Hb; [|log_path Hrun].
    case_bool_decide; [log_path Hrun|].
    destruct (Before _ _); log_path Hrun.
  - unfold handleChangeCandidate in Hrun. cbv zeta in Hrun.
    rewrite bind_readSM in Hrun.
    destruct (fetchCaller _ _ _) as [[caller gasFee]|[gasFee fetchErr]] eqn:Hc;
      [|log_path Hrun].
    rewrite bind_readCenter in Hrun.
    destruct (GetByName _ _); [|log_path Hrun].
    rewrite bind_get in Hrun.
    destruct (fetchBucket _ _ _ _ _ _) eqn:Hb; log_path Hrun.
  - unfold handleTransferStake in Hrun. cbv zeta in Hrun.
    rewrite bind_readSM in Hrun.
    destruct (fetchCaller _ _ _) as [[caller gasFee]|[gasFee fetchErr]] eqn:Hc;
      [|log_path Hrun].
    rewrite bind_get in Hrun.
    destruct (fetchBucket _ _ _ _ _ _) eqn:Hb; log_path Hrun.
  - unfold handleDepositToStake in Hrun. cbv zeta in Hrun.
    rewrite bind_readSM in Hrun.
    destruct (fetchCaller _ _ _) as [[caller gasFee]|[gasFee fetchErr]] eqn:Hc;
      [|log_path Hrun].
    rewrite bind_get in Hrun.
    destruct (fetchBucket _ _ _ _ _ _) eqn:Hb; [|log_path Hrun].
    destruct (AutoStake _); simpl in Hrun; log_path Hrun.
  - unfold handleRestake in Hrun. cbv zeta in Hrun.
    rewrite bind_readSM in Hrun.
    destruct (fetchCaller _ _ _) as [[caller gasFee]|[gasFee fetchErr]] eqn:Hc;
      [|log_path Hrun].
    rewrite bind_get in Hrun.
    destruct (fetchBucket _ _ _ _ _ _) eqn:Hb; log_path Hrun.
  - unfold handleCandidateRegister in Hrun. cbv zeta in Hrun.
    rewrite bind_readSM in Hrun.
    destruct (fetchCaller _ _ _) as [[caller gasFee]|[gasFee fetchErr]] eqn:Hc;
      log_path Hrun.
  - unfold handleCandidateUpdate in Hrun. cbv zeta in Hrun.
    rewrite bind_readSM in Hrun.
    destruct (fetchCaller _ _ _) as [[caller gasFee]|[gasFee fetchErr]] eqn:Hc;
      [|log_path Hrun].
    rewrite bind_readCenter in Hrun.
    destruct (GetByOwner _ _); log_path Hrun.
Qed.

(** ** The fetches and the helpers of handlers.go *)

(** X14.  [fetchBucket] hands out the stored bucket only if it exists, is
    owned by the caller where the owner is checked, and is no self-staking
    bucket where those are not allowed.  Its failures are, in this order:
    [ErrInvalidBucketIndex] for a missing bucket, [ErrUnauthorizedOperator]
    for a bucket of another owner (also when it is a self-staking bucket),
    [ErrInvalidBucketType] for a self-staking bucket. *)
Theorem fetchBucket_checks (sr : StateManager) (center : CandidateCenter)
    (index : N) (checkOwner allowSelfStaking : bool) :
  match fetchBucket ctx sr center index checkOwner allowSelfStaking with
  | inl bucket =>
      buckets sr !! index = Some bucket ∧
      (checkOwner = true → bOwner bucket = Caller (actionCtx ctx)) ∧
      (allowSelfStaking = false → ContainsSelfStakingBucket center index = false)
  | inr fetchErr =>
      failureStatus fetchErr =
        match buckets sr !! index with
        | None => ReceiptStatus_ErrInvalidBucketIndex
        | Some bucket =>
            if checkOwner && bool_decide (bOwner bucket ≠ Caller (actionCtx ctx))
            then ReceiptStatus_ErrUnauthorizedOperator
            else ReceiptStatus_ErrInvalidBucketType
        end ∧
      (failureStatus fetchErr = ReceiptStatus_ErrInvalidBucketType →
       allowSelfStaking = false ∧ ContainsSelfStakingBucket center index = true)
  end.
Proof.
  destruct (fetchBucket _ _ _ _ _ _) as [bucket|fetchErr] eqn:H.
  - by apply fetchBucket_inl_inv in H.
  - unfold fetchBucket, getBucket in H.
    destruct (buckets sr !! index) as [b|].
    + destruct checkOwner, allowSelfStaking; simpl in *;
        repeat case_bool_decide; simpl in *;
        try destruct (ContainsSelfStakingBucket center index);
        try discriminate; try congruence; injection H as <-; simpl;
        split; try done; try congruence.
    + rewrite bool_decide_eq_true_2 in H by done. injection H as <-. simpl.
      split; [done|discriminate].
Qed.


End Success.

Lemma set_accounts_insert_id a acc s :
  accounts s !! a = Some acc → set_accounts <[a := acc]> s = s.
Proof.
  intros Ha. destruct s. unfold set_accounts. simpl in *.
  by rewrite insert_id.
Qed.

(** X15.  [increaseNonce] never lowers a nonce: on an account that loads it
    stores the larger of the stored nonce and the given one, keeps the
    balance, and touches no other account and nothing else in the state; for
    a nonce that is not above the stored one the state is left as it is.  On
    an account that does not load it fails without writing. *)
Theorem increaseNonce_keeps_the_larger (a : Address) (nonce : N)
    (s : StateManager) :
  match LoadAccount s a with
  | Ok acc =>
      ∃ s', increaseNonce a nonce s = (Ok tt, s') ∧
        accounts s' !! a =
          Some {| Balance := Balance acc; Nonce := N.max (Nonce acc) nonce |} ∧
        (∀ a', a' ≠ a → accounts s' !! a' = accounts s !! a') ∧
        stakingState s' = stakingState s ∧
        rewardPool s' = rewardPool s ∧
        ((nonce ≤ Nonce acc)%N → s' = s)
  | Err e => increaseNonce a nonce s = (Err e, s)
  end.
Proof.
  destruct (LoadAccount s a) as [acc|e] eqn:Hload.
  - rewrite (increaseNonce_Ok _ _ _ _ Hload). eexists. split; [done|].
    unfold withNonce. simpl. split; [apply lookup_insert_eq|].
    split; [intros a' Hne; by apply lookup_insert_ne|].
    repeat split. intros Hle. rewrite N.max_l by done.
    apply set_accounts_insert_id. unfold LoadAccount in Hload.
    destruct (accounts s !! a) as [acc'|]; [|discriminate].
    injection Hload as ->. by destruct acc.
  - by apply increaseNonce_Err.
Qed.

(** X16.  [putBucketAndIndex] returns the bucket count as the index of the
    bucket and raises the count by one (modulo 2^64); afterwards [getBucket]
    finds the bucket at that index, the buckets at other indices are as
    before, and the index is listed under the owner and under the candidate
    of the bucket, next to what was listed before. *)
Theorem putBucketAndIndex_round_trip (bucket : VoteBucket) (s : StateManager) :
  ∃ s',
    putBucketAndIndex bucket s = (Ok (totalBucketCount s), s') ∧
    getBucket s' (totalBucketCount s) = Ok bucket ∧
    (∀ j, j ≠ totalBucketCount s → getBucket s' j = getBucket s j) ∧
    totalBucketCount s' = ((totalBucketCount s + 1) `mod` 2 ^ 64)%N ∧
    (∀ a i, i ∈ indices (voterBuckets s') a ↔
            i ∈ indices (voterBuckets s) a ∨
            (a = bOwner bucket ∧ i = totalBucketCount s)) ∧
    (∀ a i, i ∈ indices (candBuckets s') a ↔
            i ∈ indices (candBuckets s) a ∨
            (a = bCandidate bucket ∧ i = totalBucketCount s)) ∧
    accounts s' = accounts s ∧ candidates s' = candidates s.
Proof.
  eexists. split; [apply putBucketAndIndex_run|]. simpl.
  unfold getBucket. simpl. rewrite lookup_insert_eq. split; [done|].
  split; [intros j Hj; by rewrite lookup_insert_ne|]. split; [done|].
  split; [intros a i; apply elem_of_indices_add|].
  split; [intros a i; apply elem_of_indices_add|]. done.
Qed.

(** ** The properties on the example state *)

(** The example state after Carol has registered as a candidate. *)
Definition exampleWorld2 : World := Eval vm_compute in
  (handleCandidateRegister exampleHash256b exampleProtocol
     (exampleCtx "io1carol" 1 0)
     {| cr_Name := "carol"; cr_OperatorAddress := "io1carolop";
        cr_RewardAddress := "io1carolrw"; cr_OwnerAddress := None;
        cr_Amount := 200; cr_Duration := 7; cr_AutoStake := true |}
     (exampleWorld 0 true)).2.

Lemma exampleWorld_indexed t auto :
  indexed (stakingState (sm (exampleWorld t auto))).
Proof.
  intros i b Hi. simpl in Hi.
  apply lookup_insert_Some in Hi as [[<- <-]|[_ Hi]].
  { split; vm_compute; reflexivity. }
  apply lookup_singleton_Some in Hi as [<- <-].
  split; vm_compute; reflexivity.
Qed.

Lemma exampleWorld_belowCount t auto :
  belowCount (stakingState (sm (exampleWorld t auto))).
Proof.
  intros i b Hi. simpl in *.
  apply lookup_insert_Some in Hi as [[<- <-]|[_ Hi]]; [lia|].
  apply lookup_singleton_Some in Hi as [<- <-]. lia.
Qed.

(** Starts the proof of a witness: the run returns a receipt. *)
Ltac run_ok r w' Hr :=
  match goal with
  | |- ∃ r0 w0, ?run = (Ok r0, w0) ∧ _ =>
      destruct run as [[r|?] w'] eqn:Hr; [|vm_compute in Hr; discriminate];
      exists r, w'; split; [reflexivity|]
  end.

Ltac run_status Hr :=
  match goal with
  | |- Status ?r = _ => vm_compute in Hr; by injection Hr as <- _
  end.

Lemma receipt_status_of_action_witness :
  ∃ r w',
    handle exampleHash256b exampleProtocol (exampleCtx "io1carol" 1 0)
      (ActTransferStake (mkTransferStake "io1dave" 0)) (exampleWorld 0 false)
    = (Ok r, w') ∧
    Status r = ReceiptStatus_ErrUnauthorizedOperator ∧
    Status r ∈ possibleStatuses (ActTransferStake (mkTransferStake "io1dave" 0)).
Proof.
  run_ok r w' Hr.
  split; [|exact (receipt_status_of_action _ _ _ _ _ _ _ Hr)].
  run_status Hr.
Defined.

Lemma receipt_is_settled_witness :
  ∃ r w',
    handle exampleHash256b exampleProtocol (exampleCtx "io1alice" 5 0)
      (ActUnstake (mkUnstake 0)) (exampleWorld 0 false)
    = (Ok r, w') ∧
    GasConsumed r = 1%N ∧ ContractAddress r = "io1staking" ∧
    ∃ acc, accounts (sm w') !! "io1alice" = Some acc ∧ (5 ≤ Nonce acc)%N.
Proof.
  run_ok r w' Hr.
  destruct (receipt_is_settled _ _ _ _ _ _ _ Hr) as (_ & Hgas & Haddr & _ & _ & Hacc).
  done.
Defined.

Lemma caller_not_loaded_aborts_witness :
  handle exampleHash256b exampleProtocol (exampleCtx "io1erin" 1 0)
    (ActUnstake (mkUnstake 0)) (exampleWorld 0 false)
  = (Err ErrStateNotExist, exampleWorld 0 false).
Proof. apply caller_not_loaded_aborts. reflexivity. Defined.

Lemma balance_check_comes_first_witness :
  let ctx := exampleCtx "io1dave" 1 0 in
  let w := exampleWorld 0 false in
  (* an unknown candidate and a bucket that does not exist *)
  handle exampleHash256b exampleProtocol ctx
    (ActChangeCandidate (mkChangeCandidate "nobody" 99)) w
  = onSM (settleAction exampleProtocol ctx ReceiptStatus_ErrNotEnoughBalance 0 []) w.
Proof.
  intros ctx w.
  apply (balance_check_comes_first exampleHash256b exampleProtocol ctx
           (ActChangeCandidate (mkChangeCandidate "nobody" 99)) w (mkAccount 0 0)).
  - reflexivity.
  - vm_compute. reflexivity.
Defined.

Lemma handlers_keep_buckets_indexed_witness :
  ∃ r w',
    handle exampleHash256b exampleProtocol (exampleCtx "io1alice" 1 0)
      (ActTransferStake (mkTransferStake "io1carol" 0)) (exampleWorld 0 false)
    = (Ok r, w') ∧
    Status r = ReceiptStatus_Success ∧
    indexed (stakingState (sm w')).
Proof.
  run_ok r w' Hr.
  split; [run_status Hr|].
  exact (handlers_keep_buckets_indexed _ _ _ _ _ _ _
           rewardingDepositGas_keeps_staking_state
           (exampleWorld_indexed 0 false) Hr).
Defined.

Lemma handlers_keep_buckets_below_count_witness :
  ∃ r w',
    handle exampleHash256b exampleProtocol (exampleCtx "io1carol" 1 0)
      (ActCreateStake (mkCreateStake "bob" 50 7 false)) (exampleWorld 0 false)
    = (Ok r, w') ∧
    Status r = ReceiptStatus_Success ∧
    belowCount (stakingState (sm w')) ∧
    (2 ≤ totalBucketCount (sm w'))%N.
Proof.
  run_ok r w' Hr.
  split; [run_status Hr|].
  assert (Hcount : (totalBucketCount (sm (exampleWorld 0 false)) + 1 < 2 ^ 64)%N)
    by (vm_compute; reflexivity).
  destruct (handlers_keep_buckets_below_count _ _ _ _ _ _ _
              rewardingDepositGas_keeps_staking_state Hcount
              (exampleWorld_belowCount 0 false) Hr) as (Hb & Hc & _).
  done.
Defined.

Lemma createStake_effects_witness :
  ∃ r w',
    handleCreateStake exampleHash256b exampleProtocol (exampleCtx "io1carol" 1 0)
      (mkCreateStake "bob" 50 7 false) (exampleWorld 0 false)
    = (Ok r, w') ∧
    Status r = ReceiptStatus_Success ∧
    buckets (sm w') !! 2%N =
      Some (NewVoteBucket "io1bob" "io1carol" 50 7 0 false) ∧
    totalBucketCount (sm w') = 3%N ∧
    candidates (sm w') !! "io1bob" = Some (set_Votes 350 exampleCandidate).
Proof.
  run_ok r w' Hr.
  assert (Hstatus : Status r = ReceiptStatus_Success) by run_status Hr.
  split; [done|].
  destruct (createStake_effects _ _ _ _ _ _ _
              rewardingDepositGas_keeps_staking_state Hr Hstatus)
    as (candidate & Hcand & Hb & _ & Hcount & _ & _ & Hcs & _).
  injection Hcand as <-. done.
Defined.

Lemma unstake_effects_witness :
  ∃ r w',
    handleUnstake exampleHash256b exampleProtocol (exampleCtx "io1alice" 1 77)
      (mkUnstake 0) (exampleWorld 0 false)
    = (Ok r, w') ∧
    Status r = ReceiptStatus_Success ∧
    buckets (sm w') !! 0%N = Some (exampleBucket 77 false) ∧
    ∃ c', candidates (sm w') !! "io1bob" = Some c' ∧ Votes c' = 200 ∧
          SelfStake c' = 100.
Proof.
  run_ok r w' Hr.
  assert (Hstatus : Status r = ReceiptStatus_Success) by run_status Hr.
  split; [done|].
  destruct (unstake_effects _ _ _ _ _ _ _
              rewardingDepositGas_keeps_staking_state Hr Hstatus)
    as (bucket & candidate & Hbucket & _ & Hcand & Hb & (c' & Hc' & Hv & _ & Hs) & _).
  injection Hbucket as <-. injection Hcand as <-.
  split; [exact Hb|]. exists c'. done.
Defined.

Lemma changeCandidate_effects_witness :
  (* from Bob to Carol: the weight of 100 moves *)
  (∃ r w',
     handleChangeCandidate exampleHash256b exampleProtocol
       (exampleCtx "io1alice" 1 0) (mkChangeCandidate "carol" 0) exampleWorld2
     = (Ok r, w') ∧
     Status r = ReceiptStatus_Success ∧
     (bCandidate <$> buckets (sm w') !! 0%N) = Some "io1carol" ∧
     (0%N ∈ indices (candBuckets (sm w')) "io1carol") ∧
     (0%N ∉ indices (candBuckets (sm w')) "io1bob") ∧
     (Votes <$> candidates (sm w') !! "io1carol") = Some 500 ∧
     (Votes <$> candidates (sm w') !! "io1bob") = Some 200) ∧
  (* from Bob to Bob: his 300 votes become 400 *)
  (∃ r w',
     handleChangeCandidate exampleHash256b exampleProtocol
       (exampleCtx "io1alice" 1 0) (mkChangeCandidate "bob" 0)
       (exampleWorld 0 true)
     = (Ok r, w') ∧
     Status r = ReceiptStatus_Success ∧
     (Votes <$> candidates (sm (exampleWorld 0 true)) !! "io1bob") = Some 300 ∧
     (bCandidate <$> buckets (sm w') !! 0%N) = Some "io1bob" ∧
     (0%N ∈ indices (candBuckets (sm w')) "io1bob") ∧
     (Votes <$> candidates (sm w') !! "io1bob") = Some 400).
Proof.
  assert (Hhook : hookKeepsStakingState exampleProtocol)
    by exact rewardingDepositGas_keeps_staking_state.
  split.
  - run_ok r w' Hr.
    assert (Hstatus : Status r = ReceiptStatus_Success) by run_status Hr.
    split; [done|].
    destruct (changeCandidate_effects _ _ _ _ _ _ _ Hhook Hr Hstatus)
      as (bucket & candidate & prev & Hcand & Hbucket & Hprev
          & Hb & Hin & Hout & _ & Hnew & Hold & _).
    assert (Hbucket' : bucket = exampleBucket 0 true).
    { vm_compute in Hbucket. by injection Hbucket as <-. }
    subst bucket.
    assert (Hcand' : Owner candidate = "io1carol" ∧ Votes candidate = 400).
    { vm_compute in Hcand. by injection Hcand as <-. }
    destruct Hcand' as [Hco Hcv].
    assert (Hprev' : prev = exampleCandidate).
    { vm_compute in Hprev. by injection Hprev as <-. }
    subst prev. cbn in Hb, Hin, Hout, Hnew, Hold. rewrite Hco in *.
    rewrite Hb, Hnew, Hold by done. simpl. rewrite Hcv.
    split; [done|]. split; [done|]. split; [by apply Hout|]. done.
  - run_ok r w' Hr.
    assert (Hstatus : Status r = ReceiptStatus_Success) by run_status Hr.
    split; [done|]. split; [reflexivity|].
    destruct (changeCandidate_effects _ _ _ _ _ _ _ Hhook Hr Hstatus)
      as (bucket & candidate & prev & Hcand & Hbucket & Hprev
          & Hb & Hin & _ & _ & Hnew & _).
    assert (Hbucket' : bucket = exampleBucket 0 true).
    { vm_compute in Hbucket. by injection Hbucket as <-. }
    subst bucket.
    assert (Hcand' : candidate = exampleCandidate).
    { vm_compute in Hcand. by injection Hcand as <-. }
    subst candidate. cbn in Hb, Hin, Hnew.
    rewrite Hb, Hnew. done.
Defined.

Lemma restake_effects_witness :
  ∃ r w',
    handleRestake exampleHash256b exampleProtocol (exampleCtx "io1alice" 1 0)
      (mkRestake 0 14 true) (exampleWorld 0 false)
    = (Ok r, w') ∧
    Status r = ReceiptStatus_Success ∧
    (StakedDuration <$> buckets (sm w') !! 0%N) = Some (14 * 24 * Hour) ∧
    (AutoStake <$> buckets (sm w') !! 0%N) = Some true.
Proof.
  run_ok r w' Hr.
  assert (Hstatus : Status r = ReceiptStatus_Success) by run_status Hr.
  split; [done|].
  destruct (restake_effects _ _ _ _ _ _ _
              rewardingDepositGas_keeps_staking_state Hr Hstatus)
    as (bucket & candidate & Hbucket & _ & _ & Hb & _).
  injection Hbucket as <-. cbn in Hb. rewrite Hb. done.
Defined.

Lemma candidateUpdate_effects_witness :
  ∃ r w',
    handleCandidateUpdate exampleHash256b exampleProtocol
      (exampleCtx "io1bob" 1 0) (mkCandidateUpdate "" (Some "io1bobop2") None)
      (exampleWorld 0 false)
    = (Ok r, w') ∧
    Status r = ReceiptStatus_Success ∧
    candidates (sm w') !! "io1bob" =
      Some {| Owner := "io1bob"; Operator := "io1bobop2"; Reward := "io1bobrw";
              Name := "bob"; Votes := 300; SelfStakeBucketIdx := 1;
              SelfStake := 100 |}.
Proof.
  run_ok r w' Hr.
  assert (Hstatus : Status r = ReceiptStatus_Success) by run_status Hr.
  split; [done|].
  destruct (candidateUpdate_effects _ _ _ _ _ _ _
              rewardingDepositGas_keeps_staking_state Hr Hstatus)
    as (c & c' & Hc & Hcs & Hname & Hop & Hrw & Hown & Hv & Hss & Hidx & _).
  injection Hc as <-. rewrite Hcs. simpl. rewrite lookup_insert_eq.
  destruct c'; simpl in *. by subst.
Defined.

Lemma candidateRegister_effects_witness :
  ∃ r w',
    handleCandidateRegister exampleHash256b exampleProtocol
      (exampleCtx "io1carol" 1 0)
      {| cr_Name := "erin"; cr_OperatorAddress := "io1erinop";
         cr_RewardAddress := "io1erinrw"; cr_OwnerAddress := Some "io1erin";
         cr_Amount := 200; cr_Duration := 7; cr_AutoStake := true |}
      (exampleWorld 0 false)
    = (Ok r, w') ∧
    Status r = ReceiptStatus_Success ∧
    (bOwner <$> buckets (sm w') !! 2%N) = Some "io1erin" ∧
    (SelfStake <$> candidates (sm w') !! "io1erin") = Some 200 ∧
    ContainsSelfStakingBucket (inMemCandidates w') 2 = true.
Proof.
  run_ok r w' Hr.
  assert (Hstatus : Status r = ReceiptStatus_Success) by run_status Hr.
  split; [done|].
  destruct (candidateRegister_effects _ _ _ _ _ _ _
              rewardingDepositGas_keeps_staking_state Hr Hstatus)
    as (Hb & _ & _ & _ & Hc & _ & _ & Hself).
  simpl in Hb, Hc, Hself. rewrite Hb, Hc. done.
Defined.

Lemma receipt_logs_witness :
  ∃ r w',
    handle exampleHash256b exampleProtocol (exampleCtx "io1alice" 1 0)
      (ActUnstake (mkUnstake 0)) (exampleWorld 0 false)
    = (Ok r, w') ∧
    Status r = ReceiptStatus_Success ∧ length (Logs r) = 1%nat.
Proof.
  run_ok r w' Hr.
  assert (Hstatus : Status r = ReceiptStatus_Success) by run_status Hr.
  split; [done|].
  destruct (receipt_logs _ _ _ _ _ _ _ Hr) as [[_ (n & c & d & ->)]|[Hf _]]; [done|].
  congruence.
Defined.

End StakingExtra.

(** * Further properties of the Merkle Patricia Tree front end *)

Module TrieExtra.
Import MerklePatriciaTree TrieSpec.

Section TrieExtra.
Context `{Nodes}.

(** The options that the package exports. *)
Inductive packageOption : Option → Prop :=
  | IsKeyLengthOption len : packageOption (KeyLengthOption len)
  | IsRootHashOption h : packageOption (RootHashOption h)
  | IsHashFuncOption hashFunc : packageOption (HashFuncOption hashFunc)
  | IsKVStoreOption kvStore : packageOption (KVStoreOption kvStore).

(** What the options leave alone in the trie that [New] starts from. *)
Definition unstarted (t : merklePatriciaTree) : Prop :=
  0 < keyLength t ≤ 128 ∧ root t = None ∧ emptyRootHash t = [].

(** The configuration of a trie: what its operations do not write. *)
Definition sameConfiguration (mpt mpt' : merklePatriciaTree) : Prop :=
  keyLength mpt' = keyLength mpt ∧ hashFunc mpt' = hashFunc mpt ∧
  emptyRootHash mpt' = emptyRootHash mpt.

Ltac unfold_M :=
  unfold mbind, M_bind, bind, get, modify, lift_result, throw, mret, M_ret,
    ret, ignoreError, replaceError, onStore in *.

Lemma packageOption_unstarted opt t t' :
  packageOption opt → opt t = Ok t' → unstarted t → unstarted t'.
Proof.
  intros Hopt Hrun (Hlen & Hroot & Hempty). destruct Hopt.
  - unfold KeyLengthOption in Hrun.
    destruct (bool_decide (len ≤ 0)) eqn:H1; [discriminate|].
    destruct (bool_decide (128 < len)) eqn:H2; [discriminate|].
    apply bool_decide_eq_false in H1, H2. simpl in Hrun.
    injection Hrun as <-. split; [simpl; lia|]. done.
  - injection Hrun as <-. done.
  - injection Hrun as <-. done.
  - injection Hrun as <-. done.
Qed.

Lemma applyOptions_unstarted options t t' :
  Forall packageOption options →
  applyOptions options t = Ok t' → unstarted t → unstarted t'.
Proof.
  intros Hopts. revert t. induction Hopts as [|opt options Hopt _ IH];
    intros t Hrun Ht; simpl in Hrun.
  - by injection Hrun as <-.
  - destruct (opt t) as [t1|e] eqn:H1; [|discriminate].
    eapply IH; [done|]. by eapply packageOption_unstarted.
Qed.

Lemma New_unstarted options t :
  Forall packageOption options → New options = Ok t →
  unstarted t ∧ ∃ st, kvStore t = Some st.
Proof.
  intros Hopts. unfold New.
  destruct (applyOptions _ _) as [t1|e] eqn:H1; [|discriminate].
  intros [= <-].
  assert (Ht1 : unstarted t1).
  { eapply applyOptions_unstarted; [done..|]. split; [simpl; lia|done]. }
  destruct (kvStore t1) as [st|] eqn:Hst; [eauto|].
  split; [exact Ht1|]. by exists NewMemKVStore.
Qed.

Lemma applyOptions_error options t e :
  Forall packageOption options →
  applyOptions options t = Err e → e = ErrOther "invalid key length".
Proof.
  intros Hopts. revert t. induction Hopts as [|opt options Hopt _ IH];
    intros t Hrun; simpl in Hrun; [discriminate|].
  destruct (opt t) as [t1|e1] eqn:H1; [by eapply IH|].
  injection Hrun as ->. destruct Hopt; try discriminate.
  unfold KeyLengthOption in H1. by case_match; simplify_eq.
Qed.

Lemma applyOptions_app pre post t :
  applyOptions (pre ++ post) t =
    match applyOptions pre t with
    | Ok t' => applyOptions post t'
    | Err e => Err e
    end.
Proof.
  revert t. induction pre as [|opt pre IH]; intros t; simpl; [done|].
  by destruct (opt t).
Qed.

(** X17.  A key whose length is not the key length of the trie is refused by
    [Get], [Upsert] and [Delete] before anything else is looked at: the three
    fail with the key-length error, and the trie stays as it is, also when it
    has no root yet. *)
Theorem wrong_key_length (mpt : merklePatriciaTree) (key value : bytes) :
  Z.of_nat (length key) ≠ keyLength mpt →
  Get mpt key = Err ErrInvalidKeyLength ∧
  Upsert key value mpt = (Err ErrInvalidKeyLength, mpt) ∧
  Delete key mpt = (Err ErrInvalidKeyLength, mpt).
Proof.
  intros Hlen. unfold Get, Upsert, Delete, checkKeyType. unfold_M.
  by rewrite (bool_decide_eq_true_2 _ Hlen).
Qed.

(** X18.  The trie that [New] returns from options of the package has a key
    length between 1 and 128 and a store, and neither a root nor the
    empty-root-hash sentinel: those come with [Start]. *)
Theorem New_trie (options : list Option) (t : merklePatriciaTree) :
  Forall packageOption options →
  New options = Ok t →
  0 < keyLength t ≤ 128 ∧
  (∃ st, kvStore t = Some st) ∧
  root t = None ∧
  emptyRootHash t = [].
Proof.
  intros Hopts Hnew.
  destruct (New_unstarted _ _ Hopts Hnew) as ((Hlen & Hroot & Hempty) & Hst).
  done.
Qed.

(** X19.  [New] fails with the key-length error as soon as one of its options
    is a [KeyLengthOption] with a length that is not between 1 and 128,
    whatever the options before and after it are. *)
Theorem New_invalid_key_length (pre post : list Option) (len : Z) :
  Forall packageOption pre →
  len ≤ 0 ∨ 128 < len →
  New (pre ++ KeyLengthOption len :: post) = Err (ErrOther "invalid key length").
Proof.
  intros Hpre Hlen. unfold New. rewrite applyOptions_app.
  destruct (applyOptions pre _) as [t1|e] eqn:H1.
  - simpl. unfold KeyLengthOption.
    assert (bool_decide (len ≤ 0) || bool_decide (128 < len) = true) as ->.
    { destruct Hlen as [Hl|Hl]; rewrite (bool_decide_eq_true_2 _ Hl);
        [done|by rewrite orb_true_r]. }
    done.
  - by rewrite (applyOptions_error _ _ _ Hpre H1).
Qed.

(** X20.  [New] installs no root.  On the trie it returns, before [Start],
    [Get], [Upsert] and [Delete] of a key of the right length reach the nil
    root, which is a nil dereference in Go; the trie stays as it is. *)
Theorem operations_before_Start (options : list Option)
    (t : merklePatriciaTree) (key value : bytes) :
  Forall packageOption options →
  New options = Ok t →
  Z.of_nat (length key) = keyLength t →
  Get t key = Err (ErrPanic "nil root") ∧
  Upsert key value t = (Err (ErrPanic "nil root"), t) ∧
  Delete key t = (Err (ErrPanic "nil root"), t).
Proof.
  intros Hopts Hnew Hlen.
  destruct (New_unstarted _ _ Hopts Hnew) as ((_ & Hroot & _) & _).
  unfold Get, Upsert, Delete, theRoot, checkKeyType. unfold_M.
  rewrite bool_decide_eq_false_2 by (intros ?; lia).
  by rewrite Hroot.
Qed.

Lemma setRootHash_empty (rh : option bytes) (t : merklePatriciaTree) (h : bytes) :
  length (slice rh) = 0%nat ∨ slice rh = emptyRootHash t →
  branch_Hash (hashFunc t) newEmptyRootBranchNode = Ok h →
  setRootHash rh t =
    (Ok tt, set_rootHash (Some h) (set_root (Some newEmptyRootBranchNode) t)).
Proof.
  intros Hrh Hh. unfold setRootHash, isEmptyRootHash.
  unfold mbind at 1, M_bind, bind, get.
  assert (bool_decide (length (slice rh) = 0%nat)
          || bool_decide (slice rh = emptyRootHash t) = true) as ->.
  { destruct Hrh as [Hrh|Hrh]; rewrite (bool_decide_eq_true_2 _ Hrh);
      [done|by rewrite orb_true_r]. }
  unfold ignoreError. by rewrite (resetRoot_Ok _ _ h).
Qed.

(** X21.  [Start] on a trie whose root hash is not set, is empty, or is the
    hash of the empty root installs the empty root: it sets the sentinel
    and the root hash to the hash of the empty root, after which the trie is
    empty; the store and the key length stay. *)
Theorem Start_fresh (mpt : merklePatriciaTree) (h : bytes) :
  branch_Hash (hashFunc mpt) newEmptyRootBranchNode = Ok h →
  slice (rootHash mpt) = [] ∨ slice (rootHash mpt) = h →
  ∃ mpt',
    Start mpt = (Ok tt, mpt') ∧
    root mpt' = Some newEmptyRootBranchNode ∧
    RootHash mpt' = Some h ∧
    emptyRootHash mpt' = h ∧
    IsEmpty mpt' = true ∧
    kvStore mpt' = kvStore mpt ∧
    keyLength mpt' = keyLength mpt.
Proof.
  intros Hh Hroot.
  unfold Start. unfold_M. rewrite Hh. simpl.
  destruct (rootHash mpt) as [rh|] eqn:Hrh; simpl; rewrite ?Hrh.
  - rewrite (setRootHash_empty _ _ h); [| |done].
    2:{ destruct Hroot as [Hr|Hr]; [left; by rewrite Hr|by right]. }
    eexists. split; [reflexivity|]. repeat split; try done.
    unfold IsEmpty, isEmptyRootHash. simpl. by apply bool_decide_eq_true_2.
  - rewrite (setRootHash_empty _ _ h); [|by right|done].
    eexists. split; [reflexivity|]. repeat split; try done.
    unfold IsEmpty, isEmptyRootHash. simpl. by apply bool_decide_eq_true_2.
Qed.

(** X22.  [SetRootHash] with a hash that is neither empty nor the sentinel and
    that the store does not hold fails with the not-found error of the
    store and leaves the trie as it is: root and root hash are the old
    ones. *)
Theorem SetRootHash_unknown_hash (mpt : merklePatriciaTree) (h : option bytes)
    (st : KVStore) :
  slice h ≠ [] →
  slice h ≠ emptyRootHash mpt →
  kvStore mpt = Some st →
  st !! slice h = None →
  SetRootHash h mpt = (Err ErrNotExist, mpt).
Proof.
  intros Hne Hns Hst Hmiss.
  unfold SetRootHash, setRootHash, isEmptyRootHash.
  unfold mbind at 1, M_bind, bind, get.
  rewrite bool_decide_eq_false_2.
  2:{ intros Hl. apply Hne. by apply nil_length_inv. }
  rewrite bool_decide_eq_false_2 by done. simpl.
  unfold_M. unfold loadNode, KVStore_Get. by rewrite Hst, Hmiss.
Qed.

(** X23.  [SetRootHash] with a hash under which the store holds a node that
    is not a branch fails with [ErrInvalidTrie] and leaves the trie as it
    is. *)
Theorem SetRootHash_not_a_branch (mpt : merklePatriciaTree) (h : option bytes)
    (n : node) :
  slice h ≠ [] →
  slice h ≠ emptyRootHash mpt →
  loadNode mpt (slice h) = Ok n →
  as_branch n = None →
  SetRootHash h mpt = (Err ErrInvalidTrie, mpt).
Proof.
  intros Hne Hns Hload Hnode.
  unfold SetRootHash, setRootHash, isEmptyRootHash.
  unfold mbind at 1, M_bind, bind, get.
  rewrite bool_decide_eq_false_2.
  2:{ intros Hl. apply Hne. by apply nil_length_inv. }
  rewrite bool_decide_eq_false_2 by done. simpl.
  unfold_M. by rewrite Hload, Hnode.
Qed.

(** X24.  [SetRootHash] with an empty hash or the sentinel never fails and
    always installs the empty root: an error of the hash of the empty root
    is dropped, and the root hash then stays the one of the old root. *)
Theorem SetRootHash_empty_never_fails (mpt : merklePatriciaTree)
    (h : option bytes) :
  length (slice h) = 0%nat ∨ slice h = emptyRootHash mpt →
  ∃ mpt',
    SetRootHash h mpt = (Ok tt, mpt') ∧
    root mpt' = Some newEmptyRootBranchNode ∧
    kvStore mpt' = kvStore mpt ∧
    match branch_Hash (hashFunc mpt) newEmptyRootBranchNode with
    | Ok h' => RootHash mpt' = Some h'
    | Err _ => RootHash mpt' = RootHash mpt
    end.
Proof.
  intros Hh. unfold SetRootHash, setRootHash, isEmptyRootHash.
  unfold mbind at 1, M_bind, bind, get.
  assert (bool_decide (length (slice h) = 0%nat)
          || bool_decide (slice h = emptyRootHash mpt) = true) as ->.
  { destruct Hh as [Hh|Hh]; rewrite (bool_decide_eq_true_2 _ Hh);
      [done|by rewrite orb_true_r]. }
  unfold resetRoot. unfold_M. simpl.
  destruct (branch_Hash (hashFunc mpt) newEmptyRootBranchNode) as [h'|e];
    eexists; (split; [reflexivity|]); done.
Qed.

(** X25.  After a successful [Upsert] or [Delete] the trie has a root, and
    its root hash is the hash of that root; the key had the key length of
    the trie. *)
Theorem write_sets_root_hash (mpt mpt' : merklePatriciaTree) (key value : bytes) :
  Upsert key value mpt = (Ok tt, mpt') ∨ Delete key mpt = (Ok tt, mpt') →
  Z.of_nat (length key) = keyLength mpt ∧
  ∃ r h,
    root mpt' = Some r ∧
    RootHash mpt' = Some h ∧
    branch_Hash (hashFunc mpt') r = Ok h.
Proof.
  assert (Hreset : ∀ bn t t',
    resetRoot bn t = (Ok tt, t') →
    ∃ r h, root t' = Some r ∧ RootHash t' = Some h ∧
           branch_Hash (hashFunc t') r = Ok h).
  { intros bn t t'. unfold resetRoot. unfold_M. simpl.
    destruct (branch_Hash (hashFunc t) bn) as [h|e] eqn:Hh; [|discriminate].
    intros [= <-]. by exists bn, h. }
  intros [Hrun|Hrun]; revert Hrun.
  - unfold Upsert, theRoot, checkKeyType. unfold_M.
    case_bool_decide as Hlen; [discriminate|]. simpl.
    destruct (root mpt) as [r|]; [|discriminate].
    destruct (kvStore mpt) as [st|]; [|discriminate].
    destruct (branch_Upsert _ _ _ _ _ _) as [[n|e] st']; [|discriminate].
    destruct (as_branch n) as [bn|]; [|discriminate].
    intros Hrun. split; [lia|]. by eapply Hreset.
  - unfold Delete, theRoot, checkKeyType. unfold_M.
    case_bool_decide as Hlen; [discriminate|]. simpl.
    destruct (root mpt) as [r|]; [|discriminate].
    destruct (kvStore mpt) as [st|]; [|discriminate].
    destruct (branch_Delete _ _ _ _ _) as [[n|e] st']; [|discriminate].
    destruct (as_branch n) as [bn|]; [|discriminate].
    intros Hrun. split; [lia|]. by eapply Hreset.
Qed.

(** X26.  Whether they succeed or fail, [Upsert], [Delete] and [SetRootHash]
    write neither the key length, nor the hash function, nor the
    sentinel of the trie. *)
Theorem configuration_is_kept (mpt : merklePatriciaTree) (key value : bytes)
    (h : option bytes) :
  sameConfiguration mpt (Upsert key value mpt).2 ∧
  sameConfiguration mpt (Delete key mpt).2 ∧
  sameConfiguration mpt (SetRootHash h mpt).2.
Proof.
  assert (Hreset : ∀ bn t, sameConfiguration mpt t →
            sameConfiguration mpt (resetRoot bn t).2).
  { intros bn t Ht. unfold resetRoot. unfold_M. simpl.
    by destruct (branch_Hash (hashFunc t) bn). }
  assert (Hrefl : sameConfiguration mpt mpt) by done.
  split; [|split].
  - unfold Upsert, theRoot, checkKeyType. unfold_M.
    case_bool_decide; [done|]. simpl.
    destruct (root mpt) as [r|]; [|done].
    destruct (kvStore mpt) as [st|]; [|done].
    destruct (branch_Upsert _ _ _ _ _ _) as [[n|e] st']; [|done].
    destruct (as_branch n) as [bn|]; [|done].
    by apply Hreset.
  - unfold Delete, theRoot, checkKeyType. unfold_M.
    case_bool_decide; [done|]. simpl.
    destruct (root mpt) as [r|]; [|done].
    destruct (kvStore mpt) as [st|]; [|done].
    destruct (branch_Delete _ _ _ _ _) as [[n|e] st']; [|done].
    destruct (as_branch n) as [bn|]; [|done].
    by apply Hreset.
  - unfold SetRootHash, setRootHash. unfold mbind at 1, M_bind, bind, get.
    destruct (_ || _).
    + unfold ignoreError.
      pose proof (Hreset newEmptyRootBranchNode mpt Hrefl) as Hr.
      by destruct (resetRoot _ mpt).
    + unfold mbind, M_bind, bind, lift_result, throw.
      destruct (loadNode mpt (slice h)) as [n|e]; [|done].
      destruct (as_branch n) as [b|]; [|done].
      unfold ignoreError.
      pose proof (Hreset (branch_MarkAsRoot b) mpt Hrefl) as Hr.
      by destruct (resetRoot _ mpt).
Qed.

(** X27.  [Start] on a trie that was given a root hash reachable in its store
    loads that root: the root hash stays the given one, the root is the
    stored branch marked as root, and the sentinel is set. *)
Theorem Start_loads_the_given_root (mpt : merklePatriciaTree) (h e : bytes) :
  branch_Hash (hashFunc mpt) newEmptyRootBranchNode = Ok e →
  rootHash mpt = Some h →
  h ≠ [] →
  reachable mpt h →
  ∃ mpt',
    Start mpt = (Ok tt, mpt') ∧
    RootHash mpt' = Some h ∧
    emptyRootHash mpt' = e ∧
    kvStore mpt' = kvStore mpt ∧
    ∃ r, root mpt' = Some r ∧ branch_Hash (hashFunc mpt') r = Ok h.
Proof.
  intros He Hrh Hne (st & s & pb & b & Hst & Hs & Hpb & Hb & Hhash).
  unfold Start. unfold_M. rewrite He. simpl. rewrite Hrh.
  destruct (decide (h = e)) as [Heq|Hneq].
  - subst e. rewrite (setRootHash_empty _ _ h);
      [|right; simpl; by rewrite Hrh|done].
    eexists. split; [reflexivity|]. simpl.
    split; [done|]. split; [done|]. split; [done|].
    by exists newEmptyRootBranchNode.
  - unfold setRootHash, isEmptyRootHash. unfold_M. simpl. rewrite Hrh. simpl.
    rewrite bool_decide_eq_false_2.
    2:{ intros Hl. apply Hne. by apply nil_length_inv. }
    rewrite bool_decide_eq_false_2 by done. simpl.
    unfold loadNode, KVStore_Get. simpl. rewrite Hst, Hs, Hpb, Hb.
    unfold resetRoot. unfold_M. simpl. rewrite Hhash.
    eexists. split; [reflexivity|]. simpl.
    split; [done|]. split; [done|]. split; [done|].
    by exists (branch_MarkAsRoot b).
Qed.

End TrieExtra.

(** ** The properties over the reference nodes *)

#[local] Existing Instance exampleNodes.

(** A trie made anew over the store of [exampleTrie2], with the root hash
    of [exampleTrie1]. *)
Definition reopenedTrie : @merklePatriciaTree exampleNodes :=
  set_rootHash (RootHash exampleTrie1) (set_kvStore (kvStore exampleTrie2) newTrie).

(** [exampleTrie1] over a store that holds a leaf under the key [[9]]. *)
Definition leafTrie : @merklePatriciaTree exampleNodes :=
  set_kvStore (Some {[ [Byte.x09] := [Byte.x12; Byte.x61] ]}) exampleTrie1.

Lemma wrong_key_length_witness :
  Get exampleTrie1 [Byte.x01] = Err ErrInvalidKeyLength ∧
  Upsert [Byte.x01] v1 exampleTrie1 = (Err ErrInvalidKeyLength, exampleTrie1) ∧
  Delete [Byte.x01] exampleTrie1 = (Err ErrInvalidKeyLength, exampleTrie1).
Proof.
  apply (wrong_key_length (H := exampleNodes)). unfold exampleTrie1. simpl. lia.
Defined.

Lemma New_trie_witness :
  New [KeyLengthOption 2; HashFuncOption DefaultHashFunc] = Ok newTrie ∧
  0 < keyLength newTrie ≤ 128 ∧
  (∃ st, kvStore newTrie = Some st) ∧
  root newTrie = None ∧
  emptyRootHash newTrie = [].
Proof.
  split; [reflexivity|].
  apply (New_trie (H := exampleNodes)
           [KeyLengthOption 2; HashFuncOption DefaultHashFunc]).
  - repeat constructor.
  - reflexivity.
Defined.

Lemma New_invalid_key_length_witness :
  New [RootHashOption None; KeyLengthOption 129; KeyLengthOption 2]
  = Err (ErrOther "invalid key length").
Proof.
  apply (New_invalid_key_length (H := exampleNodes)
           [RootHashOption None] [KeyLengthOption 2] 129).
  - repeat constructor.
  - lia.
Defined.

Lemma operations_before_Start_witness :
  Get newTrie k1 = Err (ErrPanic "nil root") ∧
  Upsert k1 v1 newTrie = (Err (ErrPanic "nil root"), newTrie) ∧
  Delete k1 newTrie = (Err (ErrPanic "nil root"), newTrie).
Proof.
  apply (operations_before_Start (H := exampleNodes) [KeyLengthOption 2]).
  - repeat constructor.
  - reflexivity.
  - reflexivity.
Defined.

Lemma Start_fresh_witness :
  ∃ mpt',
    Start newTrie = (Ok tt, mpt') ∧
    IsEmpty mpt' = true ∧
    RootHash mpt' = Some (emptyRootHash exampleTrie1).
Proof.
  destruct (Start_fresh (H := exampleNodes) newTrie (emptyRootHash exampleTrie1))
    as (mpt' & Hstart & _ & Hhash & _ & Hempty & _).
  - vm_refl.
  - left. reflexivity.
  - by exists mpt'.
Defined.

Lemma SetRootHash_unknown_hash_witness :
  SetRootHash (Some [Byte.x07]) exampleTrie1 = (Err ErrNotExist, exampleTrie1).
Proof.
  apply (SetRootHash_unknown_hash (H := exampleNodes) exampleTrie1
           (Some [Byte.x07]) (default ∅ (kvStore exampleTrie1))).
  - discriminate.
  - vm_compute. congruence.
  - vm_refl.
  - vm_refl.
Defined.

Lemma SetRootHash_not_a_branch_witness :
  SetRootHash (Some [Byte.x09]) leafTrie = (Err ErrInvalidTrie, leafTrie).
Proof.
  apply (SetRootHash_not_a_branch (H := exampleNodes) leafTrie
           (Some [Byte.x09]) (inr [Byte.x61])).
  - discriminate.
  - vm_compute. congruence.
  - vm_refl.
  - reflexivity.
Defined.

Lemma SetRootHash_empty_never_fails_witness :
  ∃ mpt',
    SetRootHash (Some []) newTrie = (Ok tt, mpt') ∧
    root mpt' = Some newEmptyRootBranchNode.
Proof.
  destruct (SetRootHash_empty_never_fails (H := exampleNodes) newTrie (Some []))
    as (mpt' & Hset & Hroot & _).
  - by left.
  - by exists mpt'.
Defined.

Lemma write_sets_root_hash_witness :
  Upsert k2 v2 exampleTrie1 = (Ok tt, exampleTrie2) ∧
  ∃ r h,
    root exampleTrie2 = Some r ∧
    RootHash exampleTrie2 = Some h ∧
    branch_Hash (hashFunc exampleTrie2) r = Ok h.
Proof.
  assert (Hrun : Upsert k2 v2 exampleTrie1 = (Ok tt, exampleTrie2)) by vm_refl.
  split; [exact Hrun|].
  exact (proj2 (write_sets_root_hash (H := exampleNodes) exampleTrie1
                  exampleTrie2 k2 v2 (or_introl Hrun))).
Defined.

Lemma Start_loads_the_given_root_witness :
  New [KeyLengthOption 2; RootHashOption (RootHash exampleTrie1);
       KVStoreOption (kvStore exampleTrie2)] = Ok reopenedTrie ∧
  ∃ mpt',
    Start reopenedTrie = (Ok tt, mpt') ∧
    RootHash mpt' = RootHash exampleTrie1.
Proof.
  split; [vm_refl|].
  destruct (Start_loads_the_given_root (H := exampleNodes) reopenedTrie
              (slice (RootHash exampleTrie1)) (emptyRootHash exampleTrie1))
    as (mpt' & Hstart & Hhash & _).
  - vm_refl.
  - vm_refl.
  - vm_compute. congruence.
  - exists (default ∅ (kvStore exampleTrie2)),
      (default [] (default ∅ (kvStore exampleTrie2)
                     !! slice (RootHash exampleTrie1))),
      [(k1, v1)], (list_to_map [(k1, v1)]).
    repeat split; vm_refl.
  - exists mpt'. split; [done|]. rewrite Hhash. vm_refl.
Defined.

End TrieExtra.
